(** * Notation globs: a shallow embedding of [Notation.Glob]

    The development follows the TypeScript sources of the glob engine
    (utils and core/notation.glob): the regular expressions it is built on,
    the [Glob] class with its static helpers ([_inspect], [split], [_covers],
    [_intersect], [compare], [sort], [normalize], [union]) and the private
    helpers at the end of the module ([_compareUnion] among them).

    JavaScript strings are sequences of code units; here a string is a list
    of 8-bit characters, so the development speaks about strings whose code
    units are below 256. *)

From Stdlib Require Import String.
From Stdlib Require Import List Ascii ZArith Bool Arith Lia Permutation.
Import ListNotations.

Set Implicit Arguments.

Local Open Scope list_scope.
Local Open Scope bool_scope.

(* ------------------------------------------------------------------ *)
(** ** Strings *)

Definition jsstring := list ascii.

(** A string literal as a JavaScript string. *)
Definition js (s : String.string) : jsstring := String.list_ascii_of_string s.
Arguments js s%_string.

Fixpoint streq (a b : jsstring) : bool :=
  match a, b with
  | [], [] => true
  | x :: a', y :: b' => Ascii.eqb x y && streq a' b'
  | _, _ => false
  end.

(** [a < b] on strings: code units compared left to right. *)
Fixpoint strlt (a b : jsstring) : bool :=
  match a, b with
  | _, [] => false
  | [], _ :: _ => true
  | x :: a', y :: b' =>
      if (nat_of_ascii x <? nat_of_ascii y)%nat then true
      else if (nat_of_ascii y <? nat_of_ascii x)%nat then false
      else strlt a' b'
  end.

Definition code (c : ascii) : nat := nat_of_ascii c.

(** The double quote, code unit 34. *)
Definition DQ : ascii := Ascii false true false false false true false false.

Definition is_char (x : ascii) (c : ascii) : bool := Ascii.eqb c x.
Definition not_char (x : ascii) (c : ascii) : bool := negb (Ascii.eqb c x).

(** [\d] *)
Definition is_digit (c : ascii) : bool :=
  (48 <=? code c)%nat && (code c <=? 57)%nat.

(** [[a-z$_]] under the [i] flag *)
Definition is_var_start (c : ascii) : bool :=
  ((97 <=? code c)%nat && (code c <=? 122)%nat)
  || ((65 <=? code c)%nat && (code c <=? 90)%nat)
  || is_char "$" c || is_char "_" c.

(** [[a-z$_\d]] under the [i] flag *)
Definition is_var_char (c : ascii) : bool := is_var_start c || is_digit c.

(** Line terminators: LF and CR (U+2028 and U+2029 are above 255). *)
Definition is_line_terminator (c : ascii) : bool :=
  (code c =? 10)%nat || (code c =? 13)%nat.

(** [.] without the [s] flag *)
Definition dot (c : ascii) : bool := negb (is_line_terminator c).

(** [\s], which is also what [String.prototype.trim] strips:
    TAB, LF, VT, FF, CR, space and NBSP below 256. *)
Definition is_space (c : ascii) : bool :=
  ((9 <=? code c)%nat && (code c <=? 13)%nat)
  || (code c =? 32)%nat || (code c =? 160)%nat.

Fixpoint trimStart (s : jsstring) : jsstring :=
  match s with
  | c :: s' => if is_space c then trimStart s' else s
  | [] => []
  end.

Definition trim (s : jsstring) : jsstring :=
  rev (trimStart (rev (trimStart s))).

(* ------------------------------------------------------------------ *)
(** ** Regular expressions

    The patterns of the source use character classes, sequence, ordered
    alternation, greedy and lazy repetition, lookahead and the end anchor.
    [exec] is the backtracking matcher of the language specification: it
    tries the alternatives in priority order and hands the rest of the input
    to a continuation, which may refuse it and so make the matcher
    backtrack. *)

Inductive regex : Type :=
| Eps
| Chr (p : ascii -> bool)
| Seq (r1 r2 : regex)
| Alt (r1 r2 : regex)
| Star (r : regex)
| LazyStar (r : regex)
| Ahead (r : regex)
| NotAhead (r : regex)
| Eos.

Section Matcher.
Variable A : Type.

(** Greedy repetition: an iteration that consumes nothing is refused. *)
Fixpoint star_loop (body : jsstring -> (jsstring -> option A) -> option A)
         (k : jsstring -> option A) (n : nat) (s : jsstring) : option A :=
  match n with
  | O => k s
  | S n' =>
      match body s (fun s' => if (length s' <? length s)%nat
                              then star_loop body k n' s' else None) with
      | Some x => Some x
      | None => k s
      end
  end.

Fixpoint lazy_loop (body : jsstring -> (jsstring -> option A) -> option A)
         (k : jsstring -> option A) (n : nat) (s : jsstring) : option A :=
  match n with
  | O => k s
  | S n' =>
      match k s with
      | Some x => Some x
      | None => body s (fun s' => if (length s' <? length s)%nat
                                  then lazy_loop body k n' s' else None)
      end
  end.
End Matcher.

Fixpoint exec (A : Type) (r : regex) (s : jsstring)
         (k : jsstring -> option A) {struct r} : option A :=
  match r with
  | Eps => k s
  | Chr p => match s with
             | c :: s' => if p c then k s' else None
             | [] => None
             end
  | Seq r1 r2 => exec r1 s (fun s1 => exec r2 s1 k)
  | Alt r1 r2 => match exec r1 s k with
                 | Some x => Some x
                 | None => exec r2 s k
                 end
  | Star r1 => star_loop (fun s0 k0 => exec r1 s0 k0) k (length s) s
  | LazyStar r1 => lazy_loop (fun s0 k0 => exec r1 s0 k0) k (length s) s
  | Ahead r1 => match exec r1 s (fun _ => Some tt) with
                | Some _ => k s
                | None => None
                end
  | NotAhead r1 => match exec r1 s (fun _ => Some tt) with
                   | Some _ => None
                   | None => k s
                   end
  | Eos => match s with [] => k s | _ :: _ => None end
  end.

Definition is_some (A : Type) (o : option A) : bool :=
  match o with Some _ => true | None => false end.

(** [r+], [r+?], [r?] and literal text. *)
Definition Plus (r : regex) : regex := Seq r (Star r).
Definition LazyPlus (r : regex) : regex := Seq r (LazyStar r).
Definition Opt (r : regex) : regex := Alt r Eps.
Definition chr (c : ascii) : regex := Chr (is_char c).
Fixpoint lit_ (s : jsstring) : regex :=
  match s with
  | [] => Eps
  | c :: s' => Seq (chr c) (lit_ s')
  end.
Definition lit (s : String.string) : regex := lit_ (js s).
Arguments lit s%_string.

(** [re.test(s)] for a pattern that starts with [^]. *)
Definition test_anchored (r : regex) (s : jsstring) : bool :=
  is_some (exec r s (fun _ => Some tt)).

(** [re.test(s)] for a pattern without [^]: the first position where the
    pattern matches. *)
Fixpoint test_search (r : regex) (s : jsstring) : bool :=
  test_anchored r s
  || match s with
     | [] => false
     | _ :: s' => test_search r s'
     end.

(** The text a match consumed, given the input before and after it. *)
Definition consumed (before after : jsstring) : jsstring :=
  firstn (length before - length after) before.

(** The match of [pre (g) post] at the start of [s]: the text captured by
    the group [g], if the whole pattern matches. *)
Definition exec_group (pre g post : regex) (s : jsstring) : option jsstring :=
  exec pre s (fun s0 =>
  exec g s0 (fun s1 =>
  exec post s1 (fun _ => Some (consumed s0 s1)))).

(** [s.match(re)] for a pattern with the [g] flag: the successive matches
    from left to right, [None] (null) when there is none.  A position where
    the pattern does not match is skipped; an empty match advances by one
    character. *)
Fixpoint match_all_from (r : regex) (n : nat) (s : jsstring) : list jsstring :=
  match n with
  | O => []
  | S n' =>
      match exec r s (fun rest => Some rest) with
      | Some rest =>
          if (length rest <? length s)%nat
          then consumed s rest :: match_all_from r n' rest
          else consumed s rest ::
               match s with [] => [] | _ :: s' => match_all_from r n' s' end
      | None =>
          match s with [] => [] | _ :: s' => match_all_from r n' s' end
      end
  end.

Definition match_g (r : regex) (s : jsstring) : option (list jsstring) :=
  match match_all_from r (S (length s)) s with
  | [] => None
  | l => Some l
  end.

(* ------------------------------------------------------------------ *)
(** ** The patterns of [utils.re] and of the glob module

    In the comments below a pattern is written with blanks between its
    parts, DQ for the double quote and SQ for the single quote. *)

Definition var_ : regex := Seq (Chr is_var_start) (Star (Chr is_var_char)).
Definition digits : regex := Plus (Chr is_digit).

(** VAR: ^ [a-z$_] [a-z$_\d]* $ with flag i *)
Definition VAR : regex := Seq var_ Eos.
(** ARRAY_NOTE: ^ \[ ( \d+ ) \] $ *)
Definition ARRAY_NOTE : regex := Seq (chr "[") (Seq digits (Seq (chr "]") Eos)).
(** ARRAY_GLOB_NOTE: ^ \[ ( \d+ | \* ) \] $ *)
Definition ARRAY_GLOB_NOTE : regex :=
  Seq (chr "[") (Seq (Alt digits (chr "*")) (Seq (chr "]") Eos)).
(** A quoted text: q .* q *)
Definition quoted (q : ascii) : regex := Seq (chr q) (Seq (Star (Chr dot)) (chr q)).
(** OBJECT_BRACKETS: ^ \[ (?: SQ ( .* ) SQ | DQ ( .* ) DQ | ` ( .* ) ` ) \] $ *)
Definition OBJECT_BRACKETS : regex :=
  Seq (chr "[")
      (Seq (Alt (quoted "'") (Alt (quoted DQ) (quoted "`")))
           (Seq (chr "]") Eos)).
(** WILDCARD: ^ ( \[\*\] | \* ) $ *)
Definition WILDCARD : regex := Seq (Alt (lit "[*]") (chr "*")) Eos.
(** One round of the lookahead below: [^q] | q [^q]* q, a character that
    is not the quote or a quoted stretch. *)
Definition quote_step (q : ascii) : regex :=
  Alt (Chr (not_char q)) (Seq (chr q) (Seq (Star (Chr (not_char q))) (chr q))).
(** The lookahead (?= (?: [^q] | q [^q]* q )* $ ): the rest of the input
    holds the quote q in pairs only. *)
Definition outside (q : ascii) : regex :=
  Ahead (Seq (Star (quote_step q)) Eos).
(** WILDCARDS: ( \* | \[\*\] ) followed by the lookahead for DQ and the
    lookahead for SQ; no anchor, no flag. *)
Definition WILDCARDS : regex :=
  Seq (Alt (chr "*") (lit "[*]")) (Seq (outside DQ) (outside "'")).
(** NON_NEG_WILDCARD_TRAIL: ^ (?!!) ( .+? ) ( \.\* | \[\*\] )+ $, in the
    three parts around its first group. *)
Definition TRAIL_pre : regex := NotAhead (chr "!").
Definition TRAIL_g1 : regex := LazyPlus (Chr dot).
Definition TRAIL_post : regex := Seq (Plus (Alt (lit ".*") (lit "[*]"))) Eos.
Definition NON_NEG_WILDCARD_TRAIL : regex :=
  Seq TRAIL_pre (Seq TRAIL_g1 TRAIL_post).
(** NEGATE_ALL: ^ ! ( \* | \[\*\] ) $ *)
Definition NEGATE_ALL : regex :=
  Seq (chr "!") (Seq (Alt (chr "*") (lit "[*]")) Eos).

(** The bracket note \[ ( \d+ | \* | DQ .* DQ | SQ .* SQ ) \] shared by
    the matcher and the validator. *)
Definition bracket : regex :=
  Seq (chr "[")
      (Seq (Alt digits (Alt (chr "*") (Alt (quoted DQ) (quoted "'"))))
           (chr "]")).
(** reMATCHER: ( bracket | [a-z$_] [a-z$_\d]* | \* ) with flags g and i *)
Definition reMATCHER : regex := Alt bracket (Alt var_ (chr "*")).
(** reVALIDATOR: ^ !? ( \* | var | bracket ) ( bracket | \. var | \.\* )* $
    with flag i *)
Definition reVALIDATOR_head : regex := Alt (chr "*") (Alt var_ bracket).
Definition reVALIDATOR_tail : regex :=
  Alt bracket (Alt (Seq (chr ".") var_) (lit ".*")).
Definition reVALIDATOR : regex :=
  Seq (Opt (chr "!"))
      (Seq reVALIDATOR_head (Seq (Star reVALIDATOR_tail) Eos)).

(* ------------------------------------------------------------------ *)
(** ** Values and errors *)

(** Numbers as [parseInt] produces them: an integer that a double holds,
    an infinity, or NaN. *)
Inductive number : Type :=
| NaN
| Num (z : Z)
| Infinity (negative : bool).

(** The double nearest to a non-negative integer (ties to even). *)
Definition round_double (z : Z) : number :=
  if (z <? 2 ^ 53)%Z then Num z
  else
    let e := (Z.log2 z - 52)%Z in
    let q := Z.shiftr z e in
    let r := (z - Z.shiftl q e)%Z in
    let half := Z.shiftl 1 (e - 1) in
    let q' := if (half <? r)%Z || ((r =? half)%Z && Z.odd q)
              then (q + 1)%Z else q in
    let v := Z.shiftl q' e in
    if (2 ^ 1024 <=? v)%Z then Infinity false else Num v.

Definition number_eq (a b : number) : bool :=
  match a, b with
  | Num x, Num y => (x =? y)%Z
  | Infinity x, Infinity y => Bool.eqb x y
  | _, _ => false
  end.

(** [a > b] on numbers; false as soon as one side is NaN. *)
Definition number_gt (a b : number) : bool :=
  match a, b with
  | Num x, Num y => (y <? x)%Z
  | Infinity false, Num _ => true
  | Infinity false, Infinity true => true
  | Num _, Infinity true => true
  | _, _ => false
  end.

Fixpoint digits_value (acc : Z) (s : jsstring) : Z * nat :=
  match s with
  | c :: s' =>
      if is_digit c
      then let '(v, n) := digits_value (acc * 10 + Z.of_nat (code c - 48)) s' in
           (v, S n)
      else (acc, O)
  | [] => (acc, O)
  end.

(** [parseInt(s, 10)]: leading white space, an optional sign, then the
    longest run of digits. *)
Definition parseInt10 (s : jsstring) : number :=
  let s1 := trimStart s in
  let '(neg, s2) :=
    match s1 with
    | c :: t => if is_char "-" c then (true, t)
                else if is_char "+" c then (false, t) else (false, s1)
    | [] => (false, s1)
    end in
  match digits_value 0 s2 with
  | (_, O) => NaN
  | (v, S _) =>
      match round_double v with
      | Num z => Num (if neg then (- z)%Z else z)
      | Infinity _ => Infinity neg
      | NaN => NaN
      end
  end.

Inductive error : Type :=
| InvalidGlob       (* NotationError: Invalid glob notation *)
| InvalidNote       (* NotationError: Invalid note *)
| IntegrityFailed   (* NotationError: Integrity failed *)
| TypeError.        (* a property read on null or undefined *)

Inductive res (A : Type) : Type :=
| Ok (a : A)
| Throw (e : error).
Arguments Ok {A} a.
Arguments Throw {A} e.

Definition bind (A B : Type) (m : res A) (f : A -> res B) : res B :=
  match m with
  | Ok a => f a
  | Throw e => Throw e
  end.

Notation "x <- m ;; f" := (bind m (fun x => f))
  (at level 61, m at next level, right associativity).

(** A value that may be undefined (or null): [None]. *)
Definition truthy (o : option jsstring) : bool :=
  match o with
  | Some (_ :: _) => true
  | _ => false
  end.

Definition strict_eq (a b : option jsstring) : bool :=
  match a, b with
  | Some x, Some y => streq x y
  | None, None => true
  | _, _ => false
  end.

(** [a || b] on values that are strings or undefined. *)
Definition or_else (a b : option jsstring) : option jsstring :=
  if truthy a then a else b.

(** [re.test(v)] converts an undefined [v] to the text "undefined". *)
Definition test_value (r : regex) (v : option jsstring) : bool :=
  test_anchored r (match v with Some s => s | None => js "undefined" end).

(** [.length] of a value that may be null. *)
Definition not_null (A : Type) (o : option A) : res A :=
  match o with
  | Some a => Ok a
  | None => Throw TypeError
  end.

Definition bang (s : jsstring) : bool :=
  match s with
  | c :: _ => is_char "!" c
  | [] => false
  end.

(* ------------------------------------------------------------------ *)
(** ** utils *)

(** [glob.replace(NON_NEG_WILDCARD_TRAIL, '$1')]: the pattern is anchored at
    both ends, so a match is replaced as a whole by its first group. *)
Definition removeTrailingWildcards (glob : jsstring) : jsstring :=
  match exec_group TRAIL_pre TRAIL_g1 TRAIL_post glob with
  | Some g1 => g1
  | None => glob
  end.

(** What [normalizeNote] returns: a string, a number or undefined. *)
Inductive notevalue : Type :=
| VStr (s : jsstring)
| VNum (n : number)
| VUndefined.

Definition notevalue_eq (a b : notevalue) : bool :=
  match a, b with
  | VStr x, VStr y => streq x y
  | VNum x, VNum y => number_eq x y
  | VUndefined, VUndefined => true
  | _, _ => false
  end.

(** The groups of [note.match(OBJECT_BRACKETS)]: the first alternative that
    matches sets its group, the others stay undefined. *)
Definition object_brackets_group (q : ascii) (note : jsstring) : option jsstring :=
  exec_group (Seq (chr "[") (chr q)) (Star (Chr dot))
             (Seq (chr q) (Seq (chr "]") Eos)) note.

Definition normalizeNote (note : jsstring) : res notevalue :=
  if test_anchored VAR note then Ok (VStr note)
  else
    (* note.match(ARRAY_NOTE): the digits between the brackets *)
    match exec_group (chr "[") digits (Seq (chr "]") Eos) note with
    | Some m1 => Ok (VNum (parseInt10 m1))
    | None =>
        let value (m : option jsstring) :=
          match m with Some s => VStr s | None => VUndefined end in
        match object_brackets_group "'" note with
        | Some m1 => Ok (value (or_else (or_else (Some m1) None) None))
        | None =>
            match object_brackets_group DQ note with
            | Some m2 => Ok (value (or_else (or_else None (Some m2)) None))
            | None =>
                match object_brackets_group "`" note with
                | Some m3 => Ok (value (or_else (or_else None None) (Some m3)))
                | None => Throw InvalidNote
                end
            end
        end
    end.

(** [joinNotes]: a note is followed by a dot unless it is the last one or
    the next one opens with a bracket; an empty or undefined note yields
    nothing. *)
Fixpoint joinNotes (notes : list (option jsstring)) : jsstring :=
  match notes with
  | [] => []
  | current :: rest =>
      (if truthy current
       then
         match current with
         | Some c =>
             c ++ match rest with
                  | next :: _ =>
                      if truthy next
                      then match next with
                           | Some (x :: _) => if is_char "[" x then [] else js "."
                           | _ => js "."
                           end
                      else []
                  | [] => []
                  end
         | None => []
         end
       else [])
      ++ joinNotes rest
  end.

(* ------------------------------------------------------------------ *)
(** ** Glob: validation, inspection, notes *)

(** The values [Glob.isValid] may be handed. *)
#[local] Set Warnings "-register-all".
Inductive jsvalue : Type :=
| JUndefined
| JNull
| JBoolean (b : bool)
| JNumber (n : number)
| JString (s : jsstring)
| JArray (items : list jsvalue)
| JObject (props : list (jsstring * jsvalue)).

Inductive jstype : Type :=
| TUndefined | TObject | TBoolean | TNumber | TString.

(** [typeof v] *)
Definition typeof (v : jsvalue) : jstype :=
  match v with
  | JUndefined => TUndefined
  | JNull => TObject
  | JBoolean _ => TBoolean
  | JNumber _ => TNumber
  | JString _ => TString
  | JArray _ => TObject
  | JObject _ => TObject
  end.

(** [reVALIDATOR.test(glob)] on a string. *)
Definition valid (glob : jsstring) : bool := test_anchored reVALIDATOR glob.

(** [Glob.isValid]: [typeof glob === 'string' && reVALIDATOR.test(glob)];
    the test is reached by strings only. *)
Definition isValid (glob : jsvalue) : res bool :=
  match typeof glob, glob with
  | TString, JString s => Ok (valid s)
  | _, _ => Ok false
  end.

(** The object [_inspect] returns.  A [Glob] instance holds the same fields
    and its notes; [notes] is [None] for an inspection result, which has no
    such property, and for a [Glob] whose [split] gave null. *)
Record glob_obj : Type := {
  glob : jsstring;
  absGlob : jsstring;
  isNegated : bool;
  isArrayGlob : bool;
  notes : option (list jsstring)
}.

(** The test of [isArrayGlob]: ^ \[ [^ SQ DQ] *)
Definition ARRAY_ROOT : regex :=
  Seq (chr "[") (Chr (fun c => negb (is_char "'" c || is_char DQ c))).

Definition _inspect (g0 : jsstring) : res glob_obj :=
  let g := trim g0 in
  if negb (valid g) then Throw InvalidGlob
  else
    let isNegated := bang g in
    let g := if negb isNegated then removeTrailingWildcards g else g in
    let absGlob := if isNegated then tl g else g in
    Ok {| glob := g;
          absGlob := absGlob;
          isNegated := isNegated;
          isArrayGlob := test_anchored ARRAY_ROOT absGlob;
          notes := None |}.

(** [Glob.split(glob, normalize)] *)
Definition split (g0 : jsstring) (normalize : bool) : res (option (list jsstring)) :=
  if negb (valid g0) then Throw InvalidGlob
  else
    let neg := bang g0 in
    let g := if negb neg && normalize then removeTrailingWildcards g0 else g0 in
    Ok (match_g reMATCHER (if bang g then tl g else g)).

(** [new Glob(glob)] *)
Definition Glob_new (g0 : jsstring) : res glob_obj :=
  ins <- _inspect g0 ;;
  ns <- split (absGlob ins) false ;;
  Ok {| glob := glob ins;
        absGlob := absGlob ins;
        isNegated := isNegated ins;
        isArrayGlob := isArrayGlob ins;
        notes := ns |}.

(** The getters [last] and [parent]. *)
Definition last_note (ns : list jsstring) : option jsstring :=
  nth_error ns (length ns - 1).

Definition strip_final_dot (s : jsstring) : jsstring :=
  match rev s with
  | c :: r => if is_char "." c then rev r else s
  | [] => s
  end.

Definition Glob_parent (g : glob_obj) : res (option jsstring) :=
  ns <- not_null (notes g) ;;
  if (1 <? length ns)%nat
  then
    l <- not_null (last_note ns) ;;
    let n := length l in
    let cut := if (n =? 0)%nat then [] else firstn (length (absGlob g) - n) (absGlob g) in
    Ok (Some (strip_final_dot cut))
  else Ok None.

(* ------------------------------------------------------------------ *)
(** ** Coverage *)

Definition _coversNote (a b : option jsstring) : res bool :=
  match a, b with
  | Some a', Some b' =>
      if negb (truthy a) || negb (truthy b) then Ok false
      else
        let bIsArr := test_anchored ARRAY_GLOB_NOTE b' in
        if streq a' (js "*") then Ok (negb bIsArr)
        else if streq a' (js "[*]") then Ok bIsArr
        else if test_anchored WILDCARD b' then Ok false
        else
          na <- normalizeNote a' ;;
          nb <- normalizeNote b' ;;
          Ok (notevalue_eq na nb)
  | _, _ => Ok false
  end.

Definition _matchesNote (a b : option jsstring) : res bool :=
  if negb (truthy a) || negb (truthy b) then Ok true
  else
    ab <- _coversNote a b ;;
    if ab then Ok true else _coversNote b a.

(** The loop of [_covers] over the notes of [a], from index [i] on. *)
Fixpoint covers_loop (fn : option jsstring -> option jsstring -> res bool)
         (notesA notesB : list jsstring) (i : nat) : res bool :=
  match notesA with
  | [] => Ok true
  | a :: restA =>
      c <- fn (Some a) (nth_error notesB i) ;;
      if c then covers_loop fn restA notesB (S i) else Ok false
  end.

(** [a.notes || Glob.split(a.absGlob)], then a read of [.length]. *)
Definition notes_of (a : glob_obj) : res (list jsstring) :=
  match notes a with
  | Some ns => Ok ns
  | None => ns <- split (absGlob a) false ;; not_null ns
  end.

(** [_covers] on two objects (inspection results or [Glob] instances). *)
Definition covers_obj (a b : glob_obj) (matching : bool) : res bool :=
  notesA <- notes_of a ;;
  notesB <- notes_of b ;;
  if negb matching && isNegated a && (length notesB <? length notesA)%nat
  then Ok false
  else covers_loop (if matching then _matchesNote else _coversNote) notesA notesB 0.

(** An argument of [_covers]: a string or an object. *)
Definition glob_arg (g : jsstring + glob_obj) : res glob_obj :=
  match g with
  | inl s => Glob_new s
  | inr o => Ok o
  end.

Definition _covers (globA globB : jsstring + glob_obj) (matching : bool) : res bool :=
  a <- glob_arg globA ;;
  b <- glob_arg globB ;;
  covers_obj a b matching.

(** [covers] on two glob strings. *)
Definition covers (globA globB : jsstring) : res bool :=
  _covers (inl globA) (inl globB) false.

(* ------------------------------------------------------------------ *)
(** ** Intersection *)

Definition is_wildcard (o : option jsstring) : bool :=
  truthy o && test_value WILDCARD o.

(** The loop of [_intersect]; [None] when it breaks out with no notes. *)
Fixpoint intersect_loop (notesA notesB : list jsstring) (i n : nat)
         (notesI : list (option jsstring)) : option (list (option jsstring)) :=
  match n with
  | O => Some notesI
  | S n' =>
      let a := nth_error notesA i in
      let b := nth_error notesB i in
      let push x := intersect_loop notesA notesB (S i) n' (notesI ++ [x]) in
      if strict_eq a b then push a
      else if is_wildcard a then (if negb (truthy b) then push a else push b)
      else if is_wildcard b then (if negb (truthy a) then push b else push a)
      else if truthy a && negb (truthy b) then push a
      else if negb (truthy a) && truthy b then push b
      else None
  end.

Definition _intersect (globA globB : jsstring) (restrictive : bool)
  : res (option jsstring) :=
  nA <- split globA true ;;
  nB <- split globB true ;;
  notesA <- not_null nA ;;
  notesB <- not_null nB ;;
  let bang_ :=
    if restrictive
    then bang globA || bang globB
    else if bang globA && bang globB then true
         else ((length notesB <? length notesA)%nat && bang globA)
              || ((length notesA <? length notesB)%nat && bang globB) in
  let len := Nat.max (length notesA) (length notesB) in
  match intersect_loop notesA notesB 0 len [] with
  | Some ((_ :: _) as notesI) =>
      Ok (Some ((if bang_ then js "!" else []) ++ joinNotes notesI))
  | _ => Ok None
  end.

(* ------------------------------------------------------------------ *)
(** ** Ordering *)

(** [note.replace(/[[\]]/, '')]: the first bracket character is removed. *)
Fixpoint remove_first_bracket (s : jsstring) : jsstring :=
  match s with
  | c :: s' => if is_char "[" c || is_char "]" c then s' else c :: remove_first_bracket s'
  | [] => []
  end.

Definition _idxVal (note : jsstring) : number :=
  parseInt10 (remove_first_bracket note).

Definition _compArrIdx (lastA lastB : jsstring) : Z :=
  if number_gt (_idxVal lastA) (_idxVal lastB) then (-1)%Z else 1%Z.

Definition _compareArrayItemGlobs (a b : glob_obj) : res Z :=
  if negb (isNegated a) then Ok 0%Z
  else if negb (isNegated b) then Ok 0%Z
  else
    na <- not_null (notes a) ;;
    nb <- not_null (notes b) ;;
    let lastA := last_note na in
    let lastB := last_note nb in
    if negb (length na =? length nb)%nat
       || negb (test_value ARRAY_GLOB_NOTE lastA)
       || negb (test_value ARRAY_GLOB_NOTE lastB)
       || strict_eq lastA lastB
    then Ok 0%Z
    else if strict_eq lastA (Some (js "[*]")) then Ok 1%Z
    else if strict_eq lastB (Some (js "[*]")) then Ok (-1)%Z
    else
      la <- not_null lastA ;;
      lb <- not_null lastB ;;
      pa <- Glob_parent a ;;
      if truthy pa
      then
        pb <- Glob_parent b ;;
        if truthy pb
        then
          match pa, pb with
          | Some pa', Some pb' =>
              c <- _covers (inl pa') (inl pb') true ;;
              if c then Ok (_compArrIdx la lb) else Ok 0%Z
          | _, _ => Ok (_compArrIdx la lb)
          end
        else Ok (_compArrIdx la lb)
      else Ok (_compArrIdx la lb).

(** [(s.match(WILDCARDS) || []).length]: the pattern has no [g] flag, so a
    match is an array of the matched text and its one group. *)
Definition wildCount (s : jsstring) : nat :=
  if test_search WILDCARDS s then 2 else 0.

Definition compare (globA globB : jsstring) : res Z :=
  if streq globA globB
     || (test_anchored WILDCARD globA && test_anchored WILDCARD globB)
  then Ok 0%Z
  else
    a <- Glob_new globA ;;
    b <- Glob_new globB ;;
    na <- not_null (notes a) ;;
    nb <- not_null (notes b) ;;
    if (length na =? length nb)%nat
    then
      aIdxCompare <- _compareArrayItemGlobs a b ;;
      if negb (aIdxCompare =? 0)%Z then Ok aIdxCompare
      else
        let wildCountA := wildCount (absGlob a) in
        let wildCountB := wildCount (absGlob b) in
        if (wildCountA =? wildCountB)%nat
        then
          if negb (isNegated a) && isNegated b then Ok (-1)%Z
          else if isNegated a && negb (isNegated b) then Ok 1%Z
          else Ok (if strlt (absGlob a) (absGlob b) then (-1)%Z
                   else if strlt (absGlob b) (absGlob a) then 1%Z else 0%Z)
        else Ok (if (wildCountB <? wildCountA)%nat then (-1)%Z else 1%Z)
    else Ok (if (length na <? length nb)%nat then (-1)%Z else 1%Z).

(** The pattern ^ \s* ! of the two pre-sorting comparators. *)
Definition _rx : regex := Seq (Star (Chr is_space)) (chr "!").

Definition _negFirstSort (a b : jsstring) : res Z :=
  let negA := test_anchored _rx a in
  let negB := test_anchored _rx b in
  if negA && negB then Ok (if (length b <=? length a)%nat then 1%Z else (-1)%Z)
  else if negA then Ok (-1)%Z
  else if negB then Ok 1%Z
  else Ok 0%Z.

Definition _negLastSort (a b : jsstring) : res Z :=
  let negA := test_anchored _rx a in
  let negB := test_anchored _rx b in
  if negA && negB then Ok (if (length b <=? length a)%nat then 1%Z else (-1)%Z)
  else if negA then Ok 1%Z
  else if negB then Ok (-1)%Z
  else Ok 0%Z.

(** *** [Array.prototype.sort]

    The host's sort is stable; it is modelled by the stable insertion sort:
    each element is placed before the first element of the sorted part that
    the comparator puts after it.  Where the comparator is a consistent one
    on the elements at hand, every stable sort returns this order. *)
Section Sort.
Variable T : Type.
Variable comparefn : T -> T -> res Z.

Fixpoint sort_insert (x : T) (l : list T) : res (list T) :=
  match l with
  | [] => Ok [x]
  | y :: l' =>
      c <- comparefn x y ;;
      if (c <? 0)%Z then Ok (x :: y :: l')
      else r <- sort_insert x l' ;; Ok (y :: r)
  end.

Fixpoint sort_into (sorted : list T) (l : list T) : res (list T) :=
  match l with
  | [] => Ok sorted
  | x :: l' => s <- sort_insert x sorted ;; sort_into s l'
  end.

Definition array_sort (l : list T) : res (list T) := sort_into [] l.
End Sort.

(* ------------------------------------------------------------------ *)
(** ** The store of string arrays

    An array of glob strings is an object: the caller and [normalize] may
    hold the same array.  The store maps an address to the contents of the
    array that lives there; a computation takes the store and returns its
    outcome with the store it leaves. *)

Definition store := list (list jsstring).
Definition address := nat.

Definition M (A : Type) : Type := store -> res A * store.

Definition ret (A : Type) (a : A) : M A := fun h => (Ok a, h).
Definition raise (A : Type) (e : error) : M A := fun h => (Throw e, h).
Arguments raise {A} e.
Definition lift (A : Type) (r : res A) : M A := fun h => (r, h).

Definition mbind (A B : Type) (m : M A) (f : A -> M B) : M B :=
  fun h => match m h with
           | (Ok a, h') => f a h'
           | (Throw e, h') => (Throw e, h')
           end.

Notation "x <~ m ;; f" := (mbind m (fun x => f))
  (at level 61, m at next level, right associativity).

(** A new array with the given contents. *)
Definition alloc (a : list jsstring) : M address :=
  fun h => (Ok (length h), h ++ [a]).

(** The contents of an array. *)
Definition load (l : address) : M (list jsstring) :=
  fun h => (not_null (nth_error h l), h).

Fixpoint update (h : store) (l : address) (a : list jsstring) : store :=
  match h, l with
  | [], _ => []
  | _ :: h', O => a :: h'
  | x :: h', S l' => x :: update h' l' a
  end.

(** The contents of an array replaced in place. *)
Definition put (l : address) (a : list jsstring) : M unit :=
  fun h => (Ok tt, update h l a).

(** [arr.sort(comparefn)]: sorts [arr] in place and returns it. *)
Definition sort_in_place (comparefn : jsstring -> jsstring -> res Z)
           (arr : address) : M address :=
  a <~ load arr ;;
  sorted <~ lift (array_sort comparefn a) ;;
  _ <~ put arr sorted ;;
  ret arr.

(** [Glob.sort(globList)] *)
Definition Glob_sort (globList : address) : M address :=
  sort_in_place compare globList.

(** [arr.concat()] and [arr.concat(more)]: a new array. *)
Definition array_concat (arr : address) (more : list jsstring) : M address :=
  a <~ load arr ;;
  alloc (a ++ more).

(** [arr.indexOf(x) >= 0] *)
Definition includes (arr : address) (x : jsstring) : M bool :=
  a <~ load arr ;;
  ret (existsb (streq x) a).

(* ------------------------------------------------------------------ *)
(** ** Normalization *)

(** [ignored] is a plain object used as a set of glob strings.  A read
    [ignored[k]] also finds what the object inherits from
    [Object.prototype], and each of those values is truthy. *)
Definition object_prototype_keys : list jsstring :=
  [js "constructor"; js "__defineGetter__"; js "__defineSetter__";
   js "hasOwnProperty"; js "__lookupGetter__"; js "__lookupSetter__";
   js "isPrototypeOf"; js "propertyIsEnumerable"; js "toString";
   js "valueOf"; js "__proto__"; js "toLocaleString"].

Definition mem (k : jsstring) (l : list jsstring) : bool := existsb (streq k) l.

(** [ignored[k]] as a condition. *)
Definition is_ignored (ignored : list jsstring) (k : jsstring) : bool :=
  mem k ignored || mem k object_prototype_keys.

(** [ignored[k] = true] *)
Definition set_ignored (ignored : list jsstring) (k : jsstring) : list jsstring :=
  if mem k ignored then ignored else ignored ++ [k].

(** [intersections[k] = k]: the keys keep their order of first insertion;
    the key [__proto__] reaches the inherited setter, which drops a string,
    so no key is added. *)
Definition set_intersection (inters : list jsstring) (k : jsstring) : list jsstring :=
  if streq k (js "__proto__") then inters
  else if mem k inters then inters else inters ++ [k].

Definition _invert (g : jsstring) : jsstring :=
  if bang g then tl g else js "!" ++ g.

Definition _isReverseOf (a b : glob_obj) : bool :=
  negb (Bool.eqb (isNegated a) (isNegated b)) && streq (absGlob a) (absGlob b).

(** The flags of one round of the outer loop. *)
Record flags : Type := {
  duplicate : bool;
  hasExactNeg : bool;
  negCoversPos : bool;
  negCoveredByPos : bool;
  negCoveredByNeg : bool;
  posCoversPos : bool;
  posCoveredByNeg : bool;
  posCoveredByPos : bool
}.

Definition no_flags : flags :=
  {| duplicate := false; hasExactNeg := false; negCoversPos := false;
     negCoveredByPos := false; negCoveredByNeg := false;
     posCoversPos := false; posCoveredByNeg := false;
     posCoveredByPos := false |}.

(** What the two loops of [normalize] read and write besides the flags. *)
Record work : Type := {
  list_ : list glob_obj;
  normalized : list jsstring;
  ignored : list jsstring;
  intersections : list jsstring;
  negateAll : bool
}.

Definition with_list (w : work) (l : list glob_obj) : work :=
  {| list_ := l; normalized := normalized w; ignored := ignored w;
     intersections := intersections w; negateAll := negateAll w |}.
Definition with_ignored (w : work) (k : jsstring) : work :=
  {| list_ := list_ w; normalized := normalized w;
     ignored := set_ignored (ignored w) k;
     intersections := intersections w; negateAll := negateAll w |}.
Definition with_intersection (w : work) (k : jsstring) : work :=
  {| list_ := list_ w; normalized := normalized w; ignored := ignored w;
     intersections := set_intersection (intersections w) k;
     negateAll := negateAll w |}.
Definition with_normalized (w : work) (k : jsstring) : work :=
  {| list_ := list_ w; normalized := normalized w ++ [k]; ignored := ignored w;
     intersections := intersections w; negateAll := negateAll w |}.
Definition with_negateAll (w : work) : work :=
  {| list_ := list_ w; normalized := normalized w; ignored := ignored w;
     intersections := intersections w; negateAll := true |}.

(** [list.splice(i, 1)] *)
Definition splice1 (A : Type) (l : list A) (i : nat) : list A :=
  firstn i l ++ skipn (S i) l.

(** What a callback of [eachRight] asks for: the next item, or to stop
    (it returned false). *)
Inductive control : Type := Next | Stop.

Section Normalize.
Variable restrictive : bool.
Variable original : address.

(** [checkAddIntersection].  [list] holds inspection objects, so
    [list.indexOf(inter)], a search for a string, finds nothing. *)
Definition checkAddIntersection (gA gB : jsstring) (w : work) : M work :=
  inter <~ lift (_intersect gA gB restrictive) ;;
  if negb (truthy inter) then ret w
  else
    match inter with
    | Some i =>
        hasInverted <~ (if restrictive then ret false
                        else includes original (_invert i)) ;;
        if false || hasInverted then ret w
        else ret (with_intersection w i)
    | None => ret w
    end.

(** The callback of the inner loop for the item [a] at [indexA] and the
    item at [indexB]. *)
Definition inner_step (a : glob_obj) (indexA indexB : nat)
           (fw : flags * work) : M (control * (flags * work)) :=
  let '(f, w) := fw in
  b <~ lift (not_null (nth_error (list_ w) indexB)) ;;
  if (indexA =? indexB)%nat then ret (Next, (f, w))
  else if negb (Bool.eqb (isArrayGlob a) (isArrayGlob b)) then raise IntegrityFailed
  else if streq (glob a) (glob b)
  then ret (Stop, ({| duplicate := true; hasExactNeg := hasExactNeg f;
                      negCoversPos := negCoversPos f;
                      negCoveredByPos := negCoveredByPos f;
                      negCoveredByNeg := negCoveredByNeg f;
                      posCoversPos := posCoversPos f;
                      posCoveredByNeg := posCoveredByNeg f;
                      posCoveredByPos := posCoveredByPos f |},
                   with_list w (splice1 (list_ w) indexA)))
  else if negb (isNegated a) && _isReverseOf a b
  then ret (Stop, ({| duplicate := duplicate f; hasExactNeg := true;
                      negCoversPos := negCoversPos f;
                      negCoveredByPos := negCoveredByPos f;
                      negCoveredByNeg := negCoveredByNeg f;
                      posCoversPos := posCoversPos f;
                      posCoveredByNeg := posCoveredByNeg f;
                      posCoveredByPos := posCoveredByPos f |},
                   with_ignored w (glob a)))
  else if is_ignored (ignored w) (glob b) then ret (Next, (f, w))
  else
    coversB <~ lift (covers_obj a b false) ;;
    coveredByB <~ (if coversB then ret false else lift (covers_obj b a false)) ;;
    if isNegated a
    then
      if isNegated b
      then
        if coveredByB
        then ret (Stop, ({| duplicate := duplicate f; hasExactNeg := hasExactNeg f;
                            negCoversPos := negCoversPos f;
                            negCoveredByPos := negCoveredByPos f;
                            negCoveredByNeg := true;
                            posCoversPos := posCoversPos f;
                            posCoveredByNeg := posCoveredByNeg f;
                            posCoveredByPos := posCoveredByPos f |},
                         with_ignored w (glob a)))
        else ret (Next, (f, w))
      else
        let f' := {| duplicate := duplicate f; hasExactNeg := hasExactNeg f;
                     negCoversPos := negCoversPos f || coversB;
                     negCoveredByPos := negCoveredByPos f || coveredByB;
                     negCoveredByNeg := negCoveredByNeg f;
                     posCoversPos := posCoversPos f;
                     posCoveredByNeg := posCoveredByNeg f;
                     posCoveredByPos := posCoveredByPos f |} in
        if negb coversB && negb coveredByB
        then w' <~ checkAddIntersection (glob a) (glob b) w ;; ret (Next, (f', w'))
        else ret (Next, (f', w))
    else
      if isNegated b
      then
        if coveredByB
        then
          let f' := {| duplicate := duplicate f; hasExactNeg := hasExactNeg f;
                       negCoversPos := negCoversPos f;
                       negCoveredByPos := negCoveredByPos f;
                       negCoveredByNeg := negCoveredByNeg f;
                       posCoversPos := posCoversPos f;
                       posCoveredByNeg := true;
                       posCoveredByPos := posCoveredByPos f |} in
          if restrictive then ret (Stop, (f', with_ignored w (glob a)))
          else ret (Next, (f', w))
        else if negb coversB && negb coveredByB
        then w' <~ checkAddIntersection (glob a) (glob b) w ;; ret (Next, (f, w'))
        else ret (Next, (f, w))
      else
        let f' := {| duplicate := duplicate f; hasExactNeg := hasExactNeg f;
                     negCoversPos := negCoversPos f;
                     negCoveredByPos := negCoveredByPos f;
                     negCoveredByNeg := negCoveredByNeg f;
                     posCoversPos := posCoversPos f || coversB;
                     posCoveredByNeg := posCoveredByNeg f;
                     posCoveredByPos := posCoveredByPos f || coveredByB |} in
        if coveredByB && restrictive then ret (Stop, (f', w))
        else ret (Next, (f', w)).

(** [utils.eachRight(list, ...)] of the inner loop: the items below
    index [n], from the last one down. *)
Fixpoint inner_loop (a : glob_obj) (indexA n : nat) (fw : flags * work)
  : M (flags * work) :=
  match n with
  | O => ret fw
  | S indexB =>
      r <~ inner_step a indexA indexB fw ;;
      match r with
      | (Stop, fw') => ret fw'
      | (Next, fw') => inner_loop a indexA indexB fw'
      end
  end.

(** The callback of the outer loop for the item at [indexA]. *)
Definition outer_step (indexA : nat) (w : work) : M (control * work) :=
  a <~ lift (not_null (nth_error (list_ w) indexA)) ;;
  let isAll := test_anchored NEGATE_ALL (glob a) in
  let w := if isAll then with_negateAll w else w in
  if isAll && restrictive then ret (Stop, w)
  else
    fw <~ inner_loop a indexA (length (list_ w)) (no_flags, w) ;;
    let '(f, w) := fw in
    let keepNeg :=
      if restrictive
      then (negCoversPos f || negCoveredByPos f) && negb (negCoveredByNeg f)
      else negCoveredByPos f && negb (negCoveredByNeg f) in
    let keepPos :=
      if restrictive
      then (posCoversPos f || negb (posCoveredByPos f)) && negb (posCoveredByNeg f)
      else posCoveredByNeg f || negb (posCoveredByPos f) in
    let keep := negb (duplicate f) && negb (hasExactNeg f)
                && (if isNegated a then keepNeg else keepPos) in
    if keep then ret (Next, with_normalized w (glob a))
    else ret (Next, with_ignored w (glob a)).

(** [utils.eachRight(list, ...)] of the outer loop: the indices below
    [n], from the last one down; the length is read once, before the
    first round. *)
Fixpoint outer_loop (n : nat) (w : work) : M work :=
  match n with
  | O => ret w
  | S indexA =>
      r <~ outer_step indexA w ;;
      match r with
      | (Stop, w') => ret w'
      | (Next, w') => outer_loop indexA w'
      end
  end.
End Normalize.

(** [list.map(_inspect)] *)
Fixpoint map_inspect (l : list jsstring) : res (list glob_obj) :=
  match l with
  | [] => Ok []
  | g :: l' => i <- _inspect g ;; r <- map_inspect l' ;; Ok (i :: r)
  end.

(** An error of the model, not of the program: the bound on the rounds of
    re-normalization was reached. *)
Inductive outcome (A : Type) : Type :=
| Done (r : res A)
| OutOfFuel.
Arguments Done {A} r.
Arguments OutOfFuel {A}.

(** The head of [normalize]: the copy of the input, sorted with the
    negated globs first or last, and inspected. *)
Definition prepare (restrictive : bool) (original : address) : M (list glob_obj) :=
  copy <~ array_concat original [] ;;
  sorted <~ sort_in_place (if restrictive then _negFirstSort else _negLastSort) copy ;;
  items <~ load sorted ;;
  lift (map_inspect items).

(** The end of [normalize], after the loops: the empty list, a further
    round on the kept globs and the intersections, or the kept globs
    sorted. *)
Definition finish (again : address -> store -> outcome address * store)
           (restrictive : bool) (w : work) (h : store) : outcome address * store :=
  if restrictive && negateAll w
  then let '(r, h') := alloc [] h in (Done r, h')
  else
    match intersections w with
    | _ :: _ =>
        match alloc (normalized w ++ intersections w) h with
        | (Ok merged, h') => again merged h'
        | (Throw e, h') => (Done (Throw e), h')
        end
    | [] =>
        let '(r, h') := (out <~ alloc (normalized w) ;; Glob_sort out) h in
        (Done r, h')
    end.

(** [Glob.normalize(globList, restrictive)] for an array [globList].  The
    arrays [normalized] and [intersections] are private to a call until they
    are returned or handed to the next round; they enter the store at that
    point. *)
Fixpoint normalize (fuel : nat) (globList : address) (restrictive : bool)
         (h : store) : outcome address * store :=
  match fuel with
  | O => (OutOfFuel, h)
  | S fuel' =>
      let original := globList in
      match load original h with
      | (Throw e, h1) => (Done (Throw e), h1)
      | (Ok [], h1) =>
          let '(r, h2) := alloc [] h1 in (Done r, h2)
      | (Ok (_ :: _), h1) =>
          match prepare restrictive original h1 with
          | (Throw e, h2) => (Done (Throw e), h2)
          | (Ok [g], h2) =>
              let '(r, h3) := alloc (if isNegated g then [] else [glob g]) h2 in
              (Done r, h3)
          | (Ok list0, h2) =>
              let w0 := {| list_ := list0; normalized := []; ignored := [];
                           intersections := []; negateAll := false |} in
              match outer_loop restrictive original (length list0) w0 h2 with
              | (Throw e, h3) => (Done (Throw e), h3)
              | (Ok w, h3) =>
                  finish (fun merged => normalize fuel' merged restrictive)
                         restrictive w h3
              end
          end
      end
  end.

(** [normalize] on a list of globs: the call on a store that holds the list
    alone, and the contents of the array it returns. *)
Definition normalize_list (fuel : nat) (globList : list jsstring)
           (restrictive : bool) : outcome (list jsstring) :=
  match normalize fuel 0 restrictive [globList] with
  | (Done (Ok out), h) => Done (fst (load out h))
  | (Done (Throw e), _) => Done (Throw e)
  | (OutOfFuel, _) => OutOfFuel
  end.

(** [Glob.sort] on a list of globs, in the same way. *)
Definition sort_list (globList : list jsstring) : res (list jsstring) :=
  match Glob_sort 0 [globList] with
  | (Ok out, h) => fst (load out h)
  | (Throw e, _) => Throw e
  end.

(** [Glob.hasMagic(glob)] on a string. *)
Definition hasMagic (g : jsstring) : bool :=
  valid g && (test_search WILDCARDS g || bang g).

(* ------------------------------------------------------------------ *)
(** ** Union *)

(** [utils.eachRight(arr, callback)] for a callback that never returns
    false and an array that is not changed on the way: the items from the
    last one down, the state handed from one call to the next. *)
Fixpoint fold_res (A S : Type) (f : A -> S -> res S) (l : list A) (s : S) : res S :=
  match l with
  | [] => Ok s
  | x :: l' => s' <- f x s ;; fold_res f l' s'
  end.

Definition eachRight (A S : Type) (f : A -> S -> res S) (arr : list A) (s : S) : res S :=
  fold_res f (rev arr) s.

(** The flags of one round of [_compareUnion]; the names of the source
    are taken by the flags of [normalize]. *)
Record union_flags : Type := {
  u_notCovered : bool;
  u_hasExact : bool;
  u_negCoversNeg : bool;
  u_posCoversNeg : bool;
  u_posCoversPos : bool;
  u_negCoversPos : bool
}.

Definition no_union_flags : union_flags :=
  {| u_notCovered := false; u_hasExact := false; u_negCoversNeg := false;
     u_posCoversNeg := false; u_posCoversPos := false; u_negCoversPos := false |}.

Section CompareUnion.
Variable restrictive : bool.

(** The callback of the inner loop: [globA], inspected as [a], against
    [globB]; [union] is the array as it stands in this round. *)
Definition union_inner (union : list jsstring) (globA : jsstring) (a : glob_obj)
           (globB : jsstring) (st : union_flags * list jsstring)
  : res (union_flags * list jsstring) :=
  let '(f, intersections) := st in
  let hasExact := if streq globA globB then true else u_hasExact f in
  b <- _inspect globB ;;
  c <- covers_obj b a false ;;
  let notCovered := negb c in
  if notCovered
  then
    let f' := {| u_notCovered := notCovered; u_hasExact := hasExact;
                 u_negCoversNeg := u_negCoversNeg f;
                 u_posCoversNeg := u_posCoversNeg f;
                 u_posCoversPos := u_posCoversPos f;
                 u_negCoversPos := u_negCoversPos f |} in
    if isNegated a && isNegated b
    then
      inter <- _intersect (glob a) (glob b) restrictive ;;
      match inter with
      | Some i =>
          if truthy inter && negb (existsb (streq i) union)
          then Ok (f', intersections ++ [i])
          else Ok (f', intersections)
      | None => Ok (f', intersections)
      end
    else Ok (f', intersections)
  else
    if isNegated a
    then
      if isNegated b
      then Ok ({| u_notCovered := notCovered; u_hasExact := hasExact;
                  u_negCoversNeg := negb hasExact;
                  u_posCoversNeg := u_posCoversNeg f;
                  u_posCoversPos := u_posCoversPos f;
                  u_negCoversPos := u_negCoversPos f |}, intersections)
      else Ok ({| u_notCovered := notCovered; u_hasExact := hasExact;
                  u_negCoversNeg := u_negCoversNeg f;
                  u_posCoversNeg := true;
                  u_posCoversPos := u_posCoversPos f;
                  u_negCoversPos := u_negCoversPos f |}, intersections)
    else
      if negb (isNegated b)
      then Ok ({| u_notCovered := notCovered; u_hasExact := hasExact;
                  u_negCoversNeg := u_negCoversNeg f;
                  u_posCoversNeg := u_posCoversNeg f;
                  u_posCoversPos := negb hasExact;
                  u_negCoversPos := u_negCoversPos f |}, intersections)
      else Ok ({| u_notCovered := notCovered; u_hasExact := hasExact;
                  u_negCoversNeg := u_negCoversNeg f;
                  u_posCoversNeg := u_posCoversNeg f;
                  u_posCoversPos := u_posCoversPos f;
                  u_negCoversPos := true |}, intersections).

(** The callback of the outer loop for [globA]. *)
Definition union_outer (globsListB : list jsstring) (globA : jsstring)
           (union : list jsstring) : res (list jsstring) :=
  if existsb (streq globA) union then Ok union
  else
    a <- _inspect globA ;;
    if test_anchored WILDCARD (absGlob a) then Ok (union ++ [glob a])
    else
      st <- eachRight (union_inner union globA a) globsListB (no_union_flags, []) ;;
      let '(f, intersections) := st in
      let keep := if isNegated a
                  then negb (u_posCoversNeg f) || u_negCoversNeg f
                  else negb (u_posCoversPos f) || u_negCoversPos f in
      if u_hasExact f || keep || (u_notCovered f && negb (isNegated a))
      then Ok (union ++ [glob a])
      else if isNegated a && u_posCoversNeg f && negb (u_negCoversNeg f)
              && (0 <? length intersections)%nat
           then Ok (union ++ intersections)
           else Ok union.

(** [Glob._compareUnion(globsListA, globsListB, restrictive, union)] on the
    contents of the arrays.  [union] is read and extended by this call
    alone, so its contents are handed from round to round. *)
Definition _compareUnion (globsListA globsListB : list jsstring)
           (union : list jsstring) : res (list jsstring) :=
  eachRight (union_outer globsListB) globsListA union.
End CompareUnion.

(** [Glob.union(globsA, globsB, restrictive)].  The array [union] enters
    the store when it is handed to [normalize]. *)
Definition Glob_union (fuel : nat) (globsA globsB : address) (restrictive : bool)
           (h : store) : outcome address * store :=
  match normalize fuel globsA restrictive h with
  | (Done (Ok listA), h1) =>
      match normalize fuel globsB restrictive h1 with
      | (Done (Ok listB), h2) =>
          match load listA h2, load listB h2 with
          | (Ok la, _), (Ok lb, _) =>
              if (length la =? 0)%nat then (Done (Ok listB), h2)
              else if (length lb =? 0)%nat then (Done (Ok listA), h2)
              else
                match (u <- _compareUnion restrictive la lb [] ;;
                       _compareUnion restrictive lb la u) with
                | Ok u =>
                    match alloc u h2 with
                    | (Ok merged, h3) => normalize fuel merged restrictive h3
                    | (Throw e, h3) => (Done (Throw e), h3)
                    end
                | Throw e => (Done (Throw e), h2)
                end
          | (Throw e, _), _ => (Done (Throw e), h2)
          | _, (Throw e, _) => (Done (Throw e), h2)
          end
      | other => other
      end
  | other => other
  end.

(** [union] on two lists of globs: the call on a store that holds the two
    lists, and the contents of the array it returns. *)
Definition union_list (fuel : nat) (globsA globsB : list jsstring)
           (restrictive : bool) : outcome (list jsstring) :=
  match Glob_union fuel 0 1 restrictive [globsA; globsB] with
  | (Done (Ok out), h) => Done (fst (load out h))
  | (Done (Throw e), _) => Done (Throw e)
  | (OutOfFuel, _) => OutOfFuel
  end.

(* ------------------------------------------------------------------ *)
(** ** What a pattern matches

    The matcher is an algorithm; the relation below says what it looks
    for.  The two are shown to agree, and the facts about the patterns of
    the source are then read off the relation. *)

(** Repetition: zero or more rounds, each of which consumes something. *)
Inductive iter (R : jsstring -> jsstring -> Prop) : jsstring -> jsstring -> Prop :=
| iter_done : forall s, iter R s s
| iter_step : forall s m s',
    R s m -> length m < length s -> iter R m s' -> iter R s s'.

(** [matches r s s']: the pattern [r] matches at the start of [s] and leaves
    [s']. *)
Fixpoint matches (r : regex) (s s' : jsstring) : Prop :=
  match r with
  | Eps => s' = s
  | Chr p => exists c, s = c :: s' /\ p c = true
  | Seq r1 r2 => exists m, matches r1 s m /\ matches r2 m s'
  | Alt r1 r2 => matches r1 s s' \/ matches r2 s s'
  | Star r1 => iter (matches r1) s s'
  | LazyStar r1 => iter (matches r1) s s'
  | Ahead r1 => s' = s /\ exists x, matches r1 s x
  | NotAhead r1 => s' = s /\ forall x, ~ matches r1 s x
  | Eos => s = [] /\ s' = []
  end.

(** The notes [reMATCHER] can produce. *)
Definition all_of (p : ascii -> bool) (l : jsstring) : Prop :=
  Forall (fun c => p c = true) l.

Inductive var_shape : jsstring -> Prop :=
| shape_var : forall c l,
    is_var_start c = true -> all_of is_var_char l -> var_shape (c :: l).

Inductive bracket_shape : jsstring -> Prop :=
| shape_any_index : bracket_shape (js "[*]")
| shape_index : forall c l,
    is_digit c = true -> all_of is_digit l ->
    bracket_shape ("["%char :: c :: l ++ js "]")
| shape_quoted : forall q body,
    q = DQ \/ q = "'"%char -> all_of dot body ->
    bracket_shape ("["%char :: q :: body ++ [q; "]"%char]).

Inductive note_shape : jsstring -> Prop :=
| shape_any : note_shape (js "*")
| shape_name : forall t, var_shape t -> note_shape t
| shape_bracket : forall t, bracket_shape t -> note_shape t.

(** The notes that may follow the first one in a valid glob. *)
Inductive tail_shape : jsstring -> Prop :=
| tail_bracket : forall t, bracket_shape t -> tail_shape t
| tail_name : forall t, var_shape t -> tail_shape ("."%char :: t)
| tail_any : tail_shape (js ".*").

(** A glob without its bang: a first note and the notes that follow. *)
Definition glob_body (s : jsstring) : Prop :=
  exists h ts, s = h ++ concat ts /\ note_shape h /\ Forall tail_shape ts.

(** The trailing wildcards that [removeTrailingWildcards] drops. *)
Definition wild_tail (w : jsstring) : Prop := w = js ".*" \/ w = js "[*]".

(** The number of occurrences of a character. *)
Definition occurrences (q : ascii) (s : jsstring) : nat :=
  length (filter (is_char q) s).

(** How many notes a glob has: the length of [new Glob(g).notes]. *)
Definition note_count (g : jsstring) : nat :=
  match Glob_new g with
  | Ok o => match notes o with Some ns => length ns | None => 0 end
  | Throw _ => 0
  end.

(** Whether a glob addresses an array at the root: [_inspect(g).isArrayGlob]. *)
Definition array_root (g : jsstring) : bool :=
  match _inspect g with
  | Ok o => isArrayGlob o
  | Throw _ => false
  end.

(** The same elements, whatever the order and the repetitions. *)
Definition same_set (a b : list jsstring) : Prop :=
  forall x, In x a <-> In x b.


(** A computation that leaves the store as it found it. *)
Definition readonly (A : Type) (m : M A) : Prop := forall h, snd (m h) = h.

(** [h'] is [h] with new arrays after it: the arrays of [h] are where they
    were, with the contents they had. *)
Definition grows (h h' : store) : Prop := exists more, h' = h ++ more.

(** The array a call returned did not exist before the call. *)
Definition new_array (h h' : store) (out : outcome address) : Prop :=
  match out with
  | Done (Ok l) => length h <= l < length h'
  | _ => True
  end.

(** A note, if there is one, that does not start with a bang. *)
Definition unbanged (o : option jsstring) : Prop :=
  forall t, o = Some t -> bang t = false.

(** What one round of the quote lookahead consumes: a character that is
    not the quote, or a quoted stretch. *)
Definition quote_unit (q : ascii) (t : jsstring) : Prop :=
  (exists c, t = [c] /\ not_char q c = true)
  \/ (exists body, t = q :: body ++ [q] /\ all_of (not_char q) body).

(** An inspection result as [_inspect] makes it from a valid glob. *)
Definition good (restrictive : bool) (o : glob_obj) : Prop :=
  glob_body (absGlob o) /\ notes o = None /\ valid (glob o) = true
  /\ isArrayGlob o
     = test_anchored ARRAY_ROOT (if bang (glob o) then tl (glob o) else glob o)
  /\ (restrictive = true -> test_anchored NEGATE_ALL (glob o) = false).

(** Two items of the list disagree on the root. *)
Definition mixed (l : list glob_obj) : Prop :=
  exists x y, In x l /\ In y l /\ isArrayGlob x <> isArrayGlob y.

(** The address holds an array. *)
Definition loaded (h : store) (l : address) : Prop :=
  exists a, nth_error h l = Some a.

(** What the inner loop may do to the list: nothing, or remove the item at
    [iA] when the list holds the same glob at another place. *)
Definition kept_or_spliced (a : glob_obj) (iA : nat) (l l' : list glob_obj) : Prop :=
  l' = l
  \/ (l' = splice1 l iA
      /\ exists k b, k <> iA /\ nth_error l k = Some b /\ glob b = glob a).

(** A string whose first and last characters are no blanks. *)
Definition no_blank_ends (s : jsstring) : Prop :=
  exists c x, is_space c = false /\ is_space x = false /\
              (s = [c] \/ exists m, s = c :: m ++ [x]).

(** Whether [normalizeNote] gave a number. *)
Definition is_vnum (v : notevalue) : bool :=
  match v with VNum _ => true | _ => false end.

(** [ARRAY_GLOB_NOTE.test(t)]: the note is an array index or [[*]]. *)
Definition arr (t : jsstring) : bool := test_anchored ARRAY_GLOB_NOTE t.

(** A string that holds neither a double nor a single quote. *)
Definition quoteless (s : jsstring) : bool :=
  forallb (fun c => negb (is_char DQ c || is_char "'" c)) s.

(** A note whose quoted key, if it is one, holds no quote character. *)
Definition plain_key (t : jsstring) : Prop :=
  forall q body,
    q = DQ \/ q = "'"%char ->
    t = "["%char :: q :: body ++ [q; "]"%char] -> quoteless body = true.

(** The pieces of a valid glob: its first note and the notes that follow,
    each as it stands in the glob. *)
Definition piece_shape (t : jsstring) : Prop := note_shape t \/ tail_shape t.

(** The note of a glob that a piece after the first one stands for: the
    dot that joins it to the note before is dropped. *)
Definition untail (t : jsstring) : jsstring :=
  match t with
  | c :: r => if is_char "." c then r else t
  | [] => []
  end.

(** The piece a note makes when it follows another one: a bracket as it
    is, a name or a star after a dot. *)
Definition retail (t : jsstring) : jsstring :=
  match t with
  | c :: _ => if is_char "[" c then t else "."%char :: t
  | [] => []
  end.

(** What may follow a note in a valid glob: nothing, a dot or a bracket. *)
Definition stops (rest : jsstring) : Prop :=
  match rest with
  | [] => True
  | c :: _ => c = "."%char \/ c = "["%char
  end.

(** A glob in the form [_inspect] gives it: valid, and without trailing
    wildcards unless it is negated. *)
Definition normal (g : jsstring) : Prop :=
  valid g = true /\ (bang g = false -> removeTrailingWildcards g = g).

(** What holds of the result of a computation whenever it returns one. *)
Definition always (A : Type) (P : A -> Prop) (m : M A) : Prop :=
  forall h a h', m h = (Ok a, h') -> P a.

(** The inner loop of [normalize] leaves the kept globs alone and may only
    remove items from the list. *)
Definition same_core (w w' : work) : Prop :=
  normalized w' = normalized w /\ incl (list_ w') (list_ w).

(** A round of the outer loop may also keep the glob of an item. *)
Definition keeps (w w' : work) : Prop :=
  incl (list_ w') (list_ w)
  /\ forall g, In g (normalized w') ->
               In g (normalized w) \/ exists o, In o (list_ w) /\ glob o = g.

(* ================================================================== *)
(** * Properties *)

(** ** The matcher finds what the relation describes *)
Section Loops.
Variable A : Type.
Variable body : jsstring -> (jsstring -> option A) -> option A.
Variable R : jsstring -> jsstring -> Prop.
Hypothesis body_sound : forall s k x,
    body s k = Some x -> exists s', R s s' /\ k s' = Some x.
Hypothesis body_complete : forall s k s',
    R s s' -> k s' <> None -> body s k <> None.

Lemma star_loop_sound : forall n k s x,
    star_loop body k n s = Some x -> exists s', iter R s s' /\ k s' = Some x.
Proof.
  induction n as [|n IH]; intros k s x H; simpl in H.
  - exists s; split; [constructor | exact H].
  - destruct (body s _) as [y|] eqn:E.
    + inversion H; subst y; clear H.
      apply body_sound in E. destruct E as [m [Hm Hk]].
      destruct (length m <? length s) eqn:L; [|discriminate].
      apply Nat.ltb_lt in L.
      apply IH in Hk. destruct Hk as [s' [Hi Hk]].
      exists s'; split; [eapply iter_step; eauto | exact Hk].
    + exists s; split; [constructor | exact H].
Qed.

Lemma star_loop_complete : forall n k s s',
    iter R s s' -> k s' <> None -> length s <= n ->
    star_loop body k n s <> None.
Proof.
  induction n as [|n IH]; intros k s s' Hi Hk Hn; simpl.
  - inversion Hi; subst; [exact Hk | lia].
  - destruct (body s _) as [y|] eqn:E; [discriminate|].
    inversion Hi; subst; [exact Hk|].
    exfalso. revert E. apply body_complete with (s' := m); [assumption|].
    assert (L : (length m <? length s) = true) by (apply Nat.ltb_lt; assumption).
    rewrite L.
    apply IH with (s' := s'); [assumption | assumption | lia].
Qed.

Lemma lazy_loop_sound : forall n k s x,
    lazy_loop body k n s = Some x -> exists s', iter R s s' /\ k s' = Some x.
Proof.
  induction n as [|n IH]; intros k s x H; simpl in H.
  - exists s; split; [constructor | exact H].
  - destruct (k s) as [y|] eqn:E.
    + inversion H; subst y. exists s; split; [constructor | exact E].
    + apply body_sound in H. destruct H as [m [Hm Hk]].
      destruct (length m <? length s) eqn:L; [|discriminate].
      apply Nat.ltb_lt in L.
      apply IH in Hk. destruct Hk as [s' [Hi Hk]].
      exists s'; split; [eapply iter_step; eauto | exact Hk].
Qed.

Lemma lazy_loop_complete : forall n k s s',
    iter R s s' -> k s' <> None -> length s <= n ->
    lazy_loop body k n s <> None.
Proof.
  induction n as [|n IH]; intros k s s' Hi Hk Hn; simpl.
  - inversion Hi; subst; [exact Hk | lia].
  - destruct (k s) as [y|] eqn:E; [discriminate|].
    inversion Hi; subst; [congruence|].
    apply body_complete with (s' := m); [assumption|].
    assert (L : (length m <? length s) = true) by (apply Nat.ltb_lt; assumption).
    rewrite L.
    apply IH with (s' := s'); [assumption | assumption | lia].
Qed.
End Loops.

Lemma exec_spec : forall r,
    (forall (A : Type) s (k : jsstring -> option A) x,
        exec r s k = Some x -> exists s', matches r s s' /\ k s' = Some x)
    /\ (forall (A : Type) s (k : jsstring -> option A) s',
           matches r s s' -> k s' <> None -> exec r s k <> None).
Proof.
  induction r as [|p|r1 [S1 C1] r2 [S2 C2]|r1 [S1 C1] r2 [S2 C2]
                 |r1 [S1 C1]|r1 [S1 C1]|r1 [S1 C1]|r1 [S1 C1]|]; split; simpl.
  - intros A s k x H. exists s; auto.
  - intros A s k s' -> H; exact H.
  - intros A [|c s] k x H; [discriminate|].
    destruct (p c) eqn:P; [|discriminate]. exists s; split; [exists c; auto|exact H].
  - intros A s k s' [c [-> P]] H. rewrite P. exact H.
  - intros A s k x H. apply S1 in H. destruct H as [m [M1 H]].
    apply S2 in H. destruct H as [s' [M2 H]]. exists s'; split; [exists m; auto|exact H].
  - intros A s k s' [m [M1 M2]] H. apply C1 with (s' := m); [assumption|].
    apply C2 with (s' := s'); assumption.
  - intros A s k x H. destruct (exec r1 s k) as [y|] eqn:E.
    + inversion H; subst y. apply S1 in E. destruct E as [s' [M E]]. exists s'; auto.
    + apply S2 in H. destruct H as [s' [M E']]. exists s'; auto.
  - intros A s k s' [M|M] H.
    + assert (exec r1 s k <> None) by (eapply C1; eauto).
      destruct (exec r1 s k); [discriminate|congruence].
    + destruct (exec r1 s k); [discriminate|]. eapply C2; eauto.
  - intros A s k x H.
    eapply star_loop_sound with (R := matches r1) in H; [exact H|].
    intros; eapply S1; eauto.
  - intros A s k s' M H.
    eapply star_loop_complete with (R := matches r1); eauto.
  - intros A s k x H.
    eapply lazy_loop_sound with (R := matches r1) in H; [exact H|].
    intros; eapply S1; eauto.
  - intros A s k s' M H.
    eapply lazy_loop_complete with (R := matches r1); eauto.
  - intros A s k x H. destruct (exec r1 s (fun _ => Some tt)) eqn:E; [|discriminate].
    apply S1 in E. destruct E as [m [M _]]. exists s; split; [split; eauto|exact H].
  - intros A s k s' [-> [x M]] H.
    assert (exec r1 s (fun _ => Some tt) <> None) by (eapply C1; eauto; discriminate).
    destruct (exec r1 s (fun _ => Some tt)); [exact H|congruence].
  - intros A s k x H. destruct (exec r1 s (fun _ => Some tt)) eqn:E; [discriminate|].
    exists s; split; [split; auto|exact H].
    intros y M. revert E. eapply C1; eauto. discriminate.
  - intros A s k s' [-> N] H.
    destruct (exec r1 s (fun _ => Some tt)) eqn:E; [|exact H].
    apply S1 in E. destruct E as [m [M _]]. exfalso; eapply N; eauto.
  - intros A [|c s] k x H; [|discriminate]. exists []; auto.
  - intros A s k s' [-> ->] H. exact H.
Qed.

Arguments exec : simpl never.

Lemma exec_sound : forall r (A : Type) s (k : jsstring -> option A) x,
    exec r s k = Some x -> exists s', matches r s s' /\ k s' = Some x.
Proof. intros r. apply (exec_spec r). Qed.

Lemma exec_complete : forall r (A : Type) s (k : jsstring -> option A) s',
    matches r s s' -> k s' <> None -> exec r s k <> None.
Proof. intros r. apply (exec_spec r). Qed.

Lemma test_anchored_iff : forall r s,
    test_anchored r s = true <-> exists s', matches r s s'.
Proof.
  intros r s. unfold test_anchored. split.
  - destruct (exec r s _) as [[]|] eqn:E; [|discriminate]. intros _.
    apply exec_sound in E. destruct E as [s' [M _]]. eauto.
  - intros [s' M].
    assert (H : exec r s (fun _ => Some tt) <> None)
      by (eapply exec_complete; eauto; discriminate).
    destruct (exec r s _); [reflexivity|congruence].
Qed.

Lemma test_anchored_false : forall r s,
    (forall s', ~ matches r s s') -> test_anchored r s = false.
Proof.
  intros r s H. destruct (test_anchored r s) eqn:E; [|reflexivity].
  apply test_anchored_iff in E. destruct E as [s' M]. exfalso; eapply H; eauto.
Qed.

Lemma consumed_app : forall p s, consumed (p ++ s) s = p.
Proof.
  intros p s. unfold consumed. rewrite length_app.
  replace (length p + length s - length s) with (length p) by lia.
  rewrite firstn_app, firstn_all, Nat.sub_diag. simpl. apply app_nil_r.
Qed.

(** Repetition of a pattern whose matches are the words of a set. *)
Lemma iter_words : forall (R : jsstring -> jsstring -> Prop) (P : jsstring -> Prop),
    (forall s s', R s s' <-> exists t, s = t ++ s' /\ P t) ->
    forall s s', iter R s s' <-> exists ts, s = concat ts ++ s' /\ Forall P ts.
Proof.
  intros R P HR s s'. split.
  - intros H. induction H as [s|s m s' H1 _ _ [ts [-> F]]].
    + exists []; split; [reflexivity|constructor].
    + apply HR in H1. destruct H1 as [t [-> Pt]].
      exists (t :: ts). split; [simpl; rewrite app_assoc; reflexivity|constructor; auto].
  - intros [ts [-> F]]. induction F as [|t ts Pt F IH]; simpl.
    + constructor.
    + destruct t as [|c t].
      * simpl. exact IH.
      * eapply iter_step with (m := concat ts ++ s'); [| |exact IH].
        -- apply HR. exists (c :: t). split; [|exact Pt].
           rewrite <- app_assoc. reflexivity.
        -- rewrite <- app_assoc. simpl. rewrite (length_app t). lia.
Qed.

Lemma matches_chr_iff : forall p s s',
    matches (Chr p) s s' <-> exists t, s = t ++ s' /\ (exists c, t = [c] /\ p c = true).
Proof.
  intros p s s'. simpl. split.
  - intros [c [-> H]]. exists [c]; split; eauto.
  - intros [t [-> [c [-> H]]]]. exists c; auto.
Qed.

Lemma concat_singletons : forall (p : ascii -> bool) ts,
    Forall (fun t => exists c, t = [c] /\ p c = true) ts -> all_of p (concat ts).
Proof.
  intros p ts F. induction F as [|t ts [c [-> H]] _ IH]; simpl; constructor; auto.
Qed.

Lemma iter_chr : forall p s s',
    iter (matches (Chr p)) s s' <-> exists l, s = l ++ s' /\ all_of p l.
Proof.
  intros p s s'. rewrite (@iter_words _ _ (matches_chr_iff p)). split.
  - intros [ts [-> F]]. exists (concat ts). split; [reflexivity|].
    apply concat_singletons; assumption.
  - intros [l [-> F]]. exists (map (fun c => [c]) l). split.
    + f_equal. induction l; simpl; [reflexivity|]. inversion F; subst. f_equal; auto.
    + induction F; simpl; constructor; eauto.
Qed.

Lemma matches_lit_ : forall t s s', matches (lit_ t) s s' <-> s = t ++ s'.
Proof.
  induction t as [|c t IH]; simpl; intros s s'.
  - split; intros; subst; reflexivity.
  - split.
    + intros [m [[x [-> X]] M]]. apply IH in M. subst m.
      unfold is_char in X. apply Ascii.eqb_eq in X. subst; reflexivity.
    + intros ->. exists (t ++ s'). split; [|apply IH; reflexivity].
      exists c. split; [reflexivity|]. unfold is_char. apply Ascii.eqb_refl.
Qed.

Lemma matches_chr : forall c s s', matches (chr c) s s' <-> s = c :: s'.
Proof.
  intros c s s'. unfold chr. simpl. split.
  - intros [x [-> X]]. unfold is_char in X. apply Ascii.eqb_eq in X. subst; reflexivity.
  - intros ->. exists c. split; [reflexivity|]. unfold is_char. apply Ascii.eqb_refl.
Qed.

Lemma matches_var : forall s s',
    matches var_ s s' <-> exists t, s = t ++ s' /\ var_shape t.
Proof.
  intros s s'. unfold var_. simpl. split.
  - intros [m [[c [-> C]] I]]. apply iter_chr in I. destruct I as [l [-> F]].
    exists (c :: l). split; [reflexivity|constructor; assumption].
  - intros [t [-> V]]. destruct V as [c l C F].
    exists (l ++ s'). split; [exists c; auto|]. apply iter_chr. eauto.
Qed.

Lemma matches_digits : forall s s',
    matches digits s s' <->
    exists c l, s = c :: l ++ s' /\ is_digit c = true /\ all_of is_digit l.
Proof.
  intros s s'. unfold digits, Plus. simpl. split.
  - intros [m [[c [-> C]] I]]. apply iter_chr in I. destruct I as [l [-> F]].
    exists c, l. auto.
  - intros [c [l [-> [C F]]]].
    exists (l ++ s'). split; [exists c; auto|]. apply iter_chr. eauto.
Qed.

Lemma matches_quoted : forall q s s',
    matches (quoted q) s s' <->
    exists body, s = q :: body ++ q :: s' /\ all_of dot body.
Proof.
  intros q s s'. unfold quoted.
  change (matches (Seq (chr q) (Seq (Star (Chr dot)) (chr q))) s s')
    with (exists m, matches (chr q) s m /\
                    exists m', iter (matches (Chr dot)) m m' /\ matches (chr q) m' s').
  split.
  - intros [m [M1 [m' [I M2]]]]. apply matches_chr in M1, M2. subst.
    apply iter_chr in I. destruct I as [l [-> F]]. exists l. auto.
  - intros [body [-> F]]. exists (body ++ q :: s'). split; [apply matches_chr; reflexivity|].
    exists (q :: s'). split; [apply iter_chr; eauto|apply matches_chr; reflexivity].
Qed.

Lemma matches_bracket : forall s s',
    matches bracket s s' <-> exists t, s = t ++ s' /\ bracket_shape t.
Proof.
  intros s s'. unfold bracket.
  change (matches (Seq (chr "[") (Seq (Alt digits (Alt (chr "*") (Alt (quoted DQ) (quoted "'")))) (chr "]"))) s s')
    with (exists m, matches (chr "[") s m /\
          exists m', (matches digits m m' \/ matches (chr "*") m m' \/
                      matches (quoted DQ) m m' \/ matches (quoted "'") m m')
                     /\ matches (chr "]") m' s').
  split.
  - intros [m [M1 [m' [M M2]]]]. apply matches_chr in M1, M2. subst.
    destruct M as [M|[M|[M|M]]].
    + apply matches_digits in M. destruct M as [c [l [-> [C F]]]].
      exists ("["%char :: c :: l ++ js "]"). split.
      * simpl. rewrite <- app_assoc. reflexivity.
      * constructor; assumption.
    + apply matches_chr in M. subst. exists (js "[*]"). split; [reflexivity|constructor].
    + apply matches_quoted in M. destruct M as [body [-> F]].
      exists ("["%char :: DQ :: body ++ [DQ; "]"%char]). split.
      * simpl. rewrite <- app_assoc. reflexivity.
      * constructor; auto.
    + apply matches_quoted in M. destruct M as [body [-> F]].
      exists ("["%char :: "'"%char :: body ++ ["'"%char; "]"%char]). split.
      * simpl. rewrite <- app_assoc. reflexivity.
      * constructor; auto.
  - intros [t [-> B]]. destruct B as [|c l C F|q body Q F].
    + exists (js "*]" ++ s'). split; [apply matches_chr; reflexivity|].
      exists (js "]" ++ s'). split; [|apply matches_chr; reflexivity].
      right; left. apply matches_chr. reflexivity.
    + exists (c :: l ++ js "]" ++ s'). split.
      { apply matches_chr. simpl. rewrite <- app_assoc. reflexivity. }
      exists (js "]" ++ s'). split; [|apply matches_chr; reflexivity].
      left. apply matches_digits. exists c, l. auto.
    + exists (q :: body ++ q :: "]"%char :: s'). split.
      { apply matches_chr. simpl. rewrite <- app_assoc. reflexivity. }
      exists (js "]" ++ s'). split; [|apply matches_chr; reflexivity].
      right; right. destruct Q as [-> | ->]; [left|right];
        apply matches_quoted; exists body; auto.
Qed.

Lemma matches_reMATCHER : forall s s',
    matches reMATCHER s s' <-> exists t, s = t ++ s' /\ note_shape t.
Proof.
  intros s s'. unfold reMATCHER.
  change (matches (Alt bracket (Alt var_ (chr "*"))) s s')
    with (matches bracket s s' \/ matches var_ s s' \/ matches (chr "*") s s').
  rewrite matches_bracket, matches_var, matches_chr. split.
  - intros [[t [-> B]]|[[t [-> V]]| ->]].
    + exists t. split; [reflexivity|apply shape_bracket; assumption].
    + exists t. split; [reflexivity|apply shape_name; assumption].
    + exists (js "*"). split; [reflexivity|apply shape_any].
  - intros [t [-> N]]. destruct N; eauto.
Qed.

Lemma matches_head : forall s s',
    matches reVALIDATOR_head s s' <-> exists t, s = t ++ s' /\ note_shape t.
Proof.
  intros s s'. unfold reVALIDATOR_head.
  change (matches (Alt (chr "*") (Alt var_ bracket)) s s')
    with (matches (chr "*") s s' \/ matches var_ s s' \/ matches bracket s s').
  rewrite matches_bracket, matches_var, matches_chr. split.
  - intros [->|[[t [-> V]]|[t [-> B]]]].
    + exists (js "*"). split; [reflexivity|apply shape_any].
    + exists t. split; [reflexivity|apply shape_name; assumption].
    + exists t. split; [reflexivity|apply shape_bracket; assumption].
  - intros [t [-> N]]. destruct N; eauto.
Qed.

Lemma matches_tail : forall s s',
    matches reVALIDATOR_tail s s' <-> exists t, s = t ++ s' /\ tail_shape t.
Proof.
  intros s s'. unfold reVALIDATOR_tail.
  change (matches (Alt bracket (Alt (Seq (chr ".") var_) (lit ".*"))) s s')
    with (matches bracket s s' \/
          (exists m, matches (chr ".") s m /\ matches var_ m s') \/
          matches (lit_ (js ".*")) s s').
  rewrite matches_bracket, matches_lit_. split.
  - intros [[t [-> B]]|[[m [M V]]| ->]].
    + exists t. split; [reflexivity|apply tail_bracket; assumption].
    + apply matches_chr in M. apply matches_var in V. destruct V as [t [-> V]]. subst.
      exists ("."%char :: t). split; [reflexivity|apply tail_name; assumption].
    + exists (js ".*"). split; [reflexivity|apply tail_any].
  - intros [t [-> T]]. destruct T as [t B|t V|]; eauto.
    right; left. exists (t ++ s'). split; [apply matches_chr; reflexivity|].
    apply matches_var. eauto.
Qed.

Lemma matches_validator_body : forall s s',
    matches (Seq reVALIDATOR_head (Seq (Star reVALIDATOR_tail) Eos)) s s' <->
    glob_body s /\ s' = [].
Proof.
  intros s s'.
  change (matches (Seq reVALIDATOR_head (Seq (Star reVALIDATOR_tail) Eos)) s s')
    with (exists m, matches reVALIDATOR_head s m /\
          exists m', iter (matches reVALIDATOR_tail) m m' /\ (m' = [] /\ s' = [])).
  split.
  - intros [m [H [m' [I [-> ->]]]]]. split; [|reflexivity].
    apply matches_head in H. destruct H as [h [-> N]].
    apply (@iter_words _ _ matches_tail) in I. destruct I as [ts [-> F]].
    exists h, ts. rewrite app_nil_r. auto.
  - intros [[h [ts [-> [N F]]]] ->].
    exists (concat ts). split; [apply matches_head; eauto|].
    exists []. split; [|auto].
    apply (@iter_words _ _ matches_tail). exists ts. rewrite app_nil_r. auto.
Qed.

Lemma note_shape_no_bang : forall t, note_shape t -> bang t = false /\ t <> [].
Proof.
  intros t N. destruct N as [|t V|t B].
  - split; [reflexivity|discriminate].
  - destruct V as [c l C _]. split; [|discriminate]. simpl.
    destruct c as [[] [] [] [] [] [] [] []]; try reflexivity; discriminate C.
  - destruct B; split; try reflexivity; discriminate.
Qed.

Lemma glob_body_no_bang : forall s, glob_body s -> bang s = false /\ s <> [].
Proof.
  intros s [h [ts [-> [N _]]]]. apply note_shape_no_bang in N. destruct N as [B E].
  destruct h; [congruence|]. split; [exact B|discriminate].
Qed.

Lemma valid_iff : forall s,
    valid s = true <-> glob_body s \/ exists t, s = "!"%char :: t /\ glob_body t.
Proof.
  intros s. unfold valid. rewrite test_anchored_iff. unfold reVALIDATOR, Opt.
  split.
  - intros [s' [m [[M|M] B]]].
    + apply matches_chr in M. apply matches_validator_body in B. subst.
      right. exists m. tauto.
    + simpl in M. subst m. apply matches_validator_body in B. tauto.
  - intros [B|[t [-> B]]].
    + exists [], s. split; [right; reflexivity|]. apply matches_validator_body. auto.
    + exists [], t. split; [left; apply matches_chr; reflexivity|].
      apply matches_validator_body. auto.
Qed.

Lemma valid_body : forall s, valid s = true -> bang s = false -> glob_body s.
Proof.
  intros s V B. apply valid_iff in V. destruct V as [G|[t [-> _]]]; [exact G|discriminate].
Qed.

Lemma valid_negated : forall s, valid s = true -> bang s = true -> glob_body (tl s).
Proof.
  intros s V B. apply valid_iff in V. destruct V as [G|[t [-> G]]]; [|exact G].
  apply glob_body_no_bang in G. destruct G; congruence.
Qed.

Lemma glob_body_valid : forall s, glob_body s -> valid s = true.
Proof. intros s G. apply valid_iff. auto. Qed.

(** *** Facts about single characters, by enumeration *)

Ltac each_char c :=
  destruct c as [[] [] [] [] [] [] [] []]; try reflexivity; try discriminate.

Lemma var_char_facts : forall c,
    is_var_char c = true ->
    is_space c = false /\ c <> "*"%char /\ c <> "]"%char /\ c <> "["%char
    /\ c <> "!"%char /\ c <> "."%char.
Proof.
  intros c H. repeat split; try (intros ->; discriminate H).
  revert H. each_char c.
Qed.

Lemma var_start_char : forall c, is_var_start c = true -> is_var_char c = true.
Proof. intros c H. unfold is_var_char. rewrite H. reflexivity. Qed.

Lemma digit_facts : forall c,
    is_digit c = true ->
    is_space c = false /\ c <> "*"%char /\ is_var_start c = false
    /\ is_char "-" c = false /\ is_char "+" c = false
    /\ c <> DQ /\ c <> "'"%char /\ c <> "`"%char.
Proof.
  intros c H. repeat split; try (intros ->; discriminate H); revert H; each_char c.
Qed.

(** *** How the notes end *)

Lemma var_shape_end : forall t,
    var_shape t -> exists t' x, t = t' ++ [x] /\ is_var_char x = true.
Proof.
  intros t [c l C F].
  assert (A : all_of is_var_char (c :: l)) by (constructor; [apply var_start_char|]; assumption).
  destruct (@exists_last _ (c :: l)) as [t' [x E]]; [discriminate|].
  exists t', x. split; [exact E|].
  rewrite E in A. apply Forall_app in A. destruct A as [_ A]. inversion A; assumption.
Qed.

Lemma bracket_shape_end : forall t,
    bracket_shape t ->
    exists u x, t = "["%char :: u ++ [x; "]"%char] /\ (x = "*"%char -> u = [])
                /\ is_space x = false.
Proof.
  intros t B. destruct B as [|c l C F|q body Q F].
  - exists [], "*"%char. auto.
  - assert (A : all_of is_digit (c :: l)) by (constructor; assumption).
    destruct (@exists_last _ (c :: l)) as [u [x E]]; [discriminate|].
    exists u, x. rewrite E in A. apply Forall_app in A. destruct A as [_ A].
    inversion A as [|? ? X _]; subst. apply digit_facts in X.
    destruct X as [X1 [X2 _]].
    split; [|split; [intros ->; exfalso; apply X2; reflexivity|exact X1]].
    change ("["%char :: c :: l ++ js "]") with ("["%char :: (c :: l) ++ js "]").
    rewrite E, <- app_assoc. reflexivity.
  - exists (q :: body), q. split; [reflexivity|].
    destruct Q as [-> | ->]; split; try discriminate; reflexivity.
Qed.

Lemma rev_eq : forall (A : Type) (a b : list A), rev a = rev b -> a = b.
Proof. intros A a b H. rewrite <- (rev_involutive a), H. apply rev_involutive. Qed.

Ltac reverse_in H :=
  apply (f_equal (@rev ascii)) in H;
  repeat (rewrite ?rev_app_distr in H; simpl in H; rewrite <- ?app_assoc in H; simpl in H).

Lemma wild_suffix_tail : forall t w X Y,
    tail_shape t -> wild_tail w -> X ++ t = Y ++ w -> t = w /\ X = Y.
Proof.
  intros t w X Y T W E. destruct T as [t B|t V|].
  - apply bracket_shape_end in B. destruct B as [u [x [-> [U _]]]].
    destruct W as [-> | ->]; reverse_in E; [discriminate|].
    injection E as -> E. rewrite (U eq_refl) in *. simpl in E.
    injection E as E. apply rev_eq in E. auto.
  - apply var_shape_end in V. destruct V as [t' [x [-> V]]].
    apply var_char_facts in V.
    destruct W as [-> | ->]; reverse_in E; injection E as -> _;
      exfalso; intuition congruence.
  - destruct W as [-> | ->]; reverse_in E; [|discriminate].
    injection E as E. apply rev_eq in E. auto.
Qed.

Lemma wild_suffix_head : forall h w Y,
    note_shape h -> wild_tail w -> h = Y ++ w -> Y = [].
Proof.
  intros h w Y N W E. destruct N as [|t V|t B].
  - destruct W as [-> | ->]; destruct Y as [|? [|? ?]]; discriminate.
  - apply var_shape_end in V. destruct V as [t' [x [-> V]]].
    apply var_char_facts in V.
    destruct W as [-> | ->]; reverse_in E; injection E as -> _;
      exfalso; intuition congruence.
  - apply bracket_shape_end in B. destruct B as [u [x [-> [U _]]]].
    destruct W as [-> | ->]; reverse_in E; [discriminate|].
    injection E as -> E. rewrite (U eq_refl) in *. simpl in E.
    destruct (rev Y) eqn:R; [|destruct l; discriminate].
    apply rev_eq. exact R.
Qed.

Lemma concat_snoc : forall (A : Type) (ls : list (list A)) l,
    concat (ls ++ [l]) = concat ls ++ l.
Proof. intros. rewrite concat_app. simpl. rewrite app_nil_r. reflexivity. Qed.

(** Dropping trailing wildcards from a glob body leaves a glob body. *)
Lemma strip_tokens : forall ws h ts p,
    Forall wild_tail ws -> note_shape h -> Forall tail_shape ts -> p <> [] ->
    h ++ concat ts = p ++ concat ws ->
    exists ts', p = h ++ concat ts' /\ Forall tail_shape ts'.
Proof.
  induction ws as [|w ws IH] using rev_ind; intros h ts p W N T P E.
  - simpl in E. rewrite app_nil_r in E. eauto.
  - apply Forall_app in W. destruct W as [W Ww]. inversion Ww as [|? ? Hw _]; subst.
    rewrite concat_snoc, app_assoc in E.
    destruct ts as [|t ts _] using rev_ind.
    + simpl in E. rewrite app_nil_r in E.
      eapply wild_suffix_head in E; eauto.
      apply app_eq_nil in E. destruct E; contradiction.
    + apply Forall_app in T. destruct T as [T Tt]. inversion Tt as [|? ? Ht _]; subst.
      rewrite concat_snoc, app_assoc in E.
      eapply wild_suffix_tail in E; eauto. destruct E as [_ E].
      apply (IH h ts p); assumption.
Qed.

Lemma exec_group_sound : forall pre g post s x,
    exec_group pre g post s = Some x ->
    exists s0 s1 s2, matches pre s s0 /\ matches g s0 s1 /\ matches post s1 s2
                     /\ x = consumed s0 s1.
Proof.
  intros pre g post s x H. unfold exec_group in H.
  apply exec_sound in H. destruct H as [s0 [M0 H]].
  apply exec_sound in H. destruct H as [s1 [M1 H]].
  apply exec_sound in H. destruct H as [s2 [M2 H]].
  inversion H. exists s0, s1, s2. auto.
Qed.

Lemma exec_group_complete : forall pre g post s s0 s1 s2,
    matches pre s s0 -> matches g s0 s1 -> matches post s1 s2 ->
    exec_group pre g post s <> None.
Proof.
  intros pre g post s s0 s1 s2 M0 M1 M2. unfold exec_group.
  eapply exec_complete; [exact M0|].
  eapply exec_complete; [exact M1|].
  eapply exec_complete; [exact M2|]. discriminate.
Qed.

Lemma matches_wild : forall s s',
    matches (Alt (lit ".*") (lit "[*]")) s s' <-> exists t, s = t ++ s' /\ wild_tail t.
Proof.
  intros s s'.
  change (matches (Alt (lit ".*") (lit "[*]")) s s')
    with (matches (lit_ (js ".*")) s s' \/ matches (lit_ (js "[*]")) s s').
  rewrite !matches_lit_. unfold wild_tail. split.
  - intros [-> | ->]; eauto.
  - intros [t [-> [-> | ->]]]; auto.
Qed.

(** What [removeTrailingWildcards] returns when the pattern matches. *)
Lemma trail_match : forall s x,
    exec_group TRAIL_pre TRAIL_g1 TRAIL_post s = Some x ->
    x <> [] /\ bang s = false /\
    exists ws, ws <> [] /\ Forall wild_tail ws /\ s = x ++ concat ws.
Proof.
  intros s x H. apply exec_group_sound in H.
  destruct H as [s0 [s1 [s2 [M0 [M1 [M2 ->]]]]]].
  destruct M0 as [-> M0].
  unfold TRAIL_g1, LazyPlus in M1.
  change (matches (Seq (Chr dot) (LazyStar (Chr dot))) s s1)
    with (exists m, matches (Chr dot) s m /\ iter (matches (Chr dot)) m s1) in M1.
  destruct M1 as [m [[c [-> C]] I]]. apply iter_chr in I. destruct I as [l [-> D]].
  unfold TRAIL_post, Plus in M2.
  change (matches (Seq (Seq (Alt (lit ".*") (lit "[*]")) (Star (Alt (lit ".*") (lit "[*]")))) Eos) s1 s2)
    with (exists m, (exists m', matches (Alt (lit ".*") (lit "[*]")) s1 m' /\
                                iter (matches (Alt (lit ".*") (lit "[*]"))) m' m)
                    /\ (m = [] /\ s2 = [])) in M2.
  destruct M2 as [m [[m' [W I]] [-> ->]]].
  apply matches_wild in W. destruct W as [w [-> W]].
  apply (@iter_words _ _ matches_wild) in I. destruct I as [ws [-> F]].
  change (c :: l ++ w ++ concat ws ++ []) with ((c :: l) ++ w ++ concat ws ++ []).
  rewrite consumed_app. split; [discriminate|]. split.
  - simpl. destruct (is_char "!" c) eqn:B; [|reflexivity].
    exfalso. apply (M0 (l ++ w ++ concat ws ++ [])). apply matches_chr.
    unfold is_char in B. apply Ascii.eqb_eq in B. subst. reflexivity.
  - exists (w :: ws). split; [discriminate|]. split; [constructor; assumption|].
    simpl. rewrite app_nil_r. reflexivity.
Qed.

Lemma strip_body : forall s, glob_body s -> glob_body (removeTrailingWildcards s).
Proof.
  intros s G. unfold removeTrailingWildcards.
  destruct (exec_group TRAIL_pre TRAIL_g1 TRAIL_post s) as [x|] eqn:E; [|exact G].
  apply trail_match in E. destruct E as [X [_ [ws [_ [W E]]]]].
  destruct G as [h [ts [E' [N T]]]]. rewrite E' in E.
  destruct (@strip_tokens ws h ts x W N T X E) as [ts' [-> T']].
  exists h, ts'. auto.
Qed.

(** *** A valid glob has no blank at either end *)

Lemma trimStart_id : forall c s, is_space c = false -> trimStart (c :: s) = c :: s.
Proof. intros c s H. simpl. rewrite H. reflexivity. Qed.

Lemma trim_id : forall c s x,
    is_space c = false -> is_space x = false -> trim (c :: s ++ [x]) = c :: s ++ [x].
Proof.
  intros c s x C X. unfold trim. rewrite trimStart_id by assumption.
  assert (R : rev (c :: s ++ [x]) = x :: rev (c :: s)).
  { change (c :: s ++ [x]) with ((c :: s) ++ [x]). rewrite rev_app_distr. reflexivity. }
  rewrite R, trimStart_id by assumption.
  rewrite <- R. apply rev_involutive.
Qed.

Lemma trim_single : forall c, is_space c = false -> trim [c] = [c].
Proof. intros c C. unfold trim. simpl. rewrite C. simpl. rewrite C. reflexivity. Qed.


Lemma no_blank_trim : forall s, no_blank_ends s -> trim s = s.
Proof.
  intros s [c [x [C [X [-> | [m ->]]]]]]; [apply trim_single|apply trim_id]; assumption.
Qed.

Lemma note_shape_ends : forall t,
    note_shape t ->
    (exists c r, t = c :: r /\ is_space c = false /\ c <> "!"%char)
    /\ (exists m x, t = m ++ [x] /\ is_space x = false).
Proof.
  intros t N. destruct N as [|t V|t B].
  - split; [exists "*"%char, []|exists [], "*"%char]; repeat split; discriminate.
  - split.
    + destruct V as [c l C _]. apply var_start_char in C. apply var_char_facts in C.
      exists c, l. repeat split; apply C.
    + apply var_shape_end in V. destruct V as [m [x [-> X]]]. apply var_char_facts in X.
      exists m, x. split; [reflexivity|apply X].
  - split.
    + exists "["%char. destruct B; eexists; repeat split; discriminate.
    + apply bracket_shape_end in B. destruct B as [u [x [-> _]]].
      exists ("["%char :: u ++ [x]), "]"%char. split; [|reflexivity].
      simpl. rewrite <- app_assoc. reflexivity.
Qed.

Lemma tail_shape_end : forall t,
    tail_shape t -> exists m x, t = m ++ [x] /\ is_space x = false.
Proof.
  intros t T. destruct T as [t B|t V|].
  - apply note_shape_ends. apply shape_bracket. exact B.
  - apply var_shape_end in V. destruct V as [m [x [-> X]]]. apply var_char_facts in X.
    exists ("."%char :: m), x. split; [reflexivity|apply X].
  - exists (js "."), "*"%char. split; reflexivity.
Qed.

Lemma glob_body_end : forall s,
    glob_body s -> exists m x, s = m ++ [x] /\ is_space x = false.
Proof.
  intros s [h [ts [-> [N T]]]].
  destruct ts as [|t ts _] using rev_ind.
  - simpl. rewrite app_nil_r. apply (note_shape_ends N).
  - apply Forall_app in T. destruct T as [_ T]. inversion T as [|? ? Ht _]; subst.
    apply tail_shape_end in Ht. destruct Ht as [m [x [-> X]]].
    rewrite concat_snoc. exists (h ++ concat ts ++ m), x. split; [|exact X].
    rewrite <- !app_assoc. reflexivity.
Qed.

Lemma glob_body_start : forall s,
    glob_body s -> exists c r, s = c :: r /\ is_space c = false /\ c <> "!"%char.
Proof.
  intros s [h [ts [-> [N T]]]]. apply note_shape_ends in N.
  destruct N as [[c [r [-> [C B]]]] _]. exists c, (r ++ concat ts). auto.
Qed.

Lemma ends_no_blank : forall s c r m x,
    s = c :: r -> s = m ++ [x] -> is_space c = false -> is_space x = false ->
    no_blank_ends s.
Proof.
  intros s c r m x E1 E2 C X. exists c, x. split; [exact C|]. split; [exact X|].
  destruct m as [|c' m]; simpl in E2.
  - left. congruence.
  - right. exists m. congruence.
Qed.

Lemma valid_trim : forall s, valid s = true -> trim s = s.
Proof.
  intros s V. apply no_blank_trim. apply valid_iff in V. destruct V as [G|[t [-> G]]].
  - destruct (@glob_body_start s G) as [c [r [E1 [C _]]]].
    destruct (@glob_body_end s G) as [m [x [E2 X]]].
    eapply ends_no_blank; eauto.
  - destruct (@glob_body_end t G) as [m [x [-> X]]].
    eapply ends_no_blank with (m := "!"%char :: m); eauto; reflexivity.
Qed.

(** *** The notes of a valid glob *)

Lemma match_all_shapes : forall n s, Forall note_shape (match_all_from reMATCHER n s).
Proof.
  induction n as [|n IH]; intros s; simpl; [constructor|].
  destruct (exec reMATCHER s (fun rest => Some rest)) as [rest|] eqn:E.
  - apply exec_sound in E. destruct E as [s' [M E]]. inversion E; subst s'.
    apply matches_reMATCHER in M. destruct M as [t [-> N]].
    rewrite consumed_app.
    destruct (length rest <? length (t ++ rest)).
    + constructor; [exact N|apply IH].
    + constructor; [exact N|]. destruct (t ++ rest); [constructor|apply IH].
  - destruct s; [constructor|apply IH].
Qed.

Lemma match_g_body : forall s,
    glob_body s ->
    exists ns, match_g reMATCHER s = Some ns /\ ns <> [] /\ Forall note_shape ns.
Proof.
  intros s [h [ts [E [N T]]]]. unfold match_g.
  pose proof (match_all_shapes (S (length s)) s) as F.
  assert (X : match_all_from reMATCHER (S (length s)) s <> []).
  { simpl.
    assert (C : exec reMATCHER s (fun rest => Some rest) <> None).
    { apply exec_complete with (s' := concat ts); [|discriminate].
      apply matches_reMATCHER. eauto. }
    destruct (exec reMATCHER s (fun rest => Some rest)); [|congruence].
    destruct (length j <? length s); discriminate. }
  destruct (match_all_from reMATCHER (S (length s)) s) as [|n ns]; [congruence|].
  exists (n :: ns). split; [reflexivity|]. split; [discriminate|exact F].
Qed.

Lemma split_valid : forall s n,
    valid s = true ->
    exists ns, split s n = Ok (Some ns) /\ ns <> [] /\ Forall note_shape ns.
Proof.
  intros s n V. unfold split. rewrite V. simpl.
  destruct (bang s) eqn:B; simpl.
  - rewrite B. destruct (@match_g_body (tl s) (@valid_negated s V B)) as [ns [E H]].
    exists ns. rewrite E. auto.
  - pose proof (@valid_body s V B) as G.
    assert (G' : glob_body (if n then removeTrailingWildcards s else s))
      by (destruct n; [apply strip_body|]; assumption).
    destruct (@glob_body_no_bang _ G') as [B' _]. rewrite B'.
    destruct (@match_g_body _ G') as [ns [E H]]. exists ns. rewrite E. auto.
Qed.

Lemma inspect_valid : forall s,
    valid s = true ->
    exists o, _inspect s = Ok o /\ isNegated o = bang s /\ notes o = None
              /\ glob_body (absGlob o) /\ valid (glob o) = true
              /\ bang (glob o) = bang s
              /\ glob o = (if bang s then s else removeTrailingWildcards s)
              /\ absGlob o = (if bang s then tl s else removeTrailingWildcards s).
Proof.
  intros s V. unfold _inspect. rewrite (@valid_trim s V), V. simpl.
  eexists. split; [reflexivity|]. simpl.
  destruct (bang s) eqn:B; simpl.
  - repeat split; auto. apply valid_negated; assumption.
  - pose proof (@strip_body s (@valid_body s V B)) as G.
    repeat split; auto.
    + apply glob_body_valid; assumption.
    + apply (@glob_body_no_bang _ G).
Qed.

Lemma Glob_new_valid : forall s,
    valid s = true ->
    exists o ns, Glob_new s = Ok o /\ notes o = Some ns /\ ns <> []
                 /\ Forall note_shape ns /\ isNegated o = bang s.
Proof.
  intros s V. unfold Glob_new.
  destruct (@inspect_valid s V) as [o [E [N [_ [G _]]]]]. rewrite E. simpl.
  destruct (@split_valid (absGlob o) false (@glob_body_valid _ G)) as [ns [E' [X F]]].
  rewrite E'. simpl. eexists. exists ns. simpl. auto.
Qed.

(** An inspection result of a valid glob has notes, too. *)
Lemma notes_of_body : forall o,
    glob_body (absGlob o) -> notes o = None ->
    exists ns, notes_of o = Ok ns /\ ns <> [] /\ Forall note_shape ns.
Proof.
  intros o G N. unfold notes_of. rewrite N.
  destruct (@split_valid (absGlob o) false (@glob_body_valid _ G)) as [ns [E H]].
  rewrite E. simpl. eauto.
Qed.

(** *** One note against another *)

Lemma streq_refl : forall s, streq s s = true.
Proof. induction s; simpl; [reflexivity|]. rewrite Ascii.eqb_refl. assumption. Qed.

Lemma streq_eq : forall a b, streq a b = true <-> a = b.
Proof.
  induction a as [|x a IH]; destruct b as [|y b]; simpl; split; try discriminate; auto.
  - intros H. apply andb_true_iff in H. destruct H as [H1 H2].
    apply Ascii.eqb_eq in H1. apply IH in H2. congruence.
  - intros H. inversion H; subst. rewrite Ascii.eqb_refl. apply IH. reflexivity.
Qed.

Lemma streq_neq : forall a b, a <> b -> streq a b = false.
Proof.
  intros a b H. destruct (streq a b) eqn:E; [|reflexivity].
  apply streq_eq in E. contradiction.
Qed.


Lemma number_eq_trans : forall a b c,
    number_eq a b = true -> number_eq b c = true -> number_eq a c = true.
Proof.
  intros [|x|x] [|y|y] [|z|z]; simpl; try discriminate; auto.
  - intros H1 H2. apply Z.eqb_eq in H1, H2. apply Z.eqb_eq. congruence.
  - destruct x, y, z; simpl; auto.
Qed.

Lemma notevalue_eq_trans : forall a b c,
    notevalue_eq a b = true -> notevalue_eq b c = true -> notevalue_eq a c = true.
Proof.
  intros [x|x|] [y|y|] [z|z|]; simpl; try discriminate; auto.
  - intros H1 H2. apply streq_eq in H1, H2. apply streq_eq. congruence.
  - apply number_eq_trans.
Qed.

Lemma notevalue_eq_kind : forall a b,
    notevalue_eq a b = true -> is_vnum a = is_vnum b.
Proof. intros [x|x|] [y|y|]; simpl; try discriminate; auto. Qed.

Lemma wildcard_only : forall t,
    t <> js "*" -> t <> js "[*]" -> test_anchored WILDCARD t = false.
Proof.
  intros t H1 H2. apply test_anchored_false. intros s' M.
  unfold WILDCARD in M.
  change (matches (Seq (Alt (lit "[*]") (chr "*")) Eos) t s')
    with (exists m, (matches (lit_ (js "[*]")) t m \/ matches (chr "*") t m)
                    /\ (m = [] /\ s' = [])) in M.
  destruct M as [m [[M|M] [-> _]]].
  - apply matches_lit_ in M. contradiction.
  - apply matches_chr in M. contradiction.
Qed.

Lemma round_double_number : forall z, round_double z <> NaN.
Proof.
  intros z. unfold round_double.
  destruct (z <? 2 ^ 53)%Z; [discriminate|].
  match goal with |- context [if ?c then Infinity false else _] => destruct c end;
    discriminate.
Qed.

Lemma parseInt10_digit : forall c l,
    is_digit c = true -> number_eq (parseInt10 (c :: l)) (parseInt10 (c :: l)) = true.
Proof.
  intros c l C.
  pose proof (@digit_facts c C) as [S [_ [_ [M [P _]]]]].
  unfold parseInt10. simpl trimStart. rewrite S, M, P.
  simpl digits_value. rewrite C.
  destruct (digits_value _ l) as [v n].
  pose proof (round_double_number v) as R.
  destruct (round_double v) as [|z|b]; simpl.
  - congruence.
  - apply Z.eqb_refl.
  - reflexivity.
Qed.


Lemma matches_seq : forall r1 r2 s s',
    matches (Seq r1 r2) s s' <-> exists m, matches r1 s m /\ matches r2 m s'.
Proof. intros. reflexivity. Qed.

Lemma matches_alt : forall r1 r2 s s',
    matches (Alt r1 r2) s s' <-> matches r1 s s' \/ matches r2 s s'.
Proof. intros. reflexivity. Qed.

Lemma matches_star_chr : forall p l s, all_of p l -> matches (Star (Chr p)) (l ++ s) s.
Proof. intros p l s F. apply iter_chr. eauto. Qed.

(** What [normalizeNote] makes of a note of a valid glob that is no
    wildcard. *)
Lemma note_value : forall t,
    note_shape t -> t <> js "*" -> t <> js "[*]" ->
    exists v, normalizeNote t = Ok v /\ notevalue_eq v v = true /\ is_vnum v = arr t.
Proof.
  intros t N H1 H2. destruct N as [|t V|t B]; [congruence| |].
  - (* a name *)
    exists (VStr t). unfold normalizeNote.
    assert (T : test_anchored VAR t = true).
    { apply test_anchored_iff. exists []. unfold VAR. apply matches_seq.
      exists []. split; [|split; reflexivity].
      apply matches_var. exists t. rewrite app_nil_r. auto. }
    rewrite T. split; [reflexivity|]. split; [apply streq_refl|].
    symmetry. apply test_anchored_false. intros s' M.
    unfold ARRAY_GLOB_NOTE in M. apply matches_seq in M. destruct M as [m [M _]].
    apply matches_chr in M. destruct V as [c l C _]. inversion M; subst.
    discriminate C.
  - destruct B as [|c l C F|q body Q F]; [congruence| |].
    + (* an index *)
      unfold normalizeNote.
      replace (test_anchored VAR ("["%char :: c :: l ++ js "]")) with false by reflexivity.
      destruct (exec_group (chr "[") digits (Seq (chr "]") Eos) ("["%char :: c :: l ++ js "]"))
        as [m1|] eqn:E.
      * apply exec_group_sound in E. destruct E as [s0 [s1 [s2 [M0 [M1 [_ ->]]]]]].
        apply matches_chr in M0. inversion M0; subst s0.
        apply matches_digits in M1. destruct M1 as [c' [l' [E [_ _]]]].
        rewrite E. change (c' :: l' ++ s1) with ((c' :: l') ++ s1). rewrite consumed_app.
        inversion E; subst c'.
        exists (VNum (parseInt10 (c :: l'))). split; [reflexivity|].
        split; [apply parseInt10_digit; assumption|].
        symmetry. apply test_anchored_iff. exists []. unfold ARRAY_GLOB_NOTE.
        apply matches_seq. exists (c :: l ++ js "]"). split; [apply matches_chr; reflexivity|].
        apply matches_seq. exists (js "]"). split.
        -- apply matches_alt. left. apply matches_digits. exists c, l. auto.
        -- apply matches_seq. exists []. split; [apply matches_chr; reflexivity|].
           split; reflexivity.
      * exfalso. revert E.
        apply exec_group_complete with (s0 := c :: l ++ js "]") (s1 := js "]") (s2 := []).
        -- apply matches_chr. reflexivity.
        -- apply matches_digits. exists c, l. auto.
        -- apply matches_seq. exists []. split; [apply matches_chr; reflexivity|].
           split; reflexivity.
    + (* a quoted key *)
      assert (G : object_brackets_group q ("["%char :: q :: body ++ [q; "]"%char]) <> None).
      { unfold object_brackets_group.
        apply exec_group_complete
          with (s0 := body ++ [q; "]"%char]) (s1 := [q; "]"%char]) (s2 := []).
        - apply matches_seq. exists (q :: body ++ [q; "]"%char]).
          split; apply matches_chr; reflexivity.
        - apply matches_star_chr. assumption.
        - apply matches_seq. exists (js "]"). split; [apply matches_chr; reflexivity|].
          apply matches_seq. exists []. split; [apply matches_chr; reflexivity|].
          split; reflexivity. }
      assert (A : arr ("["%char :: q :: body ++ [q; "]"%char]) = false)
        by (destruct Q as [-> | ->]; reflexivity).
      rewrite A. unfold normalizeNote.
      replace (test_anchored VAR ("["%char :: q :: body ++ [q; "]"%char]))
        with false by reflexivity.
      replace (exec_group (chr "[") digits (Seq (chr "]") Eos)
                          ("["%char :: q :: body ++ [q; "]"%char]))
        with (@None jsstring) by (destruct Q as [-> | ->]; reflexivity).
      destruct Q as [-> | ->].
      * replace (object_brackets_group "'" ("["%char :: DQ :: body ++ [DQ; "]"%char]))
          with (@None jsstring) by reflexivity.
        destruct (object_brackets_group DQ _) as [[|x m]|]; [| |congruence];
          eexists; split; try reflexivity; split; try reflexivity.
        simpl. rewrite Ascii.eqb_refl. apply streq_refl.
      * destruct (object_brackets_group "'" _) as [[|x m]|]; [| |congruence];
          eexists; split; try reflexivity; split; try reflexivity.
        simpl. rewrite Ascii.eqb_refl. apply streq_refl.
Qed.

Lemma note_shape_truthy : forall t, note_shape t -> truthy (Some t) = true.
Proof.
  intros t N. apply note_shape_no_bang in N. destruct N as [_ N].
  destruct t; [congruence|reflexivity].
Qed.

Lemma list_eq_cases : forall (t u : jsstring), t = u \/ t <> u.
Proof. intros t u. destruct (list_eq_dec ascii_dec t u); auto. Qed.

(** [_coversNote] on two notes of valid globs, case by case. *)
Lemma coversNote_shapes : forall a b,
    note_shape a -> note_shape b ->
    (a = js "*" /\ _coversNote (Some a) (Some b) = Ok (negb (arr b)))
    \/ (a = js "[*]" /\ _coversNote (Some a) (Some b) = Ok (arr b))
    \/ (a <> js "*" /\ a <> js "[*]" /\
        ((b = js "*" \/ b = js "[*]") /\ _coversNote (Some a) (Some b) = Ok false
         \/ b <> js "*" /\ b <> js "[*]" /\
            exists va vb, normalizeNote a = Ok va /\ normalizeNote b = Ok vb
                          /\ _coversNote (Some a) (Some b) = Ok (notevalue_eq va vb))).
Proof.
  intros a b Na Nb.
  assert (U : _coversNote (Some a) (Some b) =
              if streq a (js "*") then Ok (negb (arr b))
              else if streq a (js "[*]") then Ok (arr b)
              else if test_anchored WILDCARD b then Ok false
              else na <- normalizeNote a ;; nb <- normalizeNote b ;;
                   Ok (notevalue_eq na nb)).
  { unfold _coversNote. rewrite (note_shape_truthy Na), (note_shape_truthy Nb).
    reflexivity. }
  rewrite U. clear U.
  destruct (list_eq_cases a (js "*")) as [-> | A1]; [left; auto|].
  destruct (list_eq_cases a (js "[*]")) as [-> | A2]; [right; left; auto|].
  right; right. rewrite (streq_neq A1), (streq_neq A2).
  split; [assumption|]. split; [assumption|].
  destruct (list_eq_cases b (js "*")) as [-> | B1]; [left; auto|].
  destruct (list_eq_cases b (js "[*]")) as [-> | B2]; [left; auto|].
  right. rewrite (wildcard_only B1 B2).
  destruct (note_value Na A1 A2) as [va [Ea _]].
  destruct (note_value Nb B1 B2) as [vb [Eb _]].
  split; [assumption|]. split; [assumption|].
  exists va, vb. rewrite Ea, Eb. auto.
Qed.

Lemma coversNote_refl : forall t, note_shape t -> _coversNote (Some t) (Some t) = Ok true.
Proof.
  intros t N. destruct (coversNote_shapes N N) as [[-> E]|[[-> E]|[A1 [A2 [[[B|B] _]|[_ [_ [va [vb [Ea [Eb E]]]]]]]]]]];
    try contradiction; try exact E.
  destruct (note_value N A1 A2) as [v [Ev [R _]]].
  rewrite E. congruence.
Qed.

Lemma coversNote_total : forall a b,
    note_shape a -> note_shape b -> exists c, _coversNote (Some a) (Some b) = Ok c.
Proof.
  intros a b Na Nb.
  destruct (coversNote_shapes Na Nb) as [[_ E]|[[_ E]|[_ [_ [[_ E]|[_ [_ [va [vb [_ [_ E]]]]]]]]]]];
    eauto.
Qed.

Lemma coversNote_trans : forall a b c,
    note_shape a -> note_shape b -> note_shape c ->
    _coversNote (Some a) (Some b) = Ok true ->
    _coversNote (Some b) (Some c) = Ok true ->
    _coversNote (Some a) (Some c) = Ok true.
Proof.
  intros a b c Na Nb Nc Hab Hbc.
  assert (K : forall x y, note_shape x -> note_shape y -> x <> js "*" -> x <> js "[*]" ->
                          _coversNote (Some x) (Some y) = Ok true ->
                          y <> js "*" /\ y <> js "[*]" /\ arr y = arr x /\
                          exists vx vy, normalizeNote x = Ok vx /\ normalizeNote y = Ok vy
                                        /\ notevalue_eq vx vy = true).
  { intros x y Nx Ny X1 X2 H.
    destruct (coversNote_shapes Nx Ny) as [[-> _]|[[-> _]|[_ [_ [[_ E]|[Y1 [Y2 [vx [vy [Ex [Ey E]]]]]]]]]]];
      try congruence.
    split; [assumption|]. split; [assumption|].
    assert (Q : notevalue_eq vx vy = true) by congruence.
    destruct (note_value Nx X1 X2) as [vx' [Ex' [_ Kx]]].
    destruct (note_value Ny Y1 Y2) as [vy' [Ey' [_ Ky]]].
    assert (vx' = vx) by congruence. assert (vy' = vy) by congruence. subst.
    split; [|eauto]. rewrite <- Kx, <- Ky. symmetry. apply notevalue_eq_kind. assumption. }
  assert (Arr : a <> js "*" -> a <> js "[*]" -> False \/ True) by auto.
  destruct (coversNote_shapes Na Nc) as [[-> Eac]|[[-> Eac]|[A1 [A2 Eac]]]].
  - (* a is the wildcard: b, then c, is no array note *)
    rewrite Eac.
    destruct (coversNote_shapes (shape_any) Nb) as [[_ Eb]|[[D _]|[D _]]]; try discriminate D;
      try congruence.
    assert (Ab : arr b = false) by (rewrite Eb in Hab; inversion Hab; destruct (arr b); auto; discriminate).
    destruct (coversNote_shapes Nb Nc) as [[-> Ebc]|[[-> Ebc]|[B1 [B2 _]]]].
    + rewrite Ebc in Hbc. exact Hbc.
    + discriminate Ab.
    + destruct (K b c Nb Nc B1 B2 Hbc) as [_ [_ [Ac _]]]. rewrite Ac, Ab. reflexivity.
  - rewrite Eac.
    destruct (coversNote_shapes (shape_bracket shape_any_index) Nb) as [[D _]|[[_ Eb]|[_ [D _]]]];
      try discriminate D; try congruence.
    assert (Ab : arr b = true) by congruence.
    destruct (coversNote_shapes Nb Nc) as [[-> Ebc]|[[-> Ebc]|[B1 [B2 _]]]].
    + discriminate Ab.
    + rewrite Ebc in Hbc. exact Hbc.
    + destruct (K b c Nb Nc B1 B2 Hbc) as [_ [_ [Ac _]]]. rewrite Ac, Ab. reflexivity.
  - destruct (K a b Na Nb A1 A2 Hab) as [B1 [B2 [_ [va [vb [Ea [Eb Qab]]]]]]].
    destruct (K b c Nb Nc B1 B2 Hbc) as [C1 [C2 [_ [vb' [vc [Eb' [Ec Qbc]]]]]]].
    assert (vb' = vb) by congruence. subst vb'.
    destruct Eac as [[[D|D] _]|[_ [_ [va' [vc' [Ea' [Ec' E]]]]]]]; try contradiction.
    assert (va' = va) by congruence. assert (vc' = vc) by congruence. subst.
    rewrite E. f_equal. eapply notevalue_eq_trans; eauto.
Qed.

(** *** The loop of [_covers] *)

Lemma covers_loop_true : forall fn A B i,
    covers_loop fn A B i = Ok true <->
    forall j a, nth_error A j = Some a -> fn (Some a) (nth_error B (i + j)) = Ok true.
Proof.
  intros fn A B. induction A as [|a A IH]; intros i; simpl.
  - split; [intros _ [|j] x H; discriminate|reflexivity].
  - split.
    + intros H [|j] x Hj.
      * simpl in Hj. inversion Hj; subst x. rewrite Nat.add_0_r.
        destruct (fn (Some a) (nth_error B i)) as [[|]|]; simpl in H; congruence.
      * simpl in Hj. replace (i + S j) with (S i + j) by lia.
        destruct (fn (Some a) (nth_error B i)) as [[|]|]; simpl in H; try congruence.
        apply (proj1 (IH (S i)) H). exact Hj.
    + intros H. rewrite <- (Nat.add_0_r i), (H 0 a eq_refl). simpl.
      apply IH. intros j x Hj. replace (S (i + 0) + j) with (i + S j) by lia.
      apply H. exact Hj.
Qed.

Lemma nth_error_shape : forall ns j a,
    Forall note_shape ns -> nth_error ns j = Some a -> note_shape a.
Proof.
  intros ns j a F H. apply nth_error_In in H.
  rewrite Forall_forall in F. auto.
Qed.

Lemma covers_loop_refl : forall ns,
    Forall note_shape ns -> covers_loop _coversNote ns ns 0 = Ok true.
Proof.
  intros ns F. apply covers_loop_true. intros j a H. change (0 + j) with j. rewrite H.
  apply coversNote_refl. eapply nth_error_shape; eauto.
Qed.

Lemma coversNote_undefined : forall a, _coversNote a None = Ok false.
Proof. intros [a|]; reflexivity. Qed.

Lemma covers_loop_trans : forall na nb nc,
    Forall note_shape na -> Forall note_shape nb -> Forall note_shape nc ->
    covers_loop _coversNote na nb 0 = Ok true ->
    covers_loop _coversNote nb nc 0 = Ok true ->
    covers_loop _coversNote na nc 0 = Ok true.
Proof.
  intros na nb nc Fa Fb Fc Hab Hbc.
  rewrite covers_loop_true in *. intros j a Ha. change (0 + j) with j.
  pose proof (Hab j a Ha) as H1. change (0 + j) with j in H1.
  destruct (nth_error nb j) as [b|] eqn:Eb;
    [|rewrite coversNote_undefined in H1; discriminate].
  pose proof (Hbc j b Eb) as H2. change (0 + j) with j in H2.
  destruct (nth_error nc j) as [c|] eqn:Ec;
    [|rewrite coversNote_undefined in H2; discriminate].
  apply coversNote_trans with (b := b); auto.
  - apply (@nth_error_shape na j a Fa Ha).
  - apply (@nth_error_shape nb j b Fb Eb).
  - apply (@nth_error_shape nc j c Fc Ec).
Qed.

(** [covers] on two valid globs, in terms of their notes. *)
Lemma covers_valid : forall A B,
    valid A = true -> valid B = true ->
    exists na nb,
      Forall note_shape na /\ Forall note_shape nb
      /\ note_count A = length na /\ note_count B = length nb
      /\ covers A B = if bang A && (length nb <? length na)
                      then Ok false
                      else covers_loop _coversNote na nb 0.
Proof.
  intros A B VA VB.
  destruct (@Glob_new_valid A VA) as [a [na [Ea [Na [_ [Fa Ba]]]]]].
  destruct (@Glob_new_valid B VB) as [b [nb [Eb [Nb [_ [Fb _]]]]]].
  exists na, nb. unfold note_count, covers, _covers, glob_arg, covers_obj, notes_of.
  rewrite Ea, Eb. unfold bind. rewrite Na, Nb, Ba. auto.
Qed.

(** *** The store along a call of [normalize] *)


Lemma readonly_ret : forall (A : Type) (a : A), readonly (ret a).
Proof. intros A a h. reflexivity. Qed.

Lemma readonly_raise : forall (A : Type) e, readonly (@raise A e).
Proof. intros A e h. reflexivity. Qed.

Lemma readonly_lift : forall (A : Type) (r : res A), readonly (lift r).
Proof. intros A r h. reflexivity. Qed.

Lemma readonly_load : forall l, readonly (load l).
Proof. intros l h. reflexivity. Qed.

Lemma readonly_bind : forall (A B : Type) (m : M A) (f : A -> M B),
    readonly m -> (forall a, readonly (f a)) -> readonly (mbind m f).
Proof.
  intros A B m f Hm Hf h. unfold mbind. specialize (Hm h).
  destruct (m h) as [[a|e] h1]; simpl in Hm; subst h1; [apply Hf|reflexivity].
Qed.

Lemma readonly_includes : forall l x, readonly (includes l x).
Proof.
  intros l x. unfold includes. apply readonly_bind; [apply readonly_load|].
  intros a. apply readonly_ret.
Qed.

Ltac readonly_step :=
  match goal with
  | |- readonly (mbind _ _) => apply readonly_bind; [|intros ?]
  | |- readonly (ret _) => apply readonly_ret
  | |- readonly (raise _) => apply readonly_raise
  | |- readonly (lift _) => apply readonly_lift
  | |- readonly (load _) => apply readonly_load
  | |- readonly (includes _ _) => apply readonly_includes
  | |- readonly (if ?c then _ else _) => destruct c
  | |- readonly (match ?c with Some _ => _ | None => _ end) => destruct c
  | |- readonly (let '(_, _) := ?c in _) => destruct c
  | |- readonly (match ?c with (_, _) => _ end) => destruct c
  | |- readonly (match ?c with Next => _ | Stop => _ end) => destruct c
  end.

Lemma readonly_checkAddIntersection : forall r o gA gB w,
    readonly (checkAddIntersection r o gA gB w).
Proof. intros. unfold checkAddIntersection. repeat readonly_step. Qed.

Lemma readonly_inner_step : forall r o a iA iB fw,
    readonly (inner_step r o a iA iB fw).
Proof.
  intros. unfold inner_step.
  repeat first [apply readonly_checkAddIntersection | readonly_step].
Qed.

Lemma readonly_inner_loop : forall r o a iA n fw,
    readonly (inner_loop r o a iA n fw).
Proof.
  intros r o a iA n. induction n as [|n IH]; intros fw; simpl.
  - apply readonly_ret.
  - apply readonly_bind; [apply readonly_inner_step|].
    intros [[|] fw']; [apply IH|apply readonly_ret].
Qed.

Lemma readonly_outer_step : forall r o iA w, readonly (outer_step r o iA w).
Proof.
  intros. unfold outer_step.
  repeat first [apply readonly_inner_loop | readonly_step].
Qed.

Lemma readonly_outer_loop : forall r o n w, readonly (outer_loop r o n w).
Proof.
  intros r o n. induction n as [|n IH]; intros w; simpl.
  - apply readonly_ret.
  - apply readonly_bind; [apply readonly_outer_step|].
    intros [[|] w']; [apply IH|apply readonly_ret].
Qed.

Lemma nth_error_end : forall (A : Type) (h : list A) a, nth_error (h ++ [a]) (length h) = Some a.
Proof. intros. rewrite nth_error_app2, Nat.sub_diag by lia. reflexivity. Qed.

Lemma update_end : forall h a b, update (h ++ [a]) (length h) b = h ++ [b].
Proof. induction h as [|x h IH]; intros a b; simpl; [reflexivity|]. rewrite IH. reflexivity. Qed.

(** Sorting the array that was allocated last. *)
Lemma sort_in_place_end : forall cmp h a,
    exists r a', sort_in_place cmp (length h) (h ++ [a]) = (r, h ++ [a'])
                 /\ (forall x, r = Ok x -> x = length h /\ array_sort cmp a = Ok a').
Proof.
  intros cmp h a. unfold sort_in_place, mbind, load, lift, put, ret.
  rewrite nth_error_end. simpl.
  destruct (array_sort cmp a) as [s|e].
  - rewrite update_end. exists (Ok (length h)), s. split; [reflexivity|].
    intros x H. inversion H. auto.
  - exists (Throw e), a. split; [reflexivity|]. intros x H. discriminate H.
Qed.


Lemma grows_refl : forall h, grows h h.
Proof. intros h. exists []. symmetry. apply app_nil_r. Qed.

Lemma grows_one : forall h a, grows h (h ++ [a]).
Proof. intros h a. exists [a]. reflexivity. Qed.

Lemma grows_trans : forall a b c, grows a b -> grows b c -> grows a c.
Proof. intros a b c [m ->] [m' ->]. exists (m ++ m'). symmetry. apply app_assoc. Qed.

Lemma grows_length : forall h h', grows h h' -> length h <= length h'.
Proof. intros h h' [m ->]. rewrite length_app. lia. Qed.


Lemma grows_alloc : forall h h2 a,
    grows h h2 -> grows h (h2 ++ [a]) /\ length h <= length h2 < length (h2 ++ [a]).
Proof.
  intros h h2 a G. split; [eapply grows_trans; [exact G|apply grows_one]|].
  apply grows_length in G. rewrite length_app. simpl. lia.
Qed.

Lemma prepare_store : forall r l h o,
    nth_error h l = Some o ->
    exists res a', prepare r l h = (res, h ++ [a'])
                   /\ (forall items, res = Ok items ->
                         array_sort (if r then _negFirstSort else _negLastSort) o = Ok a'
                         /\ map_inspect a' = Ok items).
Proof.
  intros r l h o L. unfold prepare, array_concat, mbind, load.
  rewrite L. cbn [not_null]. unfold alloc. rewrite app_nil_r.
  destruct (sort_in_place_end (if r then _negFirstSort else _negLastSort) h o)
    as [rs [a' [Es Hs]]].
  rewrite Es.
  destruct rs as [cp|e].
  - destruct (Hs cp eq_refl) as [-> S].
    rewrite nth_error_end. cbn [not_null]. unfold lift.
    exists (map_inspect a'), a'. split; [reflexivity|]. intros items ->. auto.
  - exists (Throw e), a'. split; [reflexivity|]. intros items H. discriminate H.
Qed.

(** The end of a round of [normalize], once the loops are over. *)
Lemma finish_store : forall again r h h2 w out h',
    (forall l h0 out0 h0', again l h0 = (out0, h0') ->
                           grows h0 h0' /\ new_array h0 h0' out0) ->
    grows h h2 ->
    finish again r w h2 = (out, h') ->
    grows h h' /\ new_array h h' out.
Proof.
  intros again r h h2 w out h' IH G E. unfold finish in E.
  destruct (r && negateAll w).
  - unfold alloc in E. inversion E; subst. apply grows_alloc. exact G.
  - destruct (intersections w) as [|i more].
    + unfold mbind, alloc, Glob_sort in E.
      destruct (sort_in_place_end compare h2 (normalized w)) as [rs [s' [Es Hs]]].
      rewrite Es in E. inversion E; subst.
      destruct (@grows_alloc h h2 s' G) as [G' L]. split; [exact G'|].
      destruct rs as [o|]; [|exact I]. destruct (Hs o eq_refl) as [-> _]. exact L.
    + unfold alloc in E. apply IH in E. destruct E as [G' N].
      destruct (@grows_alloc h h2 (normalized w ++ i :: more) G) as [G3 L].
      split; [eapply grows_trans; eauto|].
      destruct out as [[o|]|]; simpl in *; auto.
      apply grows_length in G'. lia.
Qed.

Lemma normalize_store : forall fuel globList restrictive h out h',
    normalize fuel globList restrictive h = (out, h') ->
    grows h h' /\ new_array h h' out.
Proof.
  induction fuel as [|fuel IH]; intros l r h out h' E.
  - simpl in E. inversion E; subst. split; [apply grows_refl|exact I].
  - cbn [normalize] in E. unfold load at 1 in E.
    destruct (nth_error h l) as [[|x orig]|] eqn:L; cbn [not_null] in E.
    + unfold alloc in E. inversion E; subst. apply grows_alloc. apply grows_refl.
    + destruct (@prepare_store r l h (x :: orig) L) as [res [a' [Ep _]]].
      rewrite Ep in E.
      assert (G2 : grows h (h ++ [a'])) by apply grows_one.
      destruct res as [items|e];
        [|inversion E; subst; split; [exact G2|exact I]].
      destruct items as [|g [|g' items]].
      * match type of E with context [outer_loop r l ?n ?w0 ?h2] =>
          pose proof (readonly_outer_loop r l n w0 h2) as RO;
          destruct (outer_loop r l n w0 h2) as [[w|e] h3] end;
          simpl in RO; subst h3;
          [|inversion E; subst; split; [exact G2|exact I]].
        apply (@finish_store (fun merged => normalize fuel merged r) r h (h ++ [a']) w out h');
          [intros l0 h0 out0 h0' E0; apply (IH l0 r h0 out0 h0' E0)|exact G2|exact E].
      * unfold alloc in E. inversion E; subst. apply grows_alloc. exact G2.
      * match type of E with context [outer_loop r l ?n ?w0 ?h2] =>
          pose proof (readonly_outer_loop r l n w0 h2) as RO;
          destruct (outer_loop r l n w0 h2) as [[w|e] h3] end;
          simpl in RO; subst h3;
          [|inversion E; subst; split; [exact G2|exact I]].
        apply (@finish_store (fun merged => normalize fuel merged r) r h (h ++ [a']) w out h');
          [intros l0 h0 out0 h0' E0; apply (IH l0 r h0 out0 h0' E0)|exact G2|exact E].
    + inversion E; subst. split; [apply grows_refl|exact I].
Qed.

(** *** More rounds than needed change nothing *)

Lemma finish_more : forall (again again' : address -> store -> outcome address * store) r w h x h',
    (forall l h0 x0 h0', again l h0 = (Done x0, h0') -> again' l h0 = (Done x0, h0')) ->
    finish again r w h = (Done x, h') -> finish again' r w h = (Done x, h').
Proof.
  intros again again' r w h x h' H E. unfold finish in *.
  destruct (r && negateAll w); [exact E|].
  destruct (intersections w); [exact E|].
  destruct (alloc (normalized w ++ j :: l) h) as [[merged|e] h1]; [|exact E].
  apply H. exact E.
Qed.

Lemma normalize_more : forall n l r h x h',
    normalize n l r h = (Done x, h') -> normalize (S n) l r h = (Done x, h').
Proof.
  induction n as [|n IH]; intros l r h x h' E; [discriminate E|].
  remember (S n) as m eqn:Em.
  cbn [normalize]. rewrite Em in E at 1. cbn [normalize] in E.
  destruct (load l h) as [[[|g0 orig]|e] h1]; try exact E.
  destruct (prepare r l h1) as [[items|e] h2]; [|exact E].
  destruct items as [|g [|g' items]];
    try exact E;
    (destruct (outer_loop r l _ _ h2) as [[w|e] h3]; [|exact E];
     eapply finish_more; [|exact E]; intros; subst m; apply IH; assumption).
Qed.

Lemma normalize_list_more : forall n L r x,
    normalize_list n L r = Done x -> normalize_list (S n) L r = Done x.
Proof.
  intros n L r x E. unfold normalize_list in *.
  destruct (normalize n 0 r [L]) as [[[out|e]|] h] eqn:N; try discriminate E.
  - rewrite (@normalize_more n 0 r [L] _ _ N). exact E.
  - rewrite (@normalize_more n 0 r [L] _ _ N). exact E.
Qed.

Lemma normalize_list_enough : forall n L r x,
    normalize_list 1 L r = Done x -> normalize_list (S n) L r = Done x.
Proof.
  induction n as [|n IH]; intros L r x E; [exact E|].
  apply normalize_list_more. apply IH. exact E.
Qed.

(** *** The bang of an intersection *)


Lemma joinNotes_no_bang : forall l, Forall unbanged l -> bang (joinNotes l) = false.
Proof.
  induction l as [|cur rest IH]; intros F; [reflexivity|].
  inversion F as [|? ? Hc Hr]; subst. cbn [joinNotes].
  destruct cur as [[|x c]|]; cbn [truthy]; try (apply IH; assumption).
  rewrite <- app_assoc. cbn [app]. specialize (Hc (x :: c) eq_refl). exact Hc.
Qed.

Lemma nth_error_unbanged : forall ns i,
    Forall note_shape ns -> unbanged (nth_error ns i).
Proof.
  intros ns i F t H. apply (@note_shape_no_bang t).
  apply (@nth_error_shape ns i t F H).
Qed.

Lemma intersect_loop_unbanged : forall na nb n i acc out,
    Forall note_shape na -> Forall note_shape nb -> Forall unbanged acc ->
    intersect_loop na nb i n acc = Some out -> Forall unbanged out.
Proof.
  intros na nb. induction n as [|n IH]; intros i acc out Fa Fb F E; cbn [intersect_loop] in E.
  - inversion E; subst. exact F.
  - assert (Pa : Forall unbanged (acc ++ [nth_error na i]))
      by (apply Forall_app; split; [exact F|constructor; [apply nth_error_unbanged; exact Fa|constructor]]).
    assert (Pb : Forall unbanged (acc ++ [nth_error nb i]))
      by (apply Forall_app; split; [exact F|constructor; [apply nth_error_unbanged; exact Fb|constructor]]).
    repeat match type of E with
           | (if ?c then _ else _) = _ => destruct c
           end;
      try discriminate E;
      first [exact (IH _ _ _ Fa Fb Pa E) | exact (IH _ _ _ Fa Fb Pb E)].
Qed.

(** The bang [_intersect] gives its result: in restrictive mode that of
    either glob, in loose mode that of both or of the one with more notes. *)
Lemma intersect_bang : forall A B restrictive s,
    _intersect A B restrictive = Ok (Some s) ->
    exists notesA notesB,
      split A true = Ok (Some notesA) /\ split B true = Ok (Some notesB)
      /\ bang s =
         if restrictive then bang A || bang B
         else (bang A && bang B)
              || ((length notesB <? length notesA)%nat && bang A)
              || ((length notesA <? length notesB)%nat && bang B).
Proof.
  intros A B r s E. unfold _intersect in E.
  destruct (valid A) eqn:VA; [|unfold split in E; rewrite VA in E; discriminate E].
  destruct (valid B) eqn:VB;
    [|unfold split in E at 2; rewrite VB in E;
      destruct (split A true); discriminate E].
  destruct (@split_valid A true VA) as [na [Ea [_ Fa]]].
  destruct (@split_valid B true VB) as [nb [Eb [_ Fb]]].
  rewrite Ea, Eb in E. cbn [bind not_null] in E.
  exists na, nb. split; [exact Ea|]. split; [exact Eb|].
  destruct (intersect_loop na nb 0 (Nat.max (length na) (length nb)) []) as [[|o out]|] eqn:L;
    try discriminate E.
  apply intersect_loop_unbanged in L; [|assumption|assumption|constructor].
  apply joinNotes_no_bang in L.
  inversion E as [E']. clear E E'.
  match goal with
  | |- bang ((if ?c then _ else _) ++ _) = ?d =>
      assert (C : c = d); [|rewrite C; destruct d; [reflexivity|exact L]]
  end.
  destruct r; [reflexivity|].
  destruct (bang A), (bang B); simpl; rewrite ?andb_false_r, ?andb_true_r, ?orb_false_r;
    reflexivity.
Qed.

(** *** Wildcards outside quotes *)

Lemma test_search_iff : forall r s,
    test_search r s = true <-> exists p s1, s = p ++ s1 /\ test_anchored r s1 = true.
Proof.
  intros r. induction s as [|c s IH]; cbn [test_search].
  - rewrite orb_false_r. split.
    + intros H. exists [], []. auto.
    + intros [p [s1 [E H]]]. symmetry in E. apply app_eq_nil in E.
      destruct E as [_ ->]. exact H.
  - rewrite orb_true_iff, IH. split.
    + intros [H|[p [s1 [-> H]]]].
      * exists [], (c :: s). auto.
      * exists (c :: p), s1. auto.
    + intros [[|x p] [s1 [E H]]].
      * left. simpl in E. subst. exact H.
      * right. inversion E; subst. eauto.
Qed.


Lemma matches_quote_step : forall q s s',
    matches (quote_step q) s s' <-> exists t, s = t ++ s' /\ quote_unit q t.
Proof.
  intros q s s'. unfold quote_step.
  change (matches (Alt (Chr (not_char q)) (Seq (chr q) (Seq (Star (Chr (not_char q))) (chr q)))) s s')
    with ((exists c, s = c :: s' /\ not_char q c = true)
          \/ (exists m, matches (chr q) s m /\
              exists m', iter (matches (Chr (not_char q))) m m' /\ matches (chr q) m' s')).
  split.
  - intros [[c [-> C]]|[m [M1 [m' [I M2]]]]].
    + exists [c]. split; [reflexivity|]. left. exists c. auto.
    + apply matches_chr in M1, M2. subst. apply iter_chr in I. destruct I as [l [-> F]].
      exists (q :: l ++ [q]). split; [simpl; rewrite <- app_assoc; reflexivity|].
      right. exists l. auto.
  - intros [t [-> [[c [-> C]]|[body [-> F]]]]].
    + left. exists c. auto.
    + right. exists (body ++ q :: s'). split.
      * apply matches_chr. simpl. rewrite <- app_assoc. reflexivity.
      * exists (q :: s'). split; [apply iter_chr; eauto|apply matches_chr; reflexivity].
Qed.

Lemma occurrences_app : forall q a b,
    occurrences q (a ++ b) = occurrences q a + occurrences q b.
Proof. intros. unfold occurrences. rewrite filter_app, length_app. reflexivity. Qed.

Lemma occurrences_none : forall q l, all_of (not_char q) l -> occurrences q l = 0.
Proof.
  intros q l F. unfold occurrences. induction F as [|c l C _ IH]; [reflexivity|].
  simpl. unfold not_char, is_char in *. destruct (Ascii.eqb c q); [discriminate|exact IH].
Qed.

Lemma occurrences_self : forall q, occurrences q [q] = 1.
Proof. intros q. unfold occurrences, is_char. simpl. rewrite Ascii.eqb_refl. reflexivity. Qed.

Lemma occurrences_cons : forall q c l,
    occurrences q (c :: l) = (if is_char q c then 1 else 0) + occurrences q l.
Proof. intros. unfold occurrences. simpl. destruct (is_char q c); reflexivity. Qed.

Lemma quote_unit_even : forall q t, quote_unit q t -> Nat.even (occurrences q t) = true.
Proof.
  intros q t [[c [-> C]]|[body [-> F]]].
  - rewrite occurrences_cons. unfold not_char, is_char in *.
    destruct (Ascii.eqb c q); [discriminate|reflexivity].
  - change (q :: body ++ [q]) with ([q] ++ body ++ [q]).
    rewrite !occurrences_app, occurrences_self, (@occurrences_none q body F). reflexivity.
Qed.

Lemma even_add : forall a b,
    Nat.even a = true -> Nat.even (a + b) = Nat.even b.
Proof. intros a b H. rewrite Nat.even_add, H. destruct (Nat.even b); reflexivity. Qed.

Lemma units_even : forall q ts,
    Forall (quote_unit q) ts -> Nat.even (occurrences q (concat ts)) = true.
Proof.
  intros q ts F. induction F as [|t ts T _ IH]; [reflexivity|].
  simpl. rewrite occurrences_app, (@even_add _ _ (@quote_unit_even q t T)). exact IH.
Qed.

(** A string with a quote: what comes before the first one has none. *)
Lemma first_quote : forall q l,
    occurrences q l <> 0 ->
    exists body rest, l = body ++ q :: rest /\ all_of (not_char q) body.
Proof.
  intros q. induction l as [|c l IH]; intros H; [exfalso; apply H; reflexivity|].
  rewrite occurrences_cons in H. destruct (is_char q c) eqn:C.
  - unfold is_char in C. apply Ascii.eqb_eq in C. subst c.
    exists [], l. split; [reflexivity|constructor].
  - destruct (IH H) as [body [rest [-> F]]].
    exists (c :: body), rest. split; [reflexivity|].
    constructor; [|exact F]. unfold not_char, is_char in *. rewrite C. reflexivity.
Qed.

Lemma even_units : forall q n l,
    length l <= n -> Nat.even (occurrences q l) = true ->
    exists ts, l = concat ts /\ Forall (quote_unit q) ts.
Proof.
  intros q. induction n as [|n IH]; intros l L E.
  - destruct l; [|simpl in L; lia]. exists []. split; [reflexivity|constructor].
  - destruct l as [|c l]; [exists []; split; [reflexivity|constructor]|].
    rewrite occurrences_cons in E. destruct (is_char q c) eqn:C.
    + unfold is_char in C. apply Ascii.eqb_eq in C. subst c.
      assert (O : occurrences q l <> 0).
      { intros Z. rewrite Z in E. discriminate E. }
      destruct (@first_quote q l O) as [body [rest [-> F]]].
      rewrite occurrences_app, (@occurrences_none q body F), occurrences_cons in E.
      unfold is_char at 1 in E. rewrite Ascii.eqb_refl in E.
      assert (E' : Nat.even (occurrences q rest) = true).
      { change (1 + (0 + (1 + occurrences q rest))) with (S (S (occurrences q rest))) in E.
        exact E. }
      destruct (IH rest) as [ts [-> T]]; [|exact E'|].
      { simpl in L. rewrite length_app in L. simpl in L. lia. }
      exists ((q :: body ++ [q]) :: ts). split.
      * simpl. rewrite <- app_assoc. reflexivity.
      * constructor; [|exact T]. right. exists body. auto.
    + destruct (IH l) as [ts [-> T]]; [simpl in L; lia|exact E|].
      exists ([c] :: ts). split; [reflexivity|].
      constructor; [|exact T]. left. exists c. split; [reflexivity|].
      unfold not_char, is_char in *. rewrite C. reflexivity.
Qed.

Lemma matches_outside : forall q m m',
    matches (outside q) m m' <-> m' = m /\ Nat.even (occurrences q m) = true.
Proof.
  intros q m m'. unfold outside.
  change (matches (Ahead (Seq (Star (quote_step q)) Eos)) m m')
    with (m' = m /\ exists x : jsstring, exists y, iter (matches (quote_step q)) m y /\ (y = [] /\ x = [])).
  split.
  - intros [-> [x [y [I [-> _]]]]]. split; [reflexivity|].
    apply (@iter_words _ _ (matches_quote_step q)) in I. destruct I as [ts [-> F]].
    rewrite app_nil_r. apply units_even. exact F.
  - intros [-> E]. split; [reflexivity|]. exists [], []. split; [|split; reflexivity].
    apply (@iter_words _ _ (matches_quote_step q)).
    destruct (@even_units q (length m) m (le_n _) E) as [ts [-> F]].
    exists ts. rewrite app_nil_r. split; [reflexivity|exact F].
Qed.

Lemma WILDCARDS_at : forall s,
    test_anchored WILDCARDS s = true <->
    exists m, (s = "*"%char :: m \/ s = js "[*]" ++ m)
              /\ Nat.even (occurrences DQ m) = true
              /\ Nat.even (occurrences "'" m) = true.
Proof.
  intros s. rewrite test_anchored_iff. unfold WILDCARDS.
  split.
  - intros [s' M].
    change (exists m, (matches (chr "*") s m \/ matches (lit_ (js "[*]")) s m)
                      /\ exists m', matches (outside DQ) m m' /\ matches (outside "'") m' s') in M.
    destruct M as [m [H [m' [O1 O2]]]].
    apply matches_outside in O1. destruct O1 as [-> E1].
    apply matches_outside in O2. destruct O2 as [_ E2].
    exists m. split; [|auto].
    destruct H as [H|H]; [left; apply matches_chr in H|right; apply matches_lit_ in H]; exact H.
  - intros [m [H [E1 E2]]]. exists m.
    change (exists m0, (matches (chr "*") s m0 \/ matches (lit_ (js "[*]")) s m0)
                       /\ exists m', matches (outside DQ) m0 m' /\ matches (outside "'") m' m).
    exists m. split.
    + destruct H as [H|H]; [left; apply matches_chr|right; apply matches_lit_]; exact H.
    + exists m. split; apply matches_outside; auto.
Qed.

(** [WILDCARDS.test(s)]: a star with the quotes after it in pairs. *)
Lemma WILDCARDS_test : forall s,
    test_search WILDCARDS s = true <->
    exists p q, s = p ++ "*"%char :: q
                /\ Nat.even (occurrences DQ q) = true
                /\ Nat.even (occurrences "'" q) = true.
Proof.
  intros s. rewrite test_search_iff. split.
  - intros [p [s1 [-> H]]]. apply WILDCARDS_at in H. destruct H as [m [[-> | ->] [E1 E2]]].
    + exists p, m. auto.
    + exists (p ++ js "["), ("]"%char :: m). split; [rewrite <- app_assoc; reflexivity|].
      rewrite !occurrences_cons. auto.
  - intros [p [q [-> [E1 E2]]]]. exists p, ("*"%char :: q). split; [reflexivity|].
    apply WILDCARDS_at. exists q. auto.
Qed.

(** *** Mixed roots *)


Lemma covers_loop_total : forall A B i,
    Forall note_shape A -> Forall note_shape B ->
    exists c, covers_loop _coversNote A B i = Ok c.
Proof.
  induction A as [|a A IH]; intros B i FA FB; cbn [covers_loop]; [eauto|].
  inversion FA as [|? ? Ha FA']; subst.
  assert (T : exists c, _coversNote (Some a) (nth_error B i) = Ok c).
  { destruct (nth_error B i) as [b|] eqn:E.
    - apply coversNote_total; [exact Ha|]. apply (@nth_error_shape B i b FB E).
    - rewrite coversNote_undefined. eauto. }
  destruct T as [c T]. rewrite T. cbn [bind].
  destruct c; [apply IH; assumption|eauto].
Qed.

Lemma covers_obj_total : forall r a b,
    good r a -> good r b -> exists c, covers_obj a b false = Ok c.
Proof.
  intros r a b [Ga [Na _]] [Gb [Nb _]]. unfold covers_obj.
  destruct (@notes_of_body a Ga Na) as [na [Ea [_ Fa]]].
  destruct (@notes_of_body b Gb Nb) as [nb [Eb [_ Fb]]].
  rewrite Ea, Eb. cbn [bind].
  destruct (negb false && isNegated a && (length nb <? length na)); [eauto|].
  apply covers_loop_total; assumption.
Qed.

Lemma intersect_total : forall A B r,
    valid A = true -> valid B = true -> exists o, _intersect A B r = Ok o.
Proof.
  intros A B r VA VB. unfold _intersect.
  destruct (@split_valid A true VA) as [na [Ea _]].
  destruct (@split_valid B true VB) as [nb [Eb _]].
  rewrite Ea, Eb. cbn [bind not_null].
  destruct (intersect_loop na nb 0 _ []) as [[|x l]|]; eauto.
Qed.

Lemma checkAdd_total : forall r orig gA gB w h,
    valid gA = true -> valid gB = true -> loaded h orig ->
    exists w', checkAddIntersection r orig gA gB w h = (Ok w', h)
               /\ list_ w' = list_ w.
Proof.
  intros r orig gA gB w h VA VB [a L]. unfold checkAddIntersection.
  destruct (@intersect_total gA gB r VA VB) as [o E]. rewrite E.
  unfold mbind at 1, lift.
  destruct (negb (truthy o)); [exists w; split; reflexivity|].
  destruct o as [i|]; [|exists w; split; reflexivity].
  destruct r.
  - eexists. split; reflexivity.
  - cbv beta iota delta [mbind includes load ret]. rewrite L. cbn [not_null orb].
    destruct (existsb (streq (_invert i)) a); eexists; split; reflexivity.
Qed.

Lemma inner_step_throws : forall r orig a iA iB f w h b,
    nth_error (list_ w) iB = Some b -> iA <> iB ->
    isArrayGlob a <> isArrayGlob b ->
    inner_step r orig a iA iB (f, w) h = (Throw IntegrityFailed, h).
Proof.
  intros r orig a iA iB f w h b Hb Hi Hr. unfold inner_step.
  rewrite Hb. cbv beta iota delta [mbind lift not_null].
  apply Nat.eqb_neq in Hi. rewrite Hi.
  destruct (Bool.eqb (isArrayGlob a) (isArrayGlob b)) eqn:E.
  - apply eqb_prop in E. contradiction.
  - reflexivity.
Qed.

Ltac step_done :=
  right; do 3 eexists; split; [reflexivity|];
  split; [intros _; first [reflexivity | assumption]
         |left; first [reflexivity | assumption]].

Lemma inner_step_spec : forall r orig a iA iB f w h b,
    good r a -> good r b -> nth_error (list_ w) iB = Some b -> loaded h orig ->
    inner_step r orig a iA iB (f, w) h = (Throw IntegrityFailed, h)
    \/ exists c f' w',
        inner_step r orig a iA iB (f, w) h = (Ok (c, (f', w')), h)
        /\ (c = Next -> list_ w' = list_ w)
        /\ kept_or_spliced a iA (list_ w) (list_ w').
Proof.
  intros r orig a iA iB f w h b Ga Gb Hb Hl. unfold inner_step.
  rewrite Hb. cbv beta iota delta [mbind lift not_null ret raise].
  destruct (iA =? iB) eqn:Ei; [step_done|].
  destruct (negb (Bool.eqb (isArrayGlob a) (isArrayGlob b))); [left; reflexivity|].
  destruct (streq (glob a) (glob b)) eqn:D.
  { right. do 3 eexists. split; [reflexivity|]. split; [intros X; discriminate X|].
    right. split; [reflexivity|]. exists iB, b. apply Nat.eqb_neq in Ei.
    apply streq_eq in D. auto. }
  destruct (negb (isNegated a) && _isReverseOf a b); [step_done|].
  destruct (is_ignored (ignored w) (glob b)); [step_done|].
  destruct (@covers_obj_total r a b Ga Gb) as [c1 E1].
  destruct (@covers_obj_total r b a Gb Ga) as [c2 E2].
  destruct Ga as [_ [_ [Va _]]]. destruct Gb as [_ [_ [Vb _]]].
  destruct (@checkAdd_total r orig (glob a) (glob b) w h Va Vb Hl) as [w' [Ec Lw]].
  rewrite E1. destruct c1; rewrite ?E2;
    repeat match goal with
           | |- context [if ?c then _ else _] => destruct c
           end;
    rewrite ?Ec; step_done.
Qed.

Lemma nth_error_good : forall r l i o,
    Forall (good r) l -> nth_error l i = Some o -> good r o.
Proof.
  intros r l i o F H. apply nth_error_In in H. rewrite Forall_forall in F. auto.
Qed.

Lemma inner_loop_spec : forall r orig a iA h,
    good r a -> loaded h orig ->
    forall n f w,
      Forall (good r) (list_ w) -> n <= length (list_ w) ->
      inner_loop r orig a iA n (f, w) h = (Throw IntegrityFailed, h)
      \/ exists f' w',
          inner_loop r orig a iA n (f, w) h = (Ok (f', w'), h)
          /\ kept_or_spliced a iA (list_ w) (list_ w').
Proof.
  intros r orig a iA h Ga Hl. induction n as [|n IH]; intros f w F L.
  - right. exists f, w. split; [reflexivity|left; reflexivity].
  - cbn [inner_loop]. unfold mbind.
    destruct (nth_error (list_ w) n) as [b|] eqn:Hb;
      [|apply nth_error_None in Hb; lia].
    pose proof (@nth_error_good r (list_ w) n b F Hb) as Gb.
    destruct (@inner_step_spec r orig a iA n f w h b Ga Gb Hb Hl)
      as [E|[c [f' [w' [E [Hn K]]]]]]; rewrite E; [left; reflexivity|].
    destruct c.
    + specialize (Hn eq_refl).
      destruct (IH f' w') as [E'|[f'' [w'' [E' K']]]].
      * rewrite Hn. exact F.
      * rewrite Hn. lia.
      * left. exact E'.
      * right. exists f'', w''. split; [exact E'|]. rewrite <- Hn. exact K'.
    + right. exists f', w'. split; [reflexivity|exact K].
Qed.

Lemma inner_loop_throws : forall r orig a iA k f w h b,
    nth_error (list_ w) k = Some b -> iA <> k ->
    isArrayGlob a <> isArrayGlob b ->
    inner_loop r orig a iA (S k) (f, w) h = (Throw IntegrityFailed, h).
Proof.
  intros r orig a iA k f w h b Hb Hi Hr. cbn [inner_loop]. unfold mbind at 1.
  rewrite (@inner_step_throws r orig a iA k f w h b Hb Hi Hr). reflexivity.
Qed.

(** *** Removing one item *)

Lemma splice1_length : forall (A : Type) (l : list A) i,
    i < length l -> length (splice1 l i) = length l - 1.
Proof.
  intros A l i H. unfold splice1.
  rewrite length_app, length_firstn, length_skipn. lia.
Qed.

Lemma splice1_nth : forall (A : Type) (l : list A) i j,
    i < length l ->
    nth_error (splice1 l i) j = if j <? i then nth_error l j else nth_error l (S j).
Proof.
  intros A l i j H. unfold splice1.
  destruct (j <? i) eqn:E.
  - apply Nat.ltb_lt in E. rewrite nth_error_app1 by (rewrite length_firstn; lia).
    rewrite nth_error_firstn. apply Nat.ltb_lt in E. rewrite E. reflexivity.
  - apply Nat.ltb_ge in E. rewrite nth_error_app2 by (rewrite length_firstn; lia).
    rewrite length_firstn, nth_error_skipn. f_equal. lia.
Qed.

Lemma splice1_In : forall (A : Type) (l : list A) i x, In x (splice1 l i) -> In x l.
Proof.
  intros A l i x H. unfold splice1 in H. apply in_app_or in H.
  destruct H as [H|H].
  - rewrite <- (firstn_skipn i l). apply in_or_app. auto.
  - rewrite <- (firstn_skipn (S i) l). apply in_or_app. auto.
Qed.

Lemma good_same_root : forall r a b,
    good r a -> good r b -> glob b = glob a -> isArrayGlob b = isArrayGlob a.
Proof.
  intros r a b [_ [_ [_ [Ra _]]]] [_ [_ [_ [Rb _]]]] E. rewrite Ra, Rb, E. reflexivity.
Qed.

Lemma splice1_keeps : forall (A : Type) (l : list A) i j z,
    i < length l -> nth_error l j = Some z -> j <> i -> In z (splice1 l i).
Proof.
  intros A l i j z Hi Hj Hne.
  destruct (j <? i) eqn:E.
  - apply nth_error_In with (n := j). rewrite splice1_nth, E by assumption. exact Hj.
  - apply Nat.ltb_ge in E. apply nth_error_In with (n := j - 1).
    rewrite splice1_nth by assumption.
    assert (X : (j - 1 <? i) = false) by (apply Nat.ltb_ge; lia). rewrite X.
    replace (S (j - 1)) with j by lia. exact Hj.
Qed.

Lemma mixed_splice : forall r l i a k b,
    Forall (good r) l -> mixed l ->
    nth_error l i = Some a -> k <> i -> nth_error l k = Some b -> glob b = glob a ->
    mixed (splice1 l i).
Proof.
  intros r l i a k b F [x [y [Hx [Hy Hxy]]]] Ha Hk Hb E.
  assert (Hi : i < length l) by (apply nth_error_Some; congruence).
  assert (R : isArrayGlob b = isArrayGlob a).
  { apply good_same_root with (r := r); [| |exact E].
    - apply (@nth_error_good r l i a F Ha).
    - apply (@nth_error_good r l k b F Hb). }
  assert (K : forall z, In z l ->
                        exists z', In z' (splice1 l i) /\ isArrayGlob z' = isArrayGlob z).
  { intros z Hz. apply In_nth_error in Hz. destruct Hz as [j Hj].
    destruct (Nat.eq_dec j i) as [-> | Hne].
    - assert (z = a) by congruence. subst z. exists b. split; [|exact R].
      apply (@splice1_keeps _ l i k b Hi Hb Hk).
    - exists z. split; [|reflexivity]. apply (@splice1_keeps _ l i j z Hi Hj Hne). }
  destruct (K x Hx) as [x' [Hx' Rx]]. destruct (K y Hy) as [y' [Hy' Ry]].
  exists x', y'. split; [exact Hx'|]. split; [exact Hy'|]. congruence.
Qed.

Lemma outer_step_throws : forall r orig i w h a k b,
    good r a -> nth_error (list_ w) i = Some a ->
    S k = length (list_ w) -> nth_error (list_ w) k = Some b -> i <> k ->
    isArrayGlob a <> isArrayGlob b ->
    outer_step r orig i w h = (Throw IntegrityFailed, h).
Proof.
  intros r orig i w h a k b Ga Ha Hk Hb Hi Hr. unfold outer_step.
  rewrite Ha. cbv beta iota delta [mbind lift not_null ret].
  destruct Ga as [_ [_ [_ [_ Na]]]].
  destruct (test_anchored NEGATE_ALL (glob a)) eqn:T.
  - destruct r; [discriminate (Na eq_refl)|].
    cbn [andb list_ with_negateAll]. rewrite <- Hk.
    rewrite (@inner_loop_throws false orig a i k no_flags (with_negateAll w) h b Hb Hi Hr).
    reflexivity.
  - cbn [andb]. rewrite <- Hk.
    rewrite (@inner_loop_throws r orig a i k no_flags w h b Hb Hi Hr). reflexivity.
Qed.

Lemma outer_step_spec : forall r orig i w h a,
    good r a -> Forall (good r) (list_ w) -> nth_error (list_ w) i = Some a ->
    loaded h orig ->
    outer_step r orig i w h = (Throw IntegrityFailed, h)
    \/ exists w', outer_step r orig i w h = (Ok (Next, w'), h)
                  /\ kept_or_spliced a i (list_ w) (list_ w').
Proof.
  intros r orig i w h a Ga F Ha Hl. unfold outer_step.
  rewrite Ha. cbv beta iota delta [mbind lift not_null ret].
  pose proof Ga as [_ [_ [_ [_ Na]]]].
  set (w1 := if test_anchored NEGATE_ALL (glob a) then with_negateAll w else w).
  assert (L1 : list_ w1 = list_ w)
    by (unfold w1; destruct (test_anchored NEGATE_ALL (glob a)); reflexivity).
  assert (S1 : test_anchored NEGATE_ALL (glob a) && r = false).
  { destruct r; [rewrite (Na eq_refl); reflexivity|apply andb_false_r]. }
  rewrite S1.
  destruct (@inner_loop_spec r orig a i h Ga Hl (length (list_ w1)) no_flags w1)
    as [E|[f' [w' [E K]]]].
  - rewrite L1. exact F.
  - apply le_n.
  - left. rewrite E. reflexivity.
  - right. rewrite E. rewrite L1 in K.
    match goal with
    | |- context [if ?c then _ else _] => destruct c
    end; eexists; (split; [reflexivity|exact K]).
Qed.

(** The outer loop over a list with mixed roots ends in the integrity
    error: the items already visited agree on the root, so the loop cannot
    come to its end. *)
Lemma outer_loop_throws : forall r orig h,
    loaded h orig ->
    forall n w,
      n <= length (list_ w) -> Forall (good r) (list_ w) -> mixed (list_ w) ->
      (exists root, forall j o, n <= j -> nth_error (list_ w) j = Some o ->
                                isArrayGlob o = root) ->
      outer_loop r orig n w h = (Throw IntegrityFailed, h).
Proof.
  intros r orig h Hl. induction n as [|i IH]; intros w L F M [root R].
  - exfalso. destruct M as [x [y [Hx [Hy Hxy]]]].
    apply In_nth_error in Hx, Hy. destruct Hx as [jx Hx]. destruct Hy as [jy Hy].
    apply Hxy. rewrite (R jx x (Nat.le_0_l _) Hx), (R jy y (Nat.le_0_l _) Hy).
    reflexivity.
  - cbn [outer_loop]. unfold mbind.
    destruct (nth_error (list_ w) i) as [a|] eqn:Ha;
      [|apply nth_error_None in Ha; lia].
    pose proof (@nth_error_good r (list_ w) i a F Ha) as Ga.
    (* does the last item of the list disagree with [a]? *)
    destruct (length (list_ w)) as [|k] eqn:Len; [lia|].
    destruct (nth_error (list_ w) k) as [b|] eqn:Hb;
      [|apply nth_error_None in Hb; lia].
    destruct (Nat.eq_dec i k) as [Eik|Nik];
      [|destruct (bool_dec (isArrayGlob a) (isArrayGlob b)) as [Eab|Nab]].
    + (* [a] is the last item: nothing was visited yet *)
      subst k.
      destruct (@outer_step_spec r orig i w h a Ga F Ha Hl) as [E|[w' [E K]]];
        rewrite E; [reflexivity|].
      apply IH.
      * destruct K as [-> |[-> _]]; [lia|]. rewrite splice1_length; lia.
      * destruct K as [-> |[-> _]]; [exact F|].
        apply Forall_forall. intros x Hx. apply splice1_In in Hx.
        rewrite Forall_forall in F. auto.
      * destruct K as [-> |[-> [k' [b' [Hk' [Hb' Eg]]]]]]; [exact M|].
        apply (@mixed_splice r (list_ w) i a k' b' F M Ha Hk' Hb' Eg).
      * exists (isArrayGlob a). intros j o Hj Ho.
        destruct K as [Kl|[Kl _]]; rewrite Kl in Ho.
        -- assert (j = i) by (assert (j < length (list_ w)) by (apply nth_error_Some; congruence); lia).
           subst j. congruence.
        -- rewrite splice1_nth in Ho by lia.
           assert (X : (j <? i) = false) by (apply Nat.ltb_ge; lia). rewrite X in Ho.
           assert (S j < length (list_ w)) by (apply nth_error_Some; congruence). lia.
    + (* the visited items agree with [a] *)
      assert (Rb : isArrayGlob b = root).
      { apply (R k b); [|exact Hb]. lia. }
      destruct (@outer_step_spec r orig i w h a Ga F Ha Hl) as [E|[w' [E K]]];
        rewrite E; [reflexivity|].
      apply IH.
      * destruct K as [-> |[-> _]]; [lia|]. rewrite splice1_length; lia.
      * destruct K as [-> |[-> _]]; [exact F|].
        apply Forall_forall. intros x Hx. apply splice1_In in Hx.
        rewrite Forall_forall in F. auto.
      * destruct K as [-> |[-> [k' [b' [Hk' [Hb' Eg]]]]]]; [exact M|].
        apply (@mixed_splice r (list_ w) i a k' b' F M Ha Hk' Hb' Eg).
      * exists root. intros j o Hj Ho.
        destruct K as [Kl|[Kl _]]; rewrite Kl in Ho.
        -- destruct (Nat.eq_dec j i) as [-> |Hji]; [congruence|].
           apply (R j o); [lia|exact Ho].
        -- rewrite splice1_nth in Ho by lia.
           assert (X : (j <? i) = false) by (apply Nat.ltb_ge; lia). rewrite X in Ho.
           apply (R (S j) o); [lia|exact Ho].
    + (* the last item disagrees with [a] *)
      rewrite (@outer_step_throws r orig i w h a k b Ga Ha (eq_sym Len) Hb Nik Nab).
      reflexivity.
Qed.

(** *** The sort returns a permutation *)

Section SortPermutation.
Variable T : Type.
Variable comparefn : T -> T -> res Z.
Hypothesis total : forall x y, exists z, comparefn x y = Ok z.

Lemma sort_insert_perm : forall x l,
    exists s, sort_insert comparefn x l = Ok s /\ Permutation (x :: l) s.
Proof.
  intros x. induction l as [|y l [s [E P]]]; cbn [sort_insert].
  - exists [x]. split; [reflexivity|apply Permutation_refl].
  - destruct (total x y) as [z Ez]. rewrite Ez. cbn [bind].
    destruct (z <? 0)%Z.
    + eexists. split; [reflexivity|apply Permutation_refl].
    + rewrite E. cbn [bind]. eexists. split; [reflexivity|].
      eapply Permutation_trans; [apply perm_swap|]. apply perm_skip. exact P.
Qed.

Lemma sort_into_perm : forall l sorted,
    exists s, sort_into comparefn sorted l = Ok s /\ Permutation (sorted ++ l) s.
Proof.
  induction l as [|x l IH]; intros sorted; cbn [sort_into].
  - exists sorted. split; [reflexivity|]. rewrite app_nil_r. apply Permutation_refl.
  - destruct (sort_insert_perm x sorted) as [s1 [E1 P1]]. rewrite E1. cbn [bind].
    destruct (IH s1) as [s [E P]]. exists s. split; [exact E|].
    eapply Permutation_trans; [|exact P].
    eapply Permutation_trans; [apply Permutation_sym; apply Permutation_middle|].
    change (x :: sorted ++ l) with ((x :: sorted) ++ l).
    apply Permutation_app_tail. exact P1.
Qed.

Lemma array_sort_perm : forall l,
    exists s, array_sort comparefn l = Ok s /\ Permutation l s.
Proof. intros l. apply (sort_into_perm l (@nil T)). Qed.
End SortPermutation.

Lemma pre_sort_total : forall (r : bool) x y,
    exists z, (if r then _negFirstSort else _negLastSort) x y = Ok z.
Proof.
  intros r x y. destruct r; unfold _negFirstSort, _negLastSort;
    repeat match goal with |- context [if ?c then _ else _] => destruct c end; eauto.
Qed.

Lemma sort_in_place_ok : forall cmp h a s,
    array_sort cmp a = Ok s ->
    sort_in_place cmp (length h) (h ++ [a]) = (Ok (length h), h ++ [s]).
Proof.
  intros cmp h a s E. unfold sort_in_place, mbind, load, lift, put, ret.
  rewrite nth_error_end. cbn [not_null]. rewrite E, update_end. reflexivity.
Qed.

Lemma prepare_ok : forall (r : bool) l h o a' items,
    nth_error h l = Some o ->
    array_sort (if r then _negFirstSort else _negLastSort) o = Ok a' ->
    map_inspect a' = Ok items ->
    prepare r l h = (Ok items, h ++ [a']).
Proof.
  intros r l h o a' items L S I. unfold prepare, array_concat, mbind, load.
  rewrite L. cbn [not_null]. unfold alloc. rewrite app_nil_r.
  rewrite (@sort_in_place_ok _ h o a' S), nth_error_end. cbn [not_null].
  unfold lift. rewrite I. reflexivity.
Qed.

Lemma NEGATE_ALL_only : forall s,
    test_anchored NEGATE_ALL s = true -> s = js "!*" \/ s = js "![*]".
Proof.
  intros s H. apply test_anchored_iff in H. destruct H as [s' M].
  unfold NEGATE_ALL in M.
  change (exists m, matches (chr "!") s m /\
          exists m', (matches (chr "*") m m' \/ matches (lit_ (js "[*]")) m m')
                     /\ (m' = [] /\ s' = [])) in M.
  destruct M as [m [M1 [m' [[M2|M2] [-> _]]]]]; apply matches_chr in M1.
  - apply matches_chr in M2. subst. left; reflexivity.
  - apply matches_lit_ in M2. subst. right; reflexivity.
Qed.

(** The inspection of a valid glob. *)
Lemma inspect_good : forall r g,
    valid g = true ->
    (r = true -> g <> js "!*" /\ g <> js "![*]") ->
    exists o, _inspect g = Ok o /\ good r o /\ isArrayGlob o = array_root g.
Proof.
  intros r g V N.
  destruct (@inspect_valid g V) as [o [E [_ [No [G [Vo [Bo [Eg Ea]]]]]]]].
  exists o. split; [exact E|]. split; [|unfold array_root; rewrite E; reflexivity].
  assert (Ro : isArrayGlob o = test_anchored ARRAY_ROOT (absGlob o)).
  { unfold _inspect in E. rewrite (@valid_trim g V), V in E. cbn [negb] in E.
    inversion E. reflexivity. }
  split; [exact G|]. split; [exact No|]. split; [exact Vo|]. split.
  - rewrite Ro, Bo, Ea, Eg. destruct (bang g); reflexivity.
  - intros Hr. destruct (test_anchored NEGATE_ALL (glob o)) eqn:T; [|reflexivity].
    apply NEGATE_ALL_only in T. exfalso.
    destruct (bang g) eqn:B.
    + rewrite Eg in T. destruct (N Hr) as [N1 N2]. destruct T; contradiction.
    + destruct T as [T|T]; rewrite T in Bo; discriminate Bo.
Qed.

Lemma map_inspect_good : forall r l,
    Forall (fun g => valid g = true) l ->
    (r = true -> ~ In (js "!*") l /\ ~ In (js "![*]") l) ->
    exists items, map_inspect l = Ok items /\ Forall (good r) items
                  /\ forall g, In g l ->
                               exists o, In o items /\ isArrayGlob o = array_root g.
Proof.
  intros r. induction l as [|g l IH]; intros F N.
  - exists []. split; [reflexivity|]. split; [constructor|]. intros g [].
  - inversion F as [|? ? V F']; subst.
    destruct (@inspect_good r g V) as [o [E [G R]]].
    { intros Hr. destruct (N Hr) as [N1 N2].
      split; intros ->; [apply N1|apply N2]; left; reflexivity. }
    destruct (IH F') as [items [Ei [Gi Ri]]].
    { intros Hr. destruct (N Hr) as [N1 N2].
      split; intros H; [apply N1|apply N2]; right; exact H. }
    cbn [map_inspect]. rewrite E, Ei. cbn [bind].
    exists (o :: items). split; [reflexivity|]. split; [constructor; assumption|].
    intros g' [-> |H].
    + exists o. split; [left; reflexivity|exact R].
    + destruct (Ri g' H) as [o' [Ho' Ro']]. exists o'. split; [right; exact Ho'|exact Ro'].
Qed.

(* ================================================================== *)
(** * The claims *)

(** C10: for every value [g] that is not a string (a number, null,
    undefined, an array, an object), [Glob.isValid(g)] returns false and
    raises no error. *)
Theorem isValid_non_string : forall g,
    (forall s, g <> JString s) -> isValid g = Ok false.
Proof.
  intros g H. destruct g; try reflexivity.
  exfalso. apply (H s). reflexivity.
Qed.

Lemma isValid_non_string_witness :
  (forall s, JArray [JNull; JNumber (Num 3)] <> JString s)
  /\ isValid (JArray [JNull; JNumber (Num 3)]) = Ok false.
Proof.
  split; [intros s H; discriminate H|].
  apply isValid_non_string. intros s H; discriminate H.
Defined.

(** C4: for valid globs [A] and [B] where [A] is negated and has strictly
    more notes than [B], [covers(A, B)] is false, whatever the notes are. *)
Theorem negated_deeper_never_covers : forall A B,
    valid A = true -> valid B = true -> bang A = true ->
    note_count B < note_count A -> covers A B = Ok false.
Proof.
  intros A B VA VB NA L.
  destruct (@covers_valid A B VA VB) as [na [nb [_ [_ [Ca [Cb E]]]]]].
  rewrite E, NA. rewrite Ca, Cb in L. apply Nat.ltb_lt in L. rewrite L. reflexivity.
Qed.

Lemma negated_deeper_never_covers_witness :
  valid (js "!x.*.*") = true /\ valid (js "!x.*") = true
  /\ bang (js "!x.*.*") = true /\ note_count (js "!x.*") < note_count (js "!x.*.*")
  /\ covers (js "!x.*.*") (js "!x.*") = Ok false.
Proof.
  assert (V1 : valid (js "!x.*.*") = true) by reflexivity.
  assert (V2 : valid (js "!x.*") = true) by reflexivity.
  assert (B : bang (js "!x.*.*") = true) by reflexivity.
  assert (L : note_count (js "!x.*") < note_count (js "!x.*.*")) by (vm_compute; lia).
  exact (conj V1 (conj V2 (conj B (conj L
           (@negated_deeper_never_covers _ _ V1 V2 B L))))).
Defined.

(** C2: [covers] is reflexive on valid globs, and transitive on valid globs
    that are not negated. *)
Theorem covers_reflexive_transitive :
  (forall P, valid P = true -> covers P P = Ok true)
  /\ (forall A B C,
         valid A = true -> valid B = true -> valid C = true ->
         bang A = false -> bang B = false -> bang C = false ->
         covers A B = Ok true -> covers B C = Ok true -> covers A C = Ok true).
Proof.
  split.
  - intros P V.
    destruct (@Glob_new_valid P V) as [o [ns [E [N [_ [F _]]]]]].
    unfold covers, _covers, glob_arg, covers_obj, notes_of.
    rewrite E. unfold bind. rewrite N, Nat.ltb_irrefl, andb_false_r.
    apply covers_loop_refl. exact F.
  - intros A B C VA VB VC NA NB NC HAB HBC.
    destruct (@Glob_new_valid A VA) as [a [na [Ea [Na [_ [Fa Ba]]]]]].
    destruct (@Glob_new_valid B VB) as [b [nb [Eb [Nb [_ [Fb Bb]]]]]].
    destruct (@Glob_new_valid C VC) as [c [nc [Ec [Nc [_ [Fc _]]]]]].
    unfold covers, _covers, glob_arg, covers_obj, notes_of in *.
    rewrite Ea, Eb in HAB. rewrite Eb, Ec in HBC. rewrite Ea, Ec.
    unfold bind in *. rewrite Na, Nb, Ba, NA in HAB. rewrite Nb, Nc, Bb, NB in HBC.
    rewrite Na, Nc, Ba, NA. simpl andb in *. cbv iota in *.
    exact (@covers_loop_trans na nb nc Fa Fb Fc HAB HBC).
Qed.

Lemma covers_reflexive_transitive_witness :
  covers (js "!a[*].b") (js "!a[*].b") = Ok true
  /\ covers (js "*.b") (js "a.b.c[0]") = Ok true.
Proof.
  split.
  - apply (proj1 covers_reflexive_transitive). reflexivity.
  - apply (proj2 covers_reflexive_transitive) with (B := js "a['b']");
      reflexivity.
Defined.

(** C9: [normalize] does not mutate its input.  Whatever the store, the
    mode and the bound on the rounds, an input array [L] holds after the
    call what it held before it; the arrays that existed before the call are
    all where they were, and the array the call returns is a new one. *)
Theorem normalize_keeps_input : forall fuel globList restrictive h L,
    nth_error h globList = Some L ->
    nth_error (snd (normalize fuel globList restrictive h)) globList = Some L
    /\ grows h (snd (normalize fuel globList restrictive h))
    /\ new_array h (snd (normalize fuel globList restrictive h))
                 (fst (normalize fuel globList restrictive h)).
Proof.
  intros fuel l r h L HL.
  destruct (normalize fuel l r h) as [out h'] eqn:E.
  destruct (@normalize_store fuel l r h out h' E) as [G N]. simpl.
  split; [|split; assumption].
  destruct G as [more ->]. rewrite nth_error_app1; [exact HL|].
  apply nth_error_Some. congruence.
Qed.

Lemma normalize_keeps_input_witness :
  nth_error [[js "x"]; [js "*"; js "car.model"; js "!car.*"]] 1
  = Some [js "*"; js "car.model"; js "!car.*"]
  /\ nth_error (snd (normalize 3 1 false
                        [[js "x"]; [js "*"; js "car.model"; js "!car.*"]])) 1
     = Some [js "*"; js "car.model"; js "!car.*"].
Proof.
  exact (conj eq_refl
           (proj1 (@normalize_keeps_input 3 1 false
                     [[js "x"]; [js "*"; js "car.model"; js "!car.*"]]
                     [js "*"; js "car.model"; js "!car.*"] eq_refl))).
Defined.

(** C6: [normalize(['*', 'car.model', '!car.*'])] returns
    [['*', '!car.*', 'car.model']] in loose mode and [['*', '!car.*']] in
    restrictive mode, whatever the bound on the rounds. *)
Theorem normalize_loose_and_restrictive : forall n,
    normalize_list (S n) [js "*"; js "car.model"; js "!car.*"] false
    = Done (Ok [js "*"; js "!car.*"; js "car.model"])
    /\ normalize_list (S n) [js "*"; js "car.model"; js "!car.*"] true
       = Done (Ok [js "*"; js "!car.*"]).
Proof.
  intros n. split; apply normalize_list_enough; vm_compute; reflexivity.
Qed.

(** C7: [sort(['![0][1]', '![0][*]', '![0][3]', '![*][2]'])] returns
    [['![0][3]', '![*][2]', '![0][1]', '![0][*]']]: the indexed items of the
    array in descending order of their index, the [[*]] item last.  The
    comparator orders every two of the four items strictly, so this is
    the one order the comparator accepts. *)
Theorem sort_array_items :
  sort_list [js "![0][1]"; js "![0][*]"; js "![0][3]"; js "![*][2]"]
  = Ok [js "![0][3]"; js "![*][2]"; js "![0][1]"; js "![0][*]"]
  /\ map (fun p => (compare (fst p) (snd p), compare (snd p) (fst p)))
         [(js "![0][3]", js "![*][2]"); (js "![0][3]", js "![0][1]");
          (js "![0][3]", js "![0][*]"); (js "![*][2]", js "![0][1]");
          (js "![*][2]", js "![0][*]"); (js "![0][1]", js "![0][*]")]
     = repeat (Ok (-1)%Z, Ok 1%Z) 6.
Proof. split; vm_compute; reflexivity. Qed.

(** C3, at the input [['a.b', 'a', 'a']]: [normalize] returns
    [['a', 'a.b']], and [normalize] of that returns [['a']], in either mode.
    The removed duplicate of ['a'] is marked as ignored, which hides the
    copy that stays from ['a.b']. *)
Theorem normalize_twice_differs : forall n r,
    normalize_list (S n) [js "a.b"; js "a"; js "a"] r = Done (Ok [js "a"; js "a.b"])
    /\ normalize_list (S n) [js "a"; js "a.b"] r = Done (Ok [js "a"])
    /\ ~ same_set [js "a"; js "a.b"] [js "a"].
Proof.
  intros n r. split; [|split].
  - apply normalize_list_enough. destruct r; vm_compute; reflexivity.
  - apply normalize_list_enough. destruct r; vm_compute; reflexivity.
  - intros H. destruct (proj1 (H (js "a.b"))) as [E|[]]; [right; left; reflexivity|].
    discriminate E.
Qed.

(** C1: at the example of the documentation the code differs from the
    claim.  In loose mode the intersection of ['x.*'] and ['!*.y'] is
    ['!x.y'], in either order of the arguments, where the claim and the
    documentation of [intersect] say ['x.y']; in restrictive mode it is
    ['!x.y'], as claimed. *)
Theorem intersect_loose_differs :
  _intersect (js "x.*") (js "!*.y") false = Ok (Some (js "!x.y"))
  /\ _intersect (js "!*.y") (js "x.*") false = Ok (Some (js "!x.y"))
  /\ _intersect (js "x.*") (js "!*.y") false <> Ok (Some (js "x.y"))
  /\ _intersect (js "x.*") (js "!*.y") true = Ok (Some (js "!x.y")).
Proof.
  split; [vm_compute; reflexivity|]. split; [vm_compute; reflexivity|].
  split; [|vm_compute; reflexivity].
  vm_compute. intros H. discriminate H.
Qed.

(** C5, as stated, fails: ['x.*'] is valid, not negated, and its only
    wildcard is its last note, yet [hasMagic] is true; and a glob with a
    wildcard first note followed by an unpaired quote has no magic. *)
Lemma hasMagic_counterexample :
  hasMagic (js "x.*") = true
  /\ valid (js "x.*") = true /\ bang (js "x.*") = false
  /\ split (js "x.*") false = Ok (Some [js "x"; js "*"])
  /\ hasMagic (js "*[" ++ DQ :: js "a'b" ++ DQ :: js "]") = false
  /\ split (js "*[" ++ DQ :: js "a'b" ++ DQ :: js "]") false
     = Ok (Some [js "*"; js "[" ++ DQ :: js "a'b" ++ DQ :: js "]"]).
Proof. repeat split; vm_compute; reflexivity. Qed.

(** C8, as stated, fails: in restrictive mode [normalize(['!x', '![*]'])]
    returns the empty list, although ['![*]'] addresses an array and ['!x']
    an object. *)
Lemma normalize_mixed_counterexample :
  array_root (js "![*]") = true /\ array_root (js "!x") = false
  /\ normalize_list 1 [js "!x"; js "![*]"] true = Done (Ok []).
Proof. repeat split; vm_compute; reflexivity. Qed.

(** C8, amended: [normalize] raises the integrity error whenever the input
    list of valid globs mixes array-root and object-root globs, in loose
    mode always and in restrictive mode when no item is the negate-all
    ['!*'] or ['![*]'] (on which restrictive mode returns early).  So
    [normalize(['x.y', '[0].z'])] fails with the integrity error in both
    modes. *)
Theorem normalize_mixed_roots :
  (forall n L restrictive,
      Forall (fun g => valid g = true) L ->
      (exists a b, In a L /\ In b L /\ array_root a <> array_root b) ->
      (restrictive = true -> ~ In (js "!*") L /\ ~ In (js "![*]") L) ->
      normalize_list (S n) L restrictive = Done (Throw IntegrityFailed))
  /\ (forall n restrictive,
         normalize_list (S n) [js "x.y"; js "[0].z"] restrictive
         = Done (Throw IntegrityFailed)).
Proof.
  assert (General : forall n L restrictive,
      Forall (fun g => valid g = true) L ->
      (exists a b, In a L /\ In b L /\ array_root a <> array_root b) ->
      (restrictive = true -> ~ In (js "!*") L /\ ~ In (js "![*]") L) ->
      normalize_list (S n) L restrictive = Done (Throw IntegrityFailed)).
  { intros n L r F [a [b [Ha [Hb Hab]]]] N.
    destruct (@array_sort_perm _ (if r then _negFirstSort else _negLastSort)
                               (pre_sort_total r) L) as [sorted [Es P]].
    destruct (@map_inspect_good r sorted) as [items [Ei [Gi Ri]]].
    { rewrite Forall_forall in *. intros g Hg. apply F.
      apply (Permutation_in g (Permutation_sym P) Hg). }
    { intros Hr. destruct (N Hr) as [N1 N2].
      split; intros H; [apply N1|apply N2];
        apply (Permutation_in _ (Permutation_sym P) H). }
    assert (M : mixed items).
    { destruct (Ri a (Permutation_in a P Ha)) as [oa [Hoa Roa]].
      destruct (Ri b (Permutation_in b P Hb)) as [ob [Hob Rob]].
      exists oa, ob. split; [exact Hoa|]. split; [exact Hob|]. congruence. }
    unfold normalize_list. cbn [normalize]. unfold load at 1. cbn [nth_error not_null].
    destruct L as [|g0 L0]; [destruct Ha|].
    rewrite (@prepare_ok r 0 [g0 :: L0] (g0 :: L0) sorted items eq_refl Es Ei).
    set (h2 := [g0 :: L0] ++ [sorted]).
    assert (Throws : forall w0, list_ w0 = items ->
              outer_loop r 0 (length items) w0 h2 = (Throw IntegrityFailed, h2)).
    { intros w0 Hw. rewrite <- Hw. apply outer_loop_throws.
      - exists (g0 :: L0). reflexivity.
      - apply le_n.
      - rewrite Hw. exact Gi.
      - rewrite Hw. exact M.
      - exists true. intros j o Hj Ho. exfalso.
        assert (j < length (list_ w0)) by (apply nth_error_Some; congruence). lia. }
    destruct items as [|o1 [|o2 items]].
    - destruct M as [x [_ [[] _]]].
    - destruct M as [x [y [[<- |[]] [[<- |[]] D]]]]. exfalso. apply D. reflexivity.
    - rewrite Throws by reflexivity. reflexivity. }
  split; [exact General|].
  intros n r. apply General.
  - repeat constructor.
  - exists (js "x.y"), (js "[0].z"). split; [left; reflexivity|].
    split; [right; left; reflexivity|]. vm_compute. discriminate.
  - intros _. split; intros [H|[H|[]]]; discriminate H.
Qed.

Lemma normalize_mixed_roots_witness :
  normalize_list 1 [js "!a"; js "b"; js "![1].c"; js "b"] true
  = Done (Throw IntegrityFailed).
Proof.
  apply (proj1 normalize_mixed_roots 0).
  - repeat constructor.
  - exists (js "b"), (js "![1].c"). split; [right; left; reflexivity|].
    split; [right; right; left; reflexivity|]. vm_compute. discriminate.
  - intros _. split; intros [H|[H|[H|[H|[]]]]]; discriminate H.
Defined.

(* ================================================================== *)
(** * Further properties *)

(** *** The lazy group takes the shortest text *)

Lemma exec_chr_cons : forall (A : Type) p c s (k : jsstring -> option A),
    exec (Chr p) (c :: s) k = if p c then k s else None.
Proof. reflexivity. Qed.

Lemma exec_seq : forall (A : Type) r1 r2 s (k : jsstring -> option A),
    exec (Seq r1 r2) s k = exec r1 s (fun s1 => exec r2 s1 k).
Proof. reflexivity. Qed.

Lemma exec_alt : forall (A : Type) r1 r2 s (k : jsstring -> option A),
    exec (Alt r1 r2) s k = match exec r1 s k with Some x => Some x | None => exec r2 s k end.
Proof. reflexivity. Qed.

Lemma exec_star : forall (A : Type) r s (k : jsstring -> option A),
    exec (Star r) s k = star_loop (fun s0 k0 => exec r s0 k0) k (length s) s.
Proof. reflexivity. Qed.

Lemma exec_lazy : forall (A : Type) r s (k : jsstring -> option A),
    exec (LazyStar r) s k = lazy_loop (fun s0 k0 => exec r s0 k0) k (length s) s.
Proof. reflexivity. Qed.

Lemma exec_notahead : forall (A : Type) r s (k : jsstring -> option A),
    exec (NotAhead r) s k
    = match exec r s (fun _ => Some tt) with Some _ => None | None => k s end.
Proof. reflexivity. Qed.

Lemma exec_chr_nil : forall (A : Type) p (k : jsstring -> option A),
    exec (Chr p) [] k = None.
Proof. reflexivity. Qed.

Lemma lazy_loop_first : forall (A : Type) (p : ascii -> bool) (k : jsstring -> option A) n s x,
    lazy_loop (fun s0 k0 => exec (Chr p) s0 k0) k n s = Some x ->
    exists t s1, s = t ++ s1 /\ k s1 = Some x
                 /\ forall t' r', s = t' ++ r' -> length t' < length t -> k r' = None.
Proof.
  intros A p k. induction n as [|n IH]; intros s x H; cbn [lazy_loop] in H.
  - exists [], s. split; [reflexivity|]. split; [assumption|]. intros t' r' _ L. inversion L.
  - destruct (k s) as [y|] eqn:K.
    + exists [], s. split; [reflexivity|]. split; [congruence|]. intros t' r' _ L. inversion L.
    + destruct s as [|c s]; cbn beta in H;
        [rewrite exec_chr_nil in H; discriminate|rewrite exec_chr_cons in H].
      destruct (p c); [|discriminate].
      destruct (length s <? length (c :: s))%nat; [|discriminate].
      apply IH in H. destruct H as [t [s1 [-> [K1 Min]]]].
      exists (c :: t), s1. split; [reflexivity|]. split; [assumption|].
      intros t' r' E L. destruct t' as [|c' t'].
      * cbn in E. subst r'. exact K.
      * cbn in E. injection E as -> E. apply (Min t' r' E). cbn in L. lia.
Qed.


Lemma wild_tails_match : forall ws,
    ws <> [] -> Forall wild_tail ws -> matches TRAIL_post (concat ws) [].
Proof.
  intros ws N F. destruct ws as [|w ws]; [congruence|].
  inversion F as [|? ? W F']; subst.
  unfold TRAIL_post, Plus.
  change (exists m, (exists m', matches (Alt (lit ".*") (lit "[*]")) (concat (w :: ws)) m' /\
                                iter (matches (Alt (lit ".*") (lit "[*]"))) m' m)
                    /\ (m = [] /\ @nil ascii = [])).
  exists []. split; [|split; reflexivity].
  exists (concat ws). split.
  - apply matches_wild. exists w. split; [reflexivity|assumption].
  - apply (@iter_words _ _ matches_wild). exists ws. rewrite app_nil_r. split; [reflexivity|assumption].
Qed.

Lemma trail_shortest : forall s x,
    exec_group TRAIL_pre TRAIL_g1 TRAIL_post s = Some x ->
    forall x' ws, s = x' ++ concat ws -> ws <> [] -> Forall wild_tail ws ->
                  x' <> [] -> length x <= length x'.
Proof.
  intros s x H x' ws E N F X.
  unfold exec_group, TRAIL_pre, TRAIL_g1, LazyPlus in H.
  rewrite exec_notahead, exec_seq in H.
  destruct (exec (chr "!") s (fun _ => Some tt)); [discriminate|].
  destruct s as [|c s]; [rewrite exec_chr_nil in H; discriminate|].
  rewrite exec_chr_cons, exec_lazy in H. destruct (dot c); [|discriminate].
  apply lazy_loop_first in H. destruct H as [t [s1 [-> [K Min]]]].
  destruct (exec TRAIL_post s1 (fun _ => Some (consumed (c :: t ++ s1) s1))) as [y|] eqn:Ey; [|discriminate].
  injection K as <-.
  apply exec_sound in Ey. destruct Ey as [s2 [_ Ey]]. injection Ey as <-.
  change (c :: t ++ s1) with ((c :: t) ++ s1). rewrite consumed_app.
  destruct x' as [|c' x']; [congruence|].
  cbn in E. injection E as <- E.
  destruct (Nat.lt_ge_cases (length x') (length t)) as [L|L]; [|cbn; lia].
  exfalso. specialize (Min x' (concat ws) E L).
  revert Min. apply exec_complete with (s' := []); [|discriminate].
  apply wild_tails_match; assumption.
Qed.

Lemma wild_tail_length : forall ws, ws <> [] -> Forall wild_tail ws -> 0 < length (concat ws).
Proof.
  intros [|w ws] N F; [congruence|]. inversion F as [|? ? [-> | ->] _]; cbn; lia.
Qed.

Lemma strip_twice : forall s,
    removeTrailingWildcards (removeTrailingWildcards s) = removeTrailingWildcards s.
Proof.
  intros s. unfold removeTrailingWildcards at 2 3.
  destruct (exec_group TRAIL_pre TRAIL_g1 TRAIL_post s) as [x|] eqn:E.
  - unfold removeTrailingWildcards.
    destruct (exec_group TRAIL_pre TRAIL_g1 TRAIL_post x) as [x2|] eqn:E2; [|reflexivity].
    exfalso. pose proof (@trail_match _ _ E) as [_ [_ [ws [N [F S]]]]].
    pose proof (@trail_match _ _ E2) as [X2 [_ [ws2 [N2 [F2 S2]]]]].
    assert (L : length x <= length x2).
    { apply (@trail_shortest s x E x2 (ws2 ++ ws)).
      - rewrite S, S2 at 1. rewrite concat_app, app_assoc. reflexivity.
      - destruct ws2; [congruence|discriminate].
      - apply Forall_app. split; assumption.
      - assumption. }
    pose proof (@wild_tail_length _ N2 F2) as P.
    rewrite S2 in L at 1. rewrite length_app in L. lia.
  - unfold removeTrailingWildcards. rewrite E. reflexivity.
Qed.

(** *** Inspection *)

Lemma inspect_trimmed : forall s,
    valid (trim s) = true -> _inspect s = _inspect (trim s).
Proof.
  intros s V. unfold _inspect. rewrite (@valid_trim _ V). reflexivity.
Qed.

Lemma inspect_invalid : forall s,
    valid (trim s) = false -> _inspect s = Throw InvalidGlob.
Proof. intros s V. unfold _inspect. rewrite V. reflexivity. Qed.

Lemma inspect_fixed : forall s o, _inspect s = Ok o -> _inspect (glob o) = Ok o.
Proof.
  intros s o H. unfold _inspect in H.
  destruct (valid (trim s)) eqn:V; [|discriminate]. cbn [negb] in H.
  injection H as <-. cbn [glob].
  destruct (bang (trim s)) eqn:B; cbn [negb].
  - unfold _inspect. rewrite (@valid_trim _ V), V, B. reflexivity.
  - pose proof (@strip_body _ (@valid_body _ V B)) as G.
    pose proof (@glob_body_valid _ G) as V'. pose proof (@glob_body_no_bang _ G) as [B' _].
    unfold _inspect. rewrite (@valid_trim _ V'), V', B'. cbn [negb].
    rewrite strip_twice. reflexivity.
Qed.

(** X4: the glob of an inspection result is a fixed point of
    [_inspect]: inspecting it again gives the same result; it is valid, and
    when it is not negated it has no trailing wildcard left to remove. *)
Theorem inspect_normal_form : forall s o,
    _inspect s = Ok o ->
    _inspect (glob o) = Ok o
    /\ valid (glob o) = true
    /\ (isNegated o = false -> removeTrailingWildcards (glob o) = glob o).
Proof.
  intros s o H. split; [exact (@inspect_fixed _ _ H)|].
  unfold _inspect in H. destruct (valid (trim s)) eqn:V; [|discriminate].
  cbn [negb] in H. injection H as <-. cbn [glob isNegated].
  destruct (bang (trim s)) eqn:B; cbn [negb].
  - split; [assumption|discriminate].
  - split; [|intros _; apply strip_twice].
    apply glob_body_valid, strip_body, valid_body; assumption.
Qed.

Lemma inspect_normal_form_witness :
  _inspect (js " a.*[*] ")
  = Ok {| glob := js "a"; absGlob := js "a"; isNegated := false;
          isArrayGlob := false; notes := None |}
  /\ _inspect (js "a")
     = Ok {| glob := js "a"; absGlob := js "a"; isNegated := false;
             isArrayGlob := false; notes := None |}.
Proof.
  assert (H : _inspect (js " a.*[*] ")
              = Ok {| glob := js "a"; absGlob := js "a"; isNegated := false;
                      isArrayGlob := false; notes := None |})
    by (vm_compute; reflexivity).
  split; [exact H|]. apply (proj1 (@inspect_normal_form _ _ H)).
Defined.

Lemma Glob_new_trimmed : forall s, valid (trim s) = true -> Glob_new s = Glob_new (trim s).
Proof. intros s V. unfold Glob_new. rewrite (@inspect_trimmed _ V). reflexivity. Qed.

Lemma Glob_new_invalid : forall s,
    valid (trim s) = false -> Glob_new s = Throw InvalidGlob.
Proof. intros s V. unfold Glob_new. rewrite (@inspect_invalid _ V). reflexivity. Qed.

Lemma Glob_new_ok : forall s,
    valid (trim s) = true ->
    exists o ns, Glob_new s = Ok o /\ Glob_new (trim s) = Ok o
                 /\ notes o = Some ns /\ ns <> [] /\ Forall note_shape ns
                 /\ isNegated o = bang (trim s).
Proof.
  intros s V. destruct (@Glob_new_valid _ V) as [o [ns [E [N [NE [F I]]]]]].
  exists o, ns. rewrite (@Glob_new_trimmed _ V). repeat split; assumption.
Qed.

(** X2: the constructor trims its argument before it validates
    it: [new Glob(s)] succeeds exactly when the trimmed string is a valid
    glob, and is then the [Glob] of the trimmed string, with at least one
    note; otherwise it throws the invalid-glob error. *)
Theorem Glob_new_trims : forall s,
    (valid (trim s) = true ->
     exists o ns, Glob_new s = Ok o /\ Glob_new (trim s) = Ok o
                  /\ notes o = Some ns /\ ns <> [] /\ isNegated o = bang (trim s))
    /\ (valid (trim s) = false -> Glob_new s = Throw InvalidGlob).
Proof.
  intros s. split; intros V.
  - destruct (@Glob_new_ok _ V) as [o [ns [E [E' [N [NE [_ I]]]]]]].
    exists o, ns. repeat split; assumption.
  - apply Glob_new_invalid. assumption.
Qed.

Lemma Glob_new_trims_witness :
  valid (trim (js " !x.* ")) = true
  /\ exists o ns, Glob_new (js " !x.* ") = Ok o /\ Glob_new (trim (js " !x.* ")) = Ok o
                  /\ notes o = Some ns /\ ns <> []
                  /\ isNegated o = bang (trim (js " !x.* ")).
Proof.
  split; [vm_compute; reflexivity|].
  apply (proj1 (Glob_new_trims (js " !x.* "))). vm_compute. reflexivity.
Defined.

(** X5: [Glob.split(s, n)] throws the invalid-glob error exactly
    when [s] is not a valid glob; on a valid glob it never returns null: it
    returns at least one note, and every note is a star, a name or a
    bracket. *)
Theorem split_notes : forall s n,
    (valid s = true ->
     exists ns, split s n = Ok (Some ns) /\ ns <> [] /\ Forall note_shape ns)
    /\ (valid s = false -> split s n = Throw InvalidGlob).
Proof.
  intros s n. split; intros V.
  - apply split_valid. assumption.
  - unfold split. rewrite V. reflexivity.
Qed.

Lemma split_notes_witness :
  valid (js "*.list[2].prop") = true
  /\ exists ns, split (js "*.list[2].prop") false = Ok (Some ns)
                /\ ns <> [] /\ Forall note_shape ns.
Proof.
  split; [vm_compute; reflexivity|].
  apply (proj1 (split_notes (js "*.list[2].prop") false)). vm_compute. reflexivity.
Defined.

(** X1: for every string [s], [Glob.isValid(s)] is true exactly when
    [s] is an optional bang followed by a first note (a star, a name or a
    bracket) and any number of further notes (a bracket, a dot and a name,
    or a dot and a star). *)
Theorem isValid_grammar : forall s,
    isValid (JString s) = Ok true
    <-> (glob_body s \/ exists t, s = "!"%char :: t /\ glob_body t).
Proof.
  intros s. cbn [isValid typeof]. rewrite <- valid_iff.
  split; [intros H; injection H; auto|intros ->; reflexivity].
Qed.

(** X18: on a valid glob [_invert] gives a valid glob with the
    opposite negation, and inverting twice gives the glob back. *)
Theorem invert_involution : forall g,
    valid g = true ->
    valid (_invert g) = true /\ bang (_invert g) = negb (bang g)
    /\ _invert (_invert g) = g.
Proof.
  intros g V. apply valid_iff in V. destruct V as [G | [t [-> G]]].
  - pose proof (@glob_body_no_bang _ G) as [B _]. unfold _invert. rewrite B.
    cbn. split; [|split; reflexivity].
    apply valid_iff. right. exists g. split; [reflexivity|assumption].
  - pose proof (@glob_body_no_bang _ G) as [B _]. unfold _invert. cbn.
    rewrite B. split; [|split; reflexivity].
    apply valid_iff. left. assumption.
Qed.

Lemma invert_involution_witness :
  valid (js "!a.b") = true
  /\ valid (_invert (js "!a.b")) = true
  /\ bang (_invert (js "!a.b")) = negb (bang (js "!a.b"))
  /\ _invert (_invert (js "!a.b")) = js "!a.b".
Proof.
  split; [vm_compute; reflexivity|].
  apply (@invert_involution (js "!a.b")). vm_compute. reflexivity.
Defined.

(** *** Errors of [_intersect] *)

(** X15: [_intersect] returns (a glob or null) on two valid globs
    and throws the invalid-glob error when one of them is not valid; unlike
    the constructor it does not trim, so a blank before a glob makes it
    throw where [covers] answers. *)
Theorem intersect_errors : forall A B r,
    (valid A = true -> valid B = true -> exists o, _intersect A B r = Ok o)
    /\ (valid A = false \/ valid B = false -> _intersect A B r = Throw InvalidGlob)
    /\ _intersect (js " x") (js "x") false = Throw InvalidGlob
    /\ covers (js " x") (js "x") = Ok true.
Proof.
  intros A B r. split; [apply intersect_total|]. split; [|split; reflexivity].
  intros H. unfold _intersect.
  destruct (valid A) eqn:VA.
  - destruct H as [H|VB]; [discriminate|].
    destruct (@split_valid A true VA) as [na [Ea _]]. rewrite Ea.
    unfold split. rewrite VB. reflexivity.
  - unfold split. rewrite VA. reflexivity.
Qed.

Lemma intersect_errors_witness :
  valid (js "x.*") = true /\ valid (js "!*.y") = true
  /\ exists o, _intersect (js "x.*") (js "!*.y") true = Ok o.
Proof.
  split; [vm_compute; reflexivity|]. split; [vm_compute; reflexivity|].
  apply (proj1 (intersect_errors (js "x.*") (js "!*.y") true)); vm_compute; reflexivity.
Defined.

(** *** Matching is symmetric *)

Lemma matchesNote_sym : forall a b,
    note_shape a -> note_shape b ->
    exists c, _matchesNote (Some a) (Some b) = Ok c /\ _matchesNote (Some b) (Some a) = Ok c.
Proof.
  intros a b Na Nb. unfold _matchesNote.
  rewrite (@note_shape_truthy a Na), (@note_shape_truthy b Nb). cbn [negb orb].
  destruct (@coversNote_total a b Na Nb) as [x Ex].
  destruct (@coversNote_total b a Nb Na) as [y Ey].
  rewrite Ex, Ey. cbn [bind]. exists (x || y).
  destruct x, y; split; reflexivity.
Qed.

Lemma covers_loop_shift : forall fn A b B i,
    covers_loop fn A (b :: B) (S i) = covers_loop fn A B i.
Proof.
  intros fn A b B. induction A as [|a A IH]; intros i; [reflexivity|].
  cbn [covers_loop nth_error]. destruct (fn (Some a) (nth_error B i)) as [[|]|e]; cbn [bind];
    [apply IH|reflexivity|reflexivity].
Qed.

Lemma matches_loop_nil : forall A i, covers_loop _matchesNote A [] i = Ok true.
Proof.
  induction A as [|a A IH]; intros i; [reflexivity|].
  cbn [covers_loop]. replace (nth_error (@nil jsstring) i) with (@None jsstring)
    by (destruct i; reflexivity).
  unfold _matchesNote at 1. cbn [truthy negb orb].
  rewrite orb_true_r. cbn [bind]. apply IH.
Qed.

Lemma matches_loop_sym : forall A B,
    Forall note_shape A -> Forall note_shape B ->
    exists c, covers_loop _matchesNote A B 0 = Ok c /\ covers_loop _matchesNote B A 0 = Ok c.
Proof.
  induction A as [|a A IH]; intros B FA FB.
  - exists true. split; [reflexivity|apply matches_loop_nil].
  - destruct B as [|b B].
    + exists true. split; [apply matches_loop_nil|reflexivity].
    + inversion FA as [|? ? Na FA']; inversion FB as [|? ? Nb FB']; subst.
      cbn [covers_loop nth_error].
      destruct (@matchesNote_sym a b Na Nb) as [c [E1 E2]]. rewrite E1, E2. cbn [bind].
      destruct c; [|exists false; split; reflexivity].
      rewrite !covers_loop_shift. apply IH; assumption.
Qed.

(** X12: in match mode [_covers] is symmetric:
    [_covers(A, B, true)] and [_covers(B, A, true)] give the same answer or
    the same error, for all strings. *)
Theorem covers_match_symmetric : forall A B,
    _covers (inl A) (inl B) true = _covers (inl B) (inl A) true.
Proof.
  intros A B. unfold _covers, glob_arg.
  destruct (valid (trim A)) eqn:VA; destruct (valid (trim B)) eqn:VB.
  - destruct (@Glob_new_valid _ VA) as [a [na [Ea [Na [_ [Fa _]]]]]].
    destruct (@Glob_new_valid _ VB) as [b [nb [Eb [Nb [_ [Fb _]]]]]].
    rewrite (@Glob_new_trimmed A VA), (@Glob_new_trimmed B VB), Ea, Eb.
    cbn [bind]. unfold covers_obj, notes_of. rewrite Na, Nb. cbn [bind negb andb].
    destruct (@matches_loop_sym na nb Fa Fb) as [c [E1 E2]]. congruence.
  - destruct (@Glob_new_ok _ VA) as [a [na [Ea _]]].
    rewrite (@Glob_new_invalid _ VB), Ea. reflexivity.
  - destruct (@Glob_new_ok _ VB) as [b [nb [Eb _]]].
    rewrite (@Glob_new_invalid _ VA), Eb. reflexivity.
  - rewrite (@Glob_new_invalid _ VA), (@Glob_new_invalid _ VB). reflexivity.
Qed.

(** *** The first note and the root *)

Lemma match_g_first : forall s,
    glob_body s ->
    exists t ns rest, match_g reMATCHER s = Some (t :: ns) /\ s = t ++ rest
                      /\ note_shape t /\ Forall note_shape ns.
Proof.
  intros s [h [ts [E [N T]]]].
  unfold match_g. cbn [match_all_from].
  destruct (exec reMATCHER s (fun rest => Some rest)) as [rest|] eqn:X.
  - apply exec_sound in X. destruct X as [s' [M X]]. injection X as ->.
    apply matches_reMATCHER in M. destruct M as [t [E' Nt]].
    assert (L : (length rest <? length s)%nat = true).
    { apply Nat.ltb_lt. rewrite E', length_app.
      destruct (@note_shape_no_bang t Nt) as [_ NE]. destruct t; [congruence|cbn; lia]. }
    rewrite L. exists t, (match_all_from reMATCHER (length s) rest), rest.
    split; [rewrite E' at 1; rewrite consumed_app; reflexivity|].
    split; [assumption|]. split; [assumption|apply match_all_shapes].
  - exfalso. revert X. apply exec_complete with (s' := concat ts); [|discriminate].
    apply matches_reMATCHER. eauto.
Qed.

Lemma arr_root : forall t rest,
    note_shape t -> arr t = test_anchored ARRAY_ROOT (t ++ rest).
Proof.
  intros t rest N. destruct N as [|t V|t B].
  - reflexivity.
  - destruct V as [c l C _]. unfold arr.
    destruct (ascii_dec c "[") as [->|D]; [discriminate C|].
    assert (X : is_char "[" c = false).
    { unfold is_char. apply Ascii.eqb_neq. congruence. }
    unfold test_anchored, ARRAY_GLOB_NOTE, ARRAY_ROOT, chr.
    rewrite !exec_seq, !exec_chr_cons. cbn [app]. rewrite exec_chr_cons, X. reflexivity.
  - destruct B as [|c l C F|q body Q F].
    + reflexivity.
    + transitivity true.
      * apply test_anchored_iff. exists []. unfold ARRAY_GLOB_NOTE.
        apply matches_seq. exists (c :: l ++ js "]"). split; [apply matches_chr; reflexivity|].
        apply matches_seq. exists (js "]"). split.
        -- apply matches_alt. left. apply matches_digits. exists c, l. auto.
        -- apply matches_seq. exists []. split; [apply matches_chr; reflexivity|].
           split; reflexivity.
      * unfold test_anchored, ARRAY_ROOT, chr. cbn [app].
        rewrite exec_seq, !exec_chr_cons.
        destruct (@digit_facts c C) as [_ [_ [_ [_ [_ [D1 [D2 _]]]]]]].
        replace (is_char "[" "[") with true by reflexivity.
        replace (is_char "'" c) with false
          by (symmetry; unfold is_char; apply Ascii.eqb_neq; congruence).
        replace (is_char DQ c) with false
          by (symmetry; unfold is_char; apply Ascii.eqb_neq; congruence).
        reflexivity.
    + destruct Q as [-> | ->]; reflexivity.
Qed.

Lemma inspect_body : forall s,
    valid (trim s) = true ->
    exists o ns t rest,
      Glob_new s = Ok o /\ notes o = Some (t :: ns) /\ absGlob o = t ++ rest
      /\ note_shape t /\ Forall note_shape ns
      /\ isNegated o = bang (trim s)
      /\ isArrayGlob o = arr t /\ array_root s = arr t.
Proof.
  intros s V. unfold Glob_new, array_root.
  destruct (@inspect_valid _ V) as [o [E [I [_ [G [Vo _]]]]]].
  rewrite (@inspect_trimmed _ V), E. cbn [bind].
  destruct (@match_g_first _ G) as [t [ns [rest [Em [Ea [Nt Fn]]]]]].
  unfold split. rewrite (@glob_body_valid _ G). cbn [negb andb].
  destruct (@glob_body_no_bang _ G) as [B _]. rewrite B. cbn [negb andb].
  rewrite B, Em. cbn [bind].
  assert (R : isArrayGlob o = arr t).
  { unfold _inspect in E. destruct (negb (valid (trim (trim s)))); [discriminate|].
    injection E as <-. cbn [isArrayGlob absGlob] in *. rewrite Ea. symmetry.
    apply arr_root. assumption. }
  eexists. exists ns, t, rest. cbn [notes absGlob isNegated isArrayGlob].
  repeat split; assumption.
Qed.

(** X13: the star covers exactly the valid globs that address an
    object at the root, and [[*]] exactly those that address an array. *)
Theorem wildcard_covers_by_root : forall B,
    valid B = true ->
    covers (js "*") B = Ok (negb (array_root B))
    /\ covers (js "[*]") B = Ok (array_root B).
Proof.
  intros B V. pose proof V as V'. rewrite <- (@valid_trim _ V) in V'.
  destruct (@inspect_body B V') as [o [ns [t [rest [E [N [_ [Nt [_ [_ [_ R]]]]]]]]]]].
  rewrite R. unfold covers, _covers, glob_arg. rewrite E.
  replace (Glob_new (js "*")) with
    (Ok {| glob := js "*"; absGlob := js "*"; isNegated := false;
           isArrayGlob := false; notes := Some [js "*"] |}) by reflexivity.
  replace (Glob_new (js "[*]")) with
    (Ok {| glob := js "[*]"; absGlob := js "[*]"; isNegated := false;
           isArrayGlob := true; notes := Some [js "[*]"] |}) by reflexivity.
  cbn [bind]. unfold covers_obj, notes_of. cbn [notes isNegated]. rewrite N.
  cbn [bind negb andb covers_loop nth_error].
  destruct (@coversNote_shapes (js "*") t shape_any Nt) as [[_ E1]|[[X _]|[X _]]];
    [|discriminate X|congruence].
  assert (S2 : note_shape (js "[*]")) by (apply shape_bracket; constructor).
  destruct (@coversNote_shapes (js "[*]") t S2 Nt) as [[X _]|[[_ E2]|[_ [X _]]]];
    [discriminate X| |congruence].
  rewrite E1, E2. cbn [bind]. split; destruct (arr t); reflexivity.
Qed.

Lemma wildcard_covers_by_root_witness :
  valid (js "[0].x") = true
  /\ covers (js "*") (js "[0].x") = Ok (negb (array_root (js "[0].x")))
  /\ covers (js "[*]") (js "[0].x") = Ok (array_root (js "[0].x")).
Proof.
  split; [vm_compute; reflexivity|].
  apply (@wildcard_covers_by_root (js "[0].x")). vm_compute. reflexivity.
Defined.

(** *** Quoted keys *)

Lemma object_brackets_quoted : forall q body,
    all_of dot body ->
    object_brackets_group q ("["%char :: q :: body ++ [q; "]"%char]) = Some body.
Proof.
  intros q body F. unfold object_brackets_group.
  destruct (exec_group _ _ _ _) as [x|] eqn:E.
  - apply exec_group_sound in E. destruct E as [s0 [s1 [s2 [M0 [M1 [M2 ->]]]]]].
    apply matches_seq in M0. destruct M0 as [m [A B]].
    apply matches_chr in A. injection A as <-.
    apply matches_chr in B. injection B as <-.
    apply iter_chr in M1. destruct M1 as [l [E1 _]].
    apply matches_seq in M2. destruct M2 as [m [A B]].
    apply matches_chr in A. subst s1.
    apply matches_seq in B. destruct B as [m' [A B]].
    apply matches_chr in A. subst m. destruct B as [-> _].
    apply app_inv_tail in E1. subst l. rewrite consumed_app. reflexivity.
  - exfalso. revert E.
    apply exec_group_complete
      with (s0 := body ++ [q; "]"%char]) (s1 := [q; "]"%char]) (s2 := []).
    + apply matches_seq. exists (q :: body ++ [q; "]"%char]).
      split; apply matches_chr; reflexivity.
    + apply matches_star_chr. assumption.
    + apply matches_seq. exists (js "]"). split; [apply matches_chr; reflexivity|].
      apply matches_seq. exists []. split; [apply matches_chr; reflexivity|].
      split; reflexivity.
Qed.

Lemma normalizeNote_quoted : forall q body,
    q = "'"%char \/ q = DQ \/ q = "`"%char -> all_of dot body -> body <> [] ->
    normalizeNote ("["%char :: q :: body ++ [q; "]"%char]) = Ok (VStr body).
Proof.
  intros q body Q F NE. unfold normalizeNote.
  replace (test_anchored VAR ("["%char :: q :: body ++ [q; "]"%char]))
    with false by reflexivity.
  replace (exec_group (chr "[") digits (Seq (chr "]") Eos)
                      ("["%char :: q :: body ++ [q; "]"%char]))
    with (@None jsstring) by (destruct Q as [-> | [-> | ->]]; reflexivity).
  destruct Q as [-> | [-> | ->]].
  - rewrite (@object_brackets_quoted _ body F). destruct body; [congruence|reflexivity].
  - replace (object_brackets_group "'" ("["%char :: DQ :: body ++ [DQ; "]"%char]))
      with (@None jsstring) by reflexivity.
    rewrite (@object_brackets_quoted _ body F). destruct body; [congruence|reflexivity].
  - replace (object_brackets_group "'" ("["%char :: "`"%char :: body ++ ["`"%char; "]"%char]))
      with (@None jsstring) by reflexivity.
    replace (object_brackets_group DQ ("["%char :: "`"%char :: body ++ ["`"%char; "]"%char]))
      with (@None jsstring) by reflexivity.
    rewrite (@object_brackets_quoted _ body F). destruct body; [congruence|reflexivity].
Qed.

Lemma var_chars_dot : forall l, all_of is_var_char l -> all_of dot l.
Proof.
  intros l F. induction F as [|c l C _ IH]; constructor; [|assumption].
  revert C. clear. destruct c as [[] [] [] [] [] [] [] []]; cbv; congruence.
Qed.

Lemma normalizeNote_var : forall v, var_shape v -> normalizeNote v = Ok (VStr v).
Proof.
  intros v V. unfold normalizeNote.
  assert (T : test_anchored VAR v = true).
  { apply test_anchored_iff. exists []. unfold VAR. apply matches_seq.
    exists []. split; [|split; reflexivity].
    apply matches_var. exists v. rewrite app_nil_r. auto. }
  rewrite T. reflexivity.
Qed.

(** X14: a name and the same name as a quoted key in brackets are
    the same note: [normalizeNote] gives the same value, and each covers
    the other. *)
Theorem quoted_key_is_the_name : forall v q,
    var_shape v -> q = "'"%char \/ q = DQ ->
    normalizeNote ("["%char :: q :: v ++ [q; "]"%char]) = normalizeNote v
    /\ _coversNote (Some v) (Some ("["%char :: q :: v ++ [q; "]"%char])) = Ok true
    /\ _coversNote (Some ("["%char :: q :: v ++ [q; "]"%char])) (Some v) = Ok true.
Proof.
  intros v q V Q.
  assert (D : all_of dot v).
  { destruct V as [c l C F]. apply var_chars_dot. constructor; [|assumption].
    apply var_start_char. assumption. }
  assert (N : normalizeNote ("["%char :: q :: v ++ [q; "]"%char]) = Ok (VStr v)).
  { apply normalizeNote_quoted; [tauto|assumption|destruct V; discriminate]. }
  pose proof (@normalizeNote_var v V) as N'.
  split; [congruence|].
  assert (Sv : note_shape v) by (apply shape_name; assumption).
  assert (Sb : note_shape ("["%char :: q :: v ++ [q; "]"%char])).
  { apply shape_bracket. constructor; [tauto|assumption]. }
  assert (X1 : v <> js "*") by (destruct V as [c l C _]; intros X; injection X as -> _; discriminate C).
  assert (X2 : v <> js "[*]") by (destruct V as [c l C _]; intros X; injection X as -> _; discriminate C).
  assert (X3 : "["%char :: q :: v ++ [q; "]"%char] <> js "*") by discriminate.
  assert (X4 : "["%char :: q :: v ++ [q; "]"%char] <> js "[*]")
    by (destruct Q as [-> | ->]; discriminate).
  split.
  - destruct (@coversNote_shapes _ _ Sv Sb) as [[X _]|[[X _]|[_ [_ [[[X|X] _]|[_ [_ [va [vb [Ea [Eb Ec]]]]]]]]]]];
      try congruence.
    etransitivity; [exact Ec|]. rewrite N in Eb. rewrite N' in Ea. injection Ea as <-. injection Eb as <-.
    cbn [notevalue_eq]. rewrite streq_refl. reflexivity.
  - destruct (@coversNote_shapes _ _ Sb Sv) as [[X _]|[[X _]|[_ [_ [[[X|X] _]|[_ [_ [va [vb [Ea [Eb Ec]]]]]]]]]]];
      try congruence.
    etransitivity; [exact Ec|]. rewrite N in Ea. rewrite N' in Eb. injection Ea as <-. injection Eb as <-.
    cbn [notevalue_eq]. rewrite streq_refl. reflexivity.
Qed.

Lemma quoted_key_is_the_name_witness :
  var_shape ["y"%char]
  /\ _coversNote (Some ["y"%char]) (Some ("["%char :: "'"%char :: ["y"%char] ++ ["'"%char; "]"%char]))
     = Ok true.
Proof.
  assert (V : var_shape ["y"%char]) by (constructor; [reflexivity|constructor]).
  split; [exact V|].
  apply (proj1 (proj2 (@quoted_key_is_the_name ["y"%char] "'"%char V (or_introl eq_refl)))).
Defined.

(** *** The order of [compare] *)

Lemma streq_sym : forall a b, streq a b = streq b a.
Proof.
  induction a as [|x a IH]; destruct b as [|y b]; try reflexivity.
  cbn [streq]. rewrite IH, (Ascii.eqb_sym x y). reflexivity.
Qed.

Lemma strlt_asym : forall a b, strlt a b = true -> strlt b a = false.
Proof.
  induction a as [|x a IH]; destruct b as [|y b]; cbn [strlt]; try congruence.
  destruct (nat_of_ascii x <? nat_of_ascii y)%nat eqn:L1;
    destruct (nat_of_ascii y <? nat_of_ascii x)%nat eqn:L2; try congruence.
  - apply Nat.ltb_lt in L1, L2. lia.
  - apply IH.
Qed.

Lemma wildcard_cases : forall t,
    test_anchored WILDCARD t = true -> t = js "*" \/ t = js "[*]".
Proof.
  intros t H. destruct (list_eq_cases t (js "*")) as [|N1]; [auto|].
  destruct (list_eq_cases t (js "[*]")) as [|N2]; [auto|].
  rewrite (@wildcard_only t N1 N2) in H. discriminate.
Qed.

Lemma compare_items_zero : forall a b,
    isNegated a && isNegated b = false -> _compareArrayItemGlobs a b = Ok 0%Z.
Proof.
  intros a b H. unfold _compareArrayItemGlobs.
  destruct (isNegated a), (isNegated b); try reflexivity. discriminate.
Qed.

Lemma compare_flips : forall A B,
    valid A = true -> valid B = true -> bang A && bang B = false ->
    exists z, compare A B = Ok z /\ compare B A = Ok (- z)%Z
              /\ (z = -1 \/ z = 0 \/ z = 1)%Z.
Proof.
  intros A B VA VB NB.
  destruct (@Glob_new_valid A VA) as [a [na [Ea [Na [_ [_ Ia]]]]]].
  destruct (@Glob_new_valid B VB) as [b [nb [Eb [Nb [_ [_ Ib]]]]]].
  assert (CA : _compareArrayItemGlobs a b = Ok 0%Z)
    by (apply compare_items_zero; rewrite Ia, Ib; assumption).
  assert (CB : _compareArrayItemGlobs b a = Ok 0%Z)
    by (apply compare_items_zero; rewrite Ia, Ib, andb_comm; assumption).
  unfold compare. rewrite (streq_sym B A), (andb_comm (test_anchored WILDCARD B)).
  destruct (streq A B || test_anchored WILDCARD A && test_anchored WILDCARD B).
  { exists 0%Z. auto. }
  rewrite Ea, Eb. cbn [bind]. rewrite Na, Nb. cbn [bind not_null].
  rewrite (Nat.eqb_sym (length nb)).
  destruct (length na =? length nb)%nat eqn:L.
  - rewrite CA, CB. cbn [bind Z.eqb negb].
    rewrite (Nat.eqb_sym (wildCount (absGlob b))).
    destruct (wildCount (absGlob a) =? wildCount (absGlob b))%nat eqn:W.
    + rewrite Ia, Ib. destruct (bang A), (bang B); try discriminate; cbn [negb andb].
      * exists 1%Z. auto.
      * exists (-1)%Z. auto.
      * destruct (strlt (absGlob a) (absGlob b)) eqn:S1.
        -- rewrite (@strlt_asym _ _ S1). exists (-1)%Z. auto.
        -- destruct (strlt (absGlob b) (absGlob a)); [exists 1%Z|exists 0%Z]; auto.
    + apply Nat.eqb_neq in W.
      destruct (Nat.ltb_spec (wildCount (absGlob b)) (wildCount (absGlob a))) as [L1|L1];
        destruct (Nat.ltb_spec (wildCount (absGlob a)) (wildCount (absGlob b))) as [L2|L2];
        try (exfalso; lia).
      * exists (-1)%Z. auto.
      * exists 1%Z. auto.
  - apply Nat.eqb_neq in L.
    destruct (Nat.ltb_spec (length na) (length nb)) as [L1|L1];
      destruct (Nat.ltb_spec (length nb) (length na)) as [L2|L2];
      try (exfalso; lia).
    + exists (-1)%Z. auto.
    + exists 1%Z. auto.
Qed.

(** X19: [compare] is antisymmetric on two valid globs that are not
    both negated: it returns -1, 0 or 1, and the opposite number when the
    arguments are swapped.  For two negated items of an array this may
    fail: [![01]] and [![1]] each come after the other. *)
Theorem compare_antisymmetric :
  (forall A B,
      valid A = true -> valid B = true -> bang A && bang B = false ->
      exists z, compare A B = Ok z /\ compare B A = Ok (- z)%Z
                /\ (z = -1 \/ z = 0 \/ z = 1)%Z)
  /\ compare (js "![01]") (js "![1]") = Ok 1%Z
  /\ compare (js "![1]") (js "![01]") = Ok 1%Z.
Proof.
  split; [exact compare_flips|]. split; vm_compute; reflexivity.
Qed.

Lemma compare_antisymmetric_witness :
  valid (js "a.b") = true /\ valid (js "!a.*") = true
  /\ bang (js "a.b") && bang (js "!a.*") = false
  /\ exists z, compare (js "a.b") (js "!a.*") = Ok z
               /\ compare (js "!a.*") (js "a.b") = Ok (- z)%Z
               /\ (z = -1 \/ z = 0 \/ z = 1)%Z.
Proof.
  split; [vm_compute; reflexivity|]. split; [vm_compute; reflexivity|].
  split; [reflexivity|].
  apply (proj1 compare_antisymmetric (js "a.b") (js "!a.*")); vm_compute; reflexivity.
Defined.

(** X20: of two valid globs, the one with fewer notes comes
    first. *)
Theorem compare_fewer_notes_first : forall A B,
    valid A = true -> valid B = true -> note_count A < note_count B ->
    compare A B = Ok (-1)%Z /\ compare B A = Ok 1%Z.
Proof.
  intros A B VA VB L. unfold note_count in L.
  destruct (@Glob_new_valid A VA) as [a [na [Ea [Na _]]]].
  destruct (@Glob_new_valid B VB) as [b [nb [Eb [Nb _]]]].
  rewrite Ea, Eb, Na, Nb in L.
  assert (X : streq A B || test_anchored WILDCARD A && test_anchored WILDCARD B = false).
  { destruct (streq A B) eqn:S.
    - apply streq_eq in S. subst B. rewrite Ea in Eb. injection Eb as <-.
      rewrite Na in Nb. injection Nb as <-. lia.
    - destruct (test_anchored WILDCARD A) eqn:WA; [|reflexivity].
      destruct (test_anchored WILDCARD B) eqn:WB; [|reflexivity].
      exfalso. apply wildcard_cases in WA, WB.
      destruct WA as [-> | ->]; destruct WB as [-> | ->];
        vm_compute in Ea; vm_compute in Eb; injection Ea as <-; injection Eb as <-;
        injection Na as <-; injection Nb as <-; cbn in L; lia. }
  unfold compare. rewrite (streq_sym B A), (andb_comm (test_anchored WILDCARD B)), X.
  rewrite Ea, Eb. cbn [bind]. rewrite Na, Nb. cbn [bind not_null].
  rewrite (Nat.eqb_sym (length nb)).
  replace (length na =? length nb)%nat with false by (symmetry; apply Nat.eqb_neq; lia).
  replace (length na <? length nb)%nat with true by (symmetry; apply Nat.ltb_lt; lia).
  replace (length nb <? length na)%nat with false by (symmetry; apply Nat.ltb_ge; lia).
  split; reflexivity.
Qed.

Lemma compare_fewer_notes_first_witness :
  valid (js "*") = true /\ valid (js "info.user") = true
  /\ note_count (js "*") < note_count (js "info.user")
  /\ compare (js "*") (js "info.user") = Ok (-1)%Z
  /\ compare (js "info.user") (js "*") = Ok 1%Z.
Proof.
  assert (L : note_count (js "*") < note_count (js "info.user")) by (vm_compute; lia).
  split; [vm_compute; reflexivity|]. split; [vm_compute; reflexivity|].
  split; [exact L|].
  apply (@compare_fewer_notes_first (js "*") (js "info.user"));
    [vm_compute; reflexivity|vm_compute; reflexivity|exact L].
Defined.

(** *** [normalize] on short and on invalid input *)

Lemma prepare_eq : forall (r : bool) l h o a',
    nth_error h l = Some o ->
    array_sort (if r then _negFirstSort else _negLastSort) o = Ok a' ->
    prepare r l h = (map_inspect a', h ++ [a']).
Proof.
  intros r l h o a' L S. unfold prepare, array_concat, mbind, load.
  rewrite L. cbn [not_null]. unfold alloc. rewrite app_nil_r.
  rewrite (@sort_in_place_ok _ h o a' S), nth_error_end. cbn [not_null].
  unfold lift. destruct (map_inspect a'); reflexivity.
Qed.

Lemma inspect_error : forall s e, _inspect s = Throw e -> e = InvalidGlob.
Proof.
  intros s e H. unfold _inspect in H. destruct (negb (valid (trim s))); congruence.
Qed.

Lemma map_inspect_invalid : forall l g,
    In g l -> valid (trim g) = false -> map_inspect l = Throw InvalidGlob.
Proof.
  induction l as [|x l IH]; intros g H V; [destruct H|].
  cbn [map_inspect]. destruct (_inspect x) as [o|e] eqn:E.
  - cbn [bind]. destruct H as [-> | H].
    + rewrite (@inspect_invalid g V) in E. discriminate.
    + rewrite (IH g H V). reflexivity.
  - rewrite (@inspect_error _ _ E). reflexivity.
Qed.

(** X24: [normalize] on the empty list gives the empty list; on a
    single glob it gives the empty list when the glob is negated, the glob
    in normal form when it is not, and the invalid-glob error when the
    trimmed glob is not valid. *)
Theorem normalize_short_lists : forall n r,
    normalize_list (S n) [] r = Done (Ok [])
    /\ (forall g, valid (trim g) = true ->
                  normalize_list (S n) [g] r
                  = Done (Ok (if bang (trim g) then []
                              else [removeTrailingWildcards (trim g)])))
    /\ (forall g, valid (trim g) = false ->
                  normalize_list (S n) [g] r = Done (Throw InvalidGlob)).
Proof.
  intros n r. split; [reflexivity|].
  assert (P : forall g, prepare r 0 [[g]] = (map_inspect [g], [[g]] ++ [[g]])).
  { intros g. apply prepare_eq with (o := [g]); reflexivity. }
  split; intros g V; unfold normalize_list; cbn [normalize]; unfold load at 1;
    cbn [nth_error not_null]; rewrite P; cbn [map_inspect].
  - destruct (@inspect_valid _ V) as [o [E [I [_ [_ [_ [_ [Eg _]]]]]]]].
    rewrite (@inspect_trimmed _ V), E. cbn [bind]. unfold alloc, load.
    cbn [length app nth_error not_null fst]. rewrite I, Eg.
    destruct (bang (trim g)); reflexivity.
  - rewrite (@inspect_invalid _ V). reflexivity.
Qed.

Lemma normalize_short_lists_witness :
  valid (trim (js " x.* ")) = true
  /\ normalize_list 1 [js " x.* "] true
     = Done (Ok (if bang (trim (js " x.* ")) then []
                 else [removeTrailingWildcards (trim (js " x.* "))])).
Proof.
  split; [vm_compute; reflexivity|].
  apply (proj1 (proj2 (normalize_short_lists 0 true)) (js " x.* ")).
  vm_compute. reflexivity.
Defined.

(** X25: [normalize] throws the invalid-glob error as soon as one
    item of the list is not a valid glob once trimmed, in both modes. *)
Theorem normalize_rejects_invalid : forall n L r g,
    In g L -> valid (trim g) = false ->
    normalize_list (S n) L r = Done (Throw InvalidGlob).
Proof.
  intros n L r g H V.
  destruct (@array_sort_perm _ (if r then _negFirstSort else _negLastSort)
                             (pre_sort_total r) L) as [sorted [Es P]].
  unfold normalize_list. cbn [normalize]. unfold load at 1. cbn [nth_error not_null].
  destruct L as [|g0 L0]; [destruct H|].
  rewrite (@prepare_eq r 0 [g0 :: L0] (g0 :: L0) sorted eq_refl Es).
  rewrite (@map_inspect_invalid sorted g (Permutation_in g P H) V). reflexivity.
Qed.

Lemma normalize_rejects_invalid_witness :
  In (js "b..c") [js "a"; js "b..c"; js "!d"]
  /\ valid (trim (js "b..c")) = false
  /\ normalize_list 1 [js "a"; js "b..c"; js "!d"] false = Done (Throw InvalidGlob).
Proof.
  assert (H : In (js "b..c") [js "a"; js "b..c"; js "!d"]) by (right; left; reflexivity).
  split; [exact H|]. split; [vm_compute; reflexivity|].
  apply (@normalize_rejects_invalid 0 [js "a"; js "b..c"; js "!d"] false (js "b..c") H).
  vm_compute. reflexivity.
Defined.

(** *** The notes of a glob without quotes *)

Lemma star_chr_greedy : forall (A : Type) p (k : jsstring -> option A) x l rest n,
    all_of p l -> (forall c r, rest = c :: r -> p c = false) -> k rest = Some x ->
    length l <= n ->
    star_loop (fun s0 k0 => exec (Chr p) s0 k0) k n (l ++ rest) = Some x.
Proof.
  intros A p k x l rest n F. revert n. induction F as [|c l C F IH]; intros n R K L.
  - cbn [app]. destruct n as [|n]; [exact K|]. cbn [star_loop].
    destruct rest as [|c r].
    + rewrite exec_chr_nil. exact K.
    + rewrite exec_chr_cons, (R c r eq_refl). exact K.
  - destruct n as [|n]; [cbn in L; lia|]. cbn [star_loop app].
    rewrite exec_chr_cons, C.
    replace (length (l ++ rest) <? length (c :: l ++ rest))%nat with true
      by (symmetry; apply Nat.ltb_lt; cbn; lia).
    rewrite IH; [reflexivity|assumption|assumption|cbn in L; lia].
Qed.

Lemma quoteless_app : forall a b, quoteless (a ++ b) = quoteless a && quoteless b.
Proof. intros a b. apply forallb_app. Qed.

Lemma stops_not_var : forall rest c r, stops rest -> rest = c :: r -> is_var_char c = false.
Proof. intros rest c r S ->. destruct S as [-> | ->]; reflexivity. Qed.

Lemma token_first : forall t rest,
    note_shape t -> quoteless t = true -> stops rest ->
    exec reMATCHER (t ++ rest) (fun r => Some r) = Some rest.
Proof.
  intros t rest N Q S. destruct N as [|t V|t B].
  - reflexivity.
  - destruct V as [c l C F]. unfold reMATCHER. rewrite exec_alt.
    assert (X : is_char "[" c = false).
    { destruct (is_char "[" c) eqn:X; [|reflexivity].
      unfold is_char in X. apply Ascii.eqb_eq in X. subst c. discriminate C. }
    replace (exec bracket ((c :: l) ++ rest) (fun r => Some r)) with (@None jsstring)
      by (unfold bracket, chr; rewrite exec_seq; cbn [app]; rewrite exec_chr_cons, X; reflexivity).
    rewrite exec_alt. unfold var_. rewrite exec_seq. cbn [app].
    rewrite exec_chr_cons, C, exec_star.
    rewrite star_chr_greedy with (x := rest); try assumption; try reflexivity.
    + intros c' r E. apply (@stops_not_var rest c' r S E).
    + rewrite length_app. lia.
  - destruct B as [|c l C F|q body Q' F].
    + reflexivity.
    + unfold reMATCHER, bracket, chr. rewrite exec_alt, exec_seq. cbn [app].
      rewrite exec_chr_cons. replace (is_char "[" "[") with true by reflexivity.
      rewrite exec_seq, exec_alt. unfold digits, Plus. rewrite exec_seq, exec_chr_cons, C.
      rewrite exec_star. rewrite <- app_assoc.
      rewrite star_chr_greedy with (x := rest); try assumption; try reflexivity.
      * intros c' r E. cbn in E. injection E as <- _. reflexivity.
      * rewrite length_app. lia.
    + exfalso. destruct Q' as [-> | ->]; cbn in Q; discriminate Q.
Qed.

Lemma dot_no_token : forall (A : Type) s (k : jsstring -> option A),
    exec reMATCHER ("."%char :: s) k = None.
Proof. reflexivity. Qed.

Lemma tails_stop : forall ts, Forall tail_shape ts -> stops (concat ts).
Proof.
  intros ts F. destruct F as [|t ts T _]; [exact I|].
  destruct T as [t B| |].
  - destruct B; cbn; auto.
  - cbn. auto.
  - cbn. auto.
Qed.

Lemma note_nonempty : forall t, note_shape t -> 0 < length t.
Proof.
  intros t N. destruct (@note_shape_no_bang t N) as [_ NE].
  destruct t; [congruence|cbn; lia].
Qed.

Lemma tails_tokens : forall ts n,
    Forall tail_shape ts -> quoteless (concat ts) = true -> length (concat ts) <= n ->
    match_all_from reMATCHER n (concat ts) = map untail ts.
Proof.
  induction ts as [|t ts IH]; intros n F Q L.
  - destruct n; reflexivity.
  - inversion F as [|? ? T F']; subst. cbn [concat] in *.
    rewrite quoteless_app in Q. apply andb_prop in Q. destruct Q as [Qt Qr].
    rewrite length_app in L.
    pose proof (@tails_stop ts F') as St.
    assert (Step : forall u m, note_shape u -> quoteless u = true ->
                               length u + length (concat ts) <= m ->
                               match_all_from reMATCHER m (u ++ concat ts)
                               = u :: map untail ts).
    { intros u m Nu Qu Lm. pose proof (@note_nonempty u Nu) as P.
      destruct m as [|m]; [lia|]. cbn [match_all_from].
      rewrite (@token_first u (concat ts) Nu Qu St).
      replace (length (concat ts) <? length (u ++ concat ts))%nat with true
        by (symmetry; apply Nat.ltb_lt; rewrite length_app; lia).
      rewrite consumed_app, IH; [reflexivity|assumption|assumption|lia]. }
    destruct T as [t B|t V|].
    + cbn [map]. replace (untail t) with t by (destruct B; reflexivity).
      apply Step; [apply shape_bracket; assumption|assumption|assumption].
    + destruct n as [|n]; [cbn in L; lia|].
      cbn [match_all_from app]. rewrite dot_no_token. cbn [map untail].
      replace (is_char "." ".") with true by reflexivity.
      apply Step; [apply shape_name; assumption| |cbn in L; lia].
      cbn in Qt. exact Qt.
    + destruct n as [|n]; [cbn in L; lia|].
      change (js ".*" ++ concat ts) with ("."%char :: js "*" ++ concat ts).
      cbn [match_all_from]. rewrite dot_no_token.
      change (map untail (js ".*" :: ts)) with (js "*" :: map untail ts).
      apply Step; [apply shape_any|reflexivity|cbn in L; cbn; lia].
Qed.

Lemma body_tokens : forall h ts,
    note_shape h -> Forall tail_shape ts -> quoteless (h ++ concat ts) = true ->
    match_g reMATCHER (h ++ concat ts) = Some (h :: map untail ts).
Proof.
  intros h ts N F Q. rewrite quoteless_app in Q. apply andb_prop in Q.
  destruct Q as [Qh Qt]. unfold match_g. cbn [match_all_from].
  rewrite (@token_first h (concat ts) N Qh (@tails_stop ts F)).
  pose proof (@note_nonempty h N) as P.
  replace (length (concat ts) <? length (h ++ concat ts))%nat with true
    by (symmetry; apply Nat.ltb_lt; rewrite length_app; lia).
  rewrite consumed_app, tails_tokens; [reflexivity|assumption|assumption|].
  rewrite length_app. lia.
Qed.

Lemma tail_untail : forall t,
    tail_shape t ->
    untail t <> [] /\
    (match untail t with
     | x :: _ => if is_char "[" x then [] else js "."
     | [] => js "."
     end) ++ untail t = t.
Proof.
  intros t T. destruct T as [t B|t V|].
  - destruct B; split; try discriminate; reflexivity.
  - destruct V as [c l C _]. cbn [untail]. replace (is_char "." ".") with true by reflexivity.
    split; [discriminate|].
    replace (is_char "[" c) with false; [reflexivity|].
    symmetry. destruct (is_char "[" c) eqn:X; [|reflexivity].
    unfold is_char in X. apply Ascii.eqb_eq in X. subst c. discriminate C.
  - split; [discriminate|reflexivity].
Qed.

Lemma joinNotes_cons : forall a x b y rest,
    joinNotes (Some (a :: x) :: Some (b :: y) :: rest)
    = ((a :: x) ++ (if is_char "[" b then [] else js "."))
        ++ joinNotes (Some (b :: y) :: rest).
Proof. reflexivity. Qed.

Lemma join_tokens : forall ts x,
    x <> [] -> Forall tail_shape ts ->
    joinNotes (map Some (x :: map untail ts)) = x ++ concat ts.
Proof.
  induction ts as [|t ts IH]; intros x X F.
  - cbn. destruct x; [congruence|]. cbn. rewrite !app_nil_r. reflexivity.
  - inversion F as [|? ? T F']; subst.
    destruct (@tail_untail t T) as [U E].
    pose proof (IH (untail t) U F') as H. cbn [map] in H |- *.
    destruct x as [|x0 x]; [congruence|].
    destruct (untail t) as [|u0 u] eqn:Eu; [congruence|].
    rewrite joinNotes_cons, H. cbn [concat]. rewrite <- E.
    rewrite <- !app_assoc. reflexivity.
Qed.

Lemma retail_tail : forall t,
    note_shape t -> tail_shape (retail t) /\ untail (retail t) = t.
Proof.
  intros t N. destruct N as [|t V|t B].
  - split; [apply tail_any|reflexivity].
  - destruct V as [c l C F]. cbn [retail].
    replace (is_char "[" c) with false.
    + split; [apply tail_name; constructor; assumption|reflexivity].
    + symmetry. destruct (is_char "[" c) eqn:X; [|reflexivity].
      unfold is_char in X. apply Ascii.eqb_eq in X. subst c. discriminate C.
  - assert (R : retail t = t) by (destruct B; reflexivity).
    rewrite R. split; [apply tail_bracket; assumption|destruct B; reflexivity].
Qed.

Lemma retail_quoteless : forall t, quoteless t = true -> quoteless (retail t) = true.
Proof.
  intros [|c t] Q; [reflexivity|]. cbn [retail]. destruct (is_char "[" c); [assumption|].
  exact Q.
Qed.

Lemma retails : forall ns,
    Forall note_shape ns -> Forall (fun t => quoteless t = true) ns ->
    Forall tail_shape (map retail ns) /\ map untail (map retail ns) = ns
    /\ quoteless (concat (map retail ns)) = true.
Proof.
  induction ns as [|t ns IH]; intros F Q.
  - repeat split; constructor.
  - inversion F; inversion Q; subst. destruct IH as [I1 [I2 I3]]; try assumption.
    destruct (@retail_tail t) as [T U]; [assumption|].
    cbn [map concat]. rewrite quoteless_app, I3, U, I2, retail_quoteless by assumption.
    repeat split. constructor; assumption.
Qed.

Lemma split_plain_body : forall s (n : bool),
    glob_body s -> (n = true -> removeTrailingWildcards s = s) ->
    split s n = Ok (match_g reMATCHER s).
Proof.
  intros s n G R. unfold split. rewrite (@glob_body_valid s G).
  destruct (@glob_body_no_bang s G) as [B _]. rewrite B. cbn [negb andb].
  destruct n; [rewrite R by reflexivity|]; rewrite B; reflexivity.
Qed.

Lemma join_plain : forall ns,
    ns <> [] -> Forall note_shape ns -> Forall (fun t => quoteless t = true) ns ->
    glob_body (joinNotes (map Some ns))
    /\ quoteless (joinNotes (map Some ns)) = true
    /\ split (joinNotes (map Some ns)) false = Ok (Some ns).
Proof.
  intros ns NE F Q. destruct ns as [|h ns]; [congruence|].
  inversion F; inversion Q; subst.
  destruct (@retails ns) as [T [U Qc]]; try assumption.
  assert (J : joinNotes (map Some (h :: ns)) = h ++ concat (map retail ns)).
  { rewrite <- U at 1. apply join_tokens; [|assumption].
    apply note_shape_no_bang. assumption. }
  assert (G : glob_body (h ++ concat (map retail ns))) by (exists h, (map retail ns); auto).
  assert (Qj : quoteless (h ++ concat (map retail ns)) = true).
  { rewrite quoteless_app, Qc, andb_true_r. assumption. }
  rewrite J. split; [assumption|]. split; [assumption|].
  rewrite split_plain_body; [|assumption|discriminate].
  rewrite body_tokens, U; try assumption. reflexivity.
Qed.

(** X7: [split] and [joinNotes] are inverse to each other on globs
    without quotes: joining the notes of a valid glob gives the glob back
    (without its bang), and splitting the join of notes gives the notes
    back.  With quotes this may fail: the greedy bracket of the matcher
    takes two brackets for one. *)
Theorem split_join_round_trip :
  (forall g, valid g = true -> quoteless g = true ->
             exists ns, split g false = Ok (Some ns)
                        /\ joinNotes (map Some ns) = (if bang g then tl g else g))
  /\ (forall ns, ns <> [] -> Forall note_shape ns ->
                 Forall (fun t => quoteless t = true) ns ->
                 split (joinNotes (map Some ns)) false = Ok (Some ns))
  /\ (let g := js "[" ++ DQ :: js "a" ++ DQ :: js "]['x" ++ DQ :: js "]y']" in
      valid g = true
      /\ split g false = Ok (Some [js "[" ++ DQ :: js "a" ++ DQ :: js "]['x" ++ DQ :: js "]";
                                   js "y"])
      /\ joinNotes [Some (js "[" ++ DQ :: js "a" ++ DQ :: js "]['x" ++ DQ :: js "]");
                    Some (js "y")] <> g).
Proof.
  split; [|split].
  - intros g V Q.
    assert (G : glob_body (if bang g then tl g else g)).
    { destruct (bang g) eqn:B; [apply valid_negated|apply valid_body]; assumption. }
    assert (Q' : quoteless (if bang g then tl g else g) = true).
    { destruct (bang g); [|assumption]. destruct g; [reflexivity|].
      cbn in Q. apply andb_prop in Q. apply Q. }
    destruct G as [h [ts [E [N F]]]]. rewrite E in Q'.
    exists (h :: map untail ts). split.
    + unfold split. rewrite V. cbn [negb andb]. rewrite andb_false_r.
      rewrite E, (@body_tokens h ts N F Q'). reflexivity.
    + rewrite E. apply join_tokens; [|assumption].
      apply note_shape_no_bang. assumption.
  - intros ns NE F Q. apply join_plain; assumption.
  - cbv zeta. split; [vm_compute; reflexivity|]. split; [vm_compute; reflexivity|].
    vm_compute. discriminate.
Qed.

Lemma split_join_round_trip_witness :
  valid (js "!a.b[0].*") = true /\ quoteless (js "!a.b[0].*") = true
  /\ exists ns, split (js "!a.b[0].*") false = Ok (Some ns)
                /\ joinNotes (map Some ns)
                   = (if bang (js "!a.b[0].*") then tl (js "!a.b[0].*") else js "!a.b[0].*").
Proof.
  split; [vm_compute; reflexivity|]. split; [vm_compute; reflexivity|].
  apply (proj1 split_join_round_trip (js "!a.b[0].*")); vm_compute; reflexivity.
Defined.

(** *** The intersection of a glob with itself *)

Lemma strip_quoteless : forall s,
    quoteless s = true -> quoteless (removeTrailingWildcards s) = true.
Proof.
  intros s Q. unfold removeTrailingWildcards.
  destruct (exec_group TRAIL_pre TRAIL_g1 TRAIL_post s) as [x|] eqn:E; [|assumption].
  apply trail_match in E. destruct E as [_ [_ [ws [_ [_ E]]]]].
  rewrite E, quoteless_app in Q. apply andb_prop in Q. apply Q.
Qed.

Lemma intersect_loop_same : forall ns n i acc,
    i + n = length ns ->
    intersect_loop ns ns i n acc = Some (acc ++ map Some (skipn i ns)).
Proof.
  intros ns. induction n as [|n IH]; intros i acc L.
  - cbn [intersect_loop]. rewrite skipn_all2 by lia. rewrite app_nil_r. reflexivity.
  - cbn [intersect_loop].
    destruct (nth_error ns i) as [a|] eqn:E.
    + cbn [strict_eq]. rewrite streq_refl, IH by lia.
      rewrite <- app_assoc. f_equal. f_equal.
      clear - E. revert i E. induction ns as [|x ns IH]; intros [|i] E; try discriminate.
      * injection E as ->. reflexivity.
      * cbn [skipn]. apply (IH i E).
    + apply nth_error_None in E. lia.
Qed.

Lemma body_parts : forall g,
    valid g = true -> quoteless g = true ->
    exists h ts,
      note_shape h /\ Forall tail_shape ts /\ quoteless (h ++ concat ts) = true
      /\ (if bang g then tl g else removeTrailingWildcards g) = h ++ concat ts.
Proof.
  intros g V Q.
  assert (G : glob_body (if bang g then tl g else removeTrailingWildcards g)).
  { destruct (bang g) eqn:B; [apply valid_negated|apply strip_body, valid_body]; assumption. }
  assert (Q' : quoteless (if bang g then tl g else removeTrailingWildcards g) = true).
  { destruct (bang g); [|apply strip_quoteless; assumption]. destruct g; [reflexivity|].
    cbn in Q. apply andb_prop in Q. apply Q. }
  destruct G as [h [ts [E [N F]]]]. exists h, ts. rewrite E in Q'. auto.
Qed.

Lemma bang_cons : forall g, bang g = true -> g = "!"%char :: tl g.
Proof.
  intros [|c g] B; [discriminate|]. cbn in B. unfold is_char in B.
  apply Ascii.eqb_eq in B. subst c. reflexivity.
Qed.

Lemma split_true_plain : forall g h ts,
    valid g = true -> note_shape h -> Forall tail_shape ts ->
    quoteless (h ++ concat ts) = true ->
    (if bang g then tl g else removeTrailingWildcards g) = h ++ concat ts ->
    split g true = Ok (Some (h :: map untail ts)).
Proof.
  intros g h ts V N F Q E. unfold split. rewrite V. cbn [negb].
  destruct (bang g) eqn:B; cbn [negb andb].
  - rewrite B, E, body_tokens by assumption. reflexivity.
  - assert (B' : bang (removeTrailingWildcards g) = false).
    { rewrite E. apply glob_body_no_bang. exists h, ts. auto. }
    rewrite B', E, body_tokens by assumption. reflexivity.
Qed.

(** X16: the intersection of a valid glob without quotes with
    itself is the glob in its normal form, in both modes. *)
Theorem intersect_with_itself : forall g r,
    valid g = true -> quoteless g = true ->
    _intersect g g r = Ok (Some (if bang g then g else removeTrailingWildcards g)).
Proof.
  intros g r V Q. destruct (@body_parts g V Q) as [h [ts [N [F [Q' E]]]]].
  unfold _intersect. rewrite (@split_true_plain g h ts V N F Q' E).
  cbn [bind not_null]. rewrite Nat.max_id.
  rewrite intersect_loop_same by reflexivity. cbn [app skipn].
  change (Some h :: map Some (map untail ts)) with (map Some (h :: map untail ts)).
  rewrite join_tokens; [|apply note_shape_no_bang; assumption|assumption].
  cbn [map]. rewrite Nat.ltb_irrefl, andb_false_l, orb_false_r, orb_diag.
  replace (if r then bang g else if bang g && bang g then true else false)
    with (bang g) by (destruct r, (bang g); reflexivity).
  destruct (bang g) eqn:B.
  - rewrite <- E. f_equal. f_equal. symmetry. apply bang_cons. assumption.
  - rewrite E. reflexivity.
Qed.

Lemma intersect_with_itself_witness :
  valid (js "a.b.*") = true /\ quoteless (js "a.b.*") = true
  /\ _intersect (js "a.b.*") (js "a.b.*") false
     = Ok (Some (if bang (js "a.b.*") then js "a.b.*"
                 else removeTrailingWildcards (js "a.b.*"))).
Proof.
  split; [vm_compute; reflexivity|]. split; [vm_compute; reflexivity|].
  apply (@intersect_with_itself (js "a.b.*") false); vm_compute; reflexivity.
Defined.

(** *** The parent of a glob *)

Lemma tail_sep : forall t,
    tail_shape t ->
    exists sep, sep ++ untail t = t /\ untail t <> [] /\ (sep = [] \/ sep = js ".").
Proof.
  intros t T. destruct T as [t B|t V|].
  - exists []. destruct B; repeat split; try discriminate; auto.
  - exists (js "."). repeat split; [destruct V; discriminate|auto].
  - exists (js "."). repeat split; [discriminate|auto].
Qed.

Lemma Glob_new_plain : forall g h ts,
    valid g = true -> note_shape h -> Forall tail_shape ts ->
    quoteless (h ++ concat ts) = true ->
    (if bang g then tl g else removeTrailingWildcards g) = h ++ concat ts ->
    Glob_new g = Ok {| glob := if bang g then g else h ++ concat ts;
                       absGlob := h ++ concat ts;
                       isNegated := bang g;
                       isArrayGlob := test_anchored ARRAY_ROOT (h ++ concat ts);
                       notes := Some (h :: map untail ts) |}.
Proof.
  intros g h ts V N F Q E.
  assert (G : glob_body (h ++ concat ts)) by (exists h, ts; auto).
  unfold Glob_new, _inspect. rewrite (@valid_trim g V), V. cbn [negb bind absGlob].
  destruct (bang g) eqn:B; cbn [negb] in *; rewrite E;
    rewrite (@split_plain_body (h ++ concat ts) false G) by discriminate;
    rewrite (@body_tokens h ts N F Q); reflexivity.
Qed.

Lemma firstn_drop_end : forall (a b : jsstring),
    firstn (length (a ++ b) - length b) (a ++ b) = a.
Proof.
  intros a b. rewrite length_app. replace (length a + length b - length b) with (length a) by lia.
  rewrite firstn_app, Nat.sub_diag, firstn_all. cbn. apply app_nil_r.
Qed.

Lemma strip_final_dot_snoc : forall m x,
    strip_final_dot (m ++ [x]) = if is_char "." x then m else m ++ [x].
Proof.
  intros m x. unfold strip_final_dot. rewrite rev_app_distr. cbn [rev app].
  destruct (is_char "." x); [apply rev_involutive|reflexivity].
Qed.

Lemma shape_last : forall t,
    note_shape t \/ tail_shape t -> exists m x, t = m ++ [x] /\ is_char "." x = false.
Proof.
  assert (V : forall t, var_shape t -> exists m x, t = m ++ [x] /\ is_char "." x = false).
  { intros t H. destruct (@var_shape_end t H) as [t' [x [-> C]]]. exists t', x.
    split; [reflexivity|]. destruct (@var_char_facts x C) as [_ [_ [_ [_ [_ D]]]]].
    unfold is_char. apply Ascii.eqb_neq. congruence. }
  assert (B : forall t, bracket_shape t -> exists m x, t = m ++ [x] /\ is_char "." x = false).
  { intros t H. destruct (@bracket_shape_end t H) as [u [x [-> _]]].
    exists ("["%char :: u ++ [x]), "]"%char. cbn [app]. rewrite <- app_assoc.
    split; reflexivity. }
  intros t [N|T].
  - destruct N as [|t H|t H]; [exists [], "*"%char; split; reflexivity|apply V|apply B]; assumption.
  - destruct T as [t H|t H|].
    + apply B. assumption.
    + destruct (V t H) as [m [x [-> X]]]. exists ("."%char :: m), x. auto.
    + exists (js "."), "*"%char. split; reflexivity.
Qed.

Lemma body_last : forall h ts,
    note_shape h -> Forall tail_shape ts ->
    exists m x, h ++ concat ts = m ++ [x] /\ is_char "." x = false.
Proof.
  intros h ts N F. destruct ts as [|t ts] using rev_ind.
  - cbn. rewrite app_nil_r. apply shape_last. auto.
  - apply Forall_app in F. destruct F as [_ F]. inversion F; subst.
    destruct (@shape_last t) as [m [x [-> X]]]; [auto|].
    exists (h ++ concat ts ++ m), x. rewrite concat_snoc, <- !app_assoc. auto.
Qed.

Lemma last_note_snoc : forall (l : list jsstring) x, last_note (l ++ [x]) = Some x.
Proof.
  intros l x. unfold last_note. rewrite length_app. cbn [length].
  replace (length l + 1 - 1) with (length l) by lia. apply nth_error_end.
Qed.

Lemma parent_plain : forall o h ts,
    absGlob o = h ++ concat ts -> notes o = Some (h :: map untail ts) ->
    note_shape h -> Forall tail_shape ts ->
    Glob_parent o = Ok (match ts with
                        | [] => None
                        | _ :: _ => Some (h ++ concat (removelast ts))
                        end).
Proof.
  intros o h ts A N Nh F. unfold Glob_parent. rewrite N. cbn [bind not_null length].
  destruct ts as [|t0 ts0]; [reflexivity|].
  replace (1 <? S (length (map untail (t0 :: ts0))))%nat with true by reflexivity.
  destruct (@exists_last _ (t0 :: ts0)) as [ts [t E]]; [discriminate|].
  rewrite E in *. clear E t0 ts0.
  apply Forall_app in F. destruct F as [F Ft]. inversion Ft as [|? ? T _]; subst.
  rewrite map_app. cbn [map].
  change (h :: map untail ts ++ [untail t]) with ((h :: map untail ts) ++ [untail t]).
  rewrite last_note_snoc. cbn [bind not_null].
  destruct (@tail_sep t T) as [sep [E [U S]]].
  replace (length (untail t) =? 0)%nat with false
    by (symmetry; apply Nat.eqb_neq; destruct (untail t); [congruence|discriminate]).
  rewrite removelast_last, A, concat_snoc.
  assert (C : firstn (length (h ++ concat ts ++ t) - length (untail t)) (h ++ concat ts ++ t)
              = h ++ concat ts ++ sep).
  { assert (E' : h ++ concat ts ++ t = (h ++ concat ts ++ sep) ++ untail t)
      by (rewrite <- !app_assoc, E; reflexivity).
    rewrite E'. exact (firstn_drop_end (h ++ concat ts ++ sep) (untail t)). }
  rewrite C. f_equal. f_equal.
  destruct S as [-> | ->].
  - rewrite app_nil_r.
    destruct (@body_last h ts Nh F) as [m [x [-> X]]].
    pose proof (strip_final_dot_snoc m x) as Z. rewrite X in Z. exact Z.
  - rewrite app_assoc. exact (strip_final_dot_snoc (h ++ concat ts) "."%char).
Qed.

Lemma map_untail_removelast : forall ts,
    removelast (map untail ts) = map untail (removelast ts).
Proof.
  induction ts as [|t ts IH]; [reflexivity|].
  destruct ts as [|t' ts]; [reflexivity|].
  change (removelast (t :: t' :: ts)) with (t :: removelast (t' :: ts)).
  cbn [map]. cbn [map] in IH. rewrite <- IH. reflexivity.
Qed.

(** X8: for a valid glob without quotes, [parent] is null when
    the glob has one note, and otherwise the join of all notes but the last
    one, which is a valid glob with those notes. *)
Theorem parent_drops_last_note : forall g,
    valid g = true -> quoteless g = true ->
    exists o ns,
      Glob_new g = Ok o /\ notes o = Some ns
      /\ (length ns = 1 -> Glob_parent o = Ok None)
      /\ (1 < length ns ->
          Glob_parent o = Ok (Some (joinNotes (map Some (removelast ns))))
          /\ split (joinNotes (map Some (removelast ns))) false
             = Ok (Some (removelast ns))).
Proof.
  intros g V Q. destruct (@body_parts g V Q) as [h [ts [N [F [Q' E]]]]].
  eexists. exists (h :: map untail ts).
  split; [apply (@Glob_new_plain g h ts V N F Q' E)|].
  split; [reflexivity|].
  rewrite parent_plain with (h := h) (ts := ts); try reflexivity; try assumption.
  split.
  - intros L. destruct ts; [reflexivity|discriminate L].
  - intros L. destruct ts as [|t0 ts0]; [cbn in L; lia|].
    destruct (@exists_last _ (t0 :: ts0)) as [ts1 [t E1]]; [discriminate|].
    assert (R : removelast (h :: map untail (t0 :: ts0)) = h :: map untail ts1).
    { rewrite E1.
      assert (C : forall (x : jsstring) l, l <> [] -> removelast (x :: l) = x :: removelast l)
        by (intros x [|y l] H; [congruence|reflexivity]).
      rewrite C, map_untail_removelast, removelast_last; [reflexivity|].
      rewrite map_app. destruct (map untail ts1); discriminate. }
    rewrite R, E1, removelast_last. rewrite E1 in *.
    apply Forall_app in F. destruct F as [F1 _].
    rewrite concat_snoc, app_assoc, quoteless_app in Q'. apply andb_prop in Q'.
    destruct Q' as [Q1 _].
    rewrite join_tokens; [|apply note_shape_no_bang; assumption|assumption].
    split; [reflexivity|].
    rewrite split_plain_body; [|exists h, ts1; auto|discriminate].
    rewrite body_tokens by assumption. reflexivity.
Qed.

Lemma parent_drops_last_note_witness :
  valid (js "*.x.*") = true /\ quoteless (js "*.x.*") = true
  /\ exists o ns,
      Glob_new (js "*.x.*") = Ok o /\ notes o = Some ns
      /\ (length ns = 1 -> Glob_parent o = Ok None)
      /\ (1 < length ns ->
          Glob_parent o = Ok (Some (joinNotes (map Some (removelast ns))))
          /\ split (joinNotes (map Some (removelast ns))) false
             = Ok (Some (removelast ns))).
Proof.
  split; [vm_compute; reflexivity|]. split; [vm_compute; reflexivity|].
  apply (@parent_drops_last_note (js "*.x.*")); vm_compute; reflexivity.
Defined.

(** *** [compare] and [sort] on globs without quotes *)

Lemma covers_match_total : forall p q,
    glob_body p -> glob_body q -> exists c, _covers (inl p) (inl q) true = Ok c.
Proof.
  intros p q Gp Gq.
  destruct (@Glob_new_valid p (@glob_body_valid p Gp)) as [a [na [Ea [Na [_ [Fa _]]]]]].
  destruct (@Glob_new_valid q (@glob_body_valid q Gq)) as [b [nb [Eb [Nb [_ [Fb _]]]]]].
  unfold _covers, glob_arg. rewrite Ea, Eb. cbn [bind].
  unfold covers_obj, notes_of. rewrite Na, Nb. cbn [bind negb andb].
  destruct (@matches_loop_sym na nb Fa Fb) as [c [E _]]. eauto.
Qed.

Lemma Forall_removelast : forall (A : Type) (P : A -> Prop) l,
    Forall P l -> Forall P (removelast l).
Proof.
  intros A P l F. destruct l as [|x l]; [constructor|].
  destruct (@exists_last _ (x :: l)) as [l' [y E]]; [discriminate|].
  rewrite E in *. rewrite removelast_last. apply Forall_app in F. apply F.
Qed.

Lemma last_note_cons : forall (h : jsstring) l, exists x, last_note (h :: l) = Some x.
Proof.
  intros h l. destruct (@exists_last _ (h :: l)) as [l' [y E]]; [discriminate|].
  rewrite E. exists y. apply last_note_snoc.
Qed.

Lemma compArrIdx_sign : forall x y,
    (_compArrIdx x y = -1 \/ _compArrIdx x y = 0 \/ _compArrIdx x y = 1)%Z.
Proof. intros x y. unfold _compArrIdx. destruct (number_gt _ _); auto. Qed.

Ltac top_if :=
  match goal with
  | |- match (if ?c then _ else _) with Ok _ => _ | Throw _ => _ end => destruct c
  end.

Lemma items_total : forall a b ha tsa hb tsb,
    absGlob a = ha ++ concat tsa -> notes a = Some (ha :: map untail tsa) ->
    note_shape ha -> Forall tail_shape tsa ->
    absGlob b = hb ++ concat tsb -> notes b = Some (hb :: map untail tsb) ->
    note_shape hb -> Forall tail_shape tsb ->
    match _compareArrayItemGlobs a b with
    | Ok z => (z = -1 \/ z = 0 \/ z = 1)%Z
    | Throw _ => False
    end.
Proof.
  intros a b ha tsa hb tsb Aa Na Ha Fa Ab Nb Hb Fb.
  unfold _compareArrayItemGlobs.
  destruct (negb (isNegated a)); [auto|].
  destruct (negb (isNegated b)); [auto|].
  rewrite Na, Nb. cbn [bind not_null]. cbv beta zeta.
  destruct (last_note_cons ha (map untail tsa)) as [la La].
  destruct (last_note_cons hb (map untail tsb)) as [lb Lb].
  unfold jsstring in *. rewrite La, Lb.
  top_if; [auto|]. top_if; [auto|]. top_if; [auto|].
  cbn [bind not_null].
  rewrite (@parent_plain a ha tsa Aa Na Ha Fa), (@parent_plain b hb tsb Ab Nb Hb Fb).
  cbn [bind].
  destruct tsa as [|ta tsa]; cbn [truthy]; [apply compArrIdx_sign|].
  destruct (ha ++ concat (removelast (ta :: tsa))) as [|c0 pa] eqn:Epa;
    [apply compArrIdx_sign|].
  destruct tsb as [|tb tsb]; cbn [truthy]; [apply compArrIdx_sign|].
  destruct (hb ++ concat (removelast (tb :: tsb))) as [|c1 pb] eqn:Epb;
    [apply compArrIdx_sign|].
  destruct (@covers_match_total (c0 :: pa) (c1 :: pb)) as [c E].
  - rewrite <- Epa. exists ha, (removelast (ta :: tsa)).
    split; [reflexivity|]. split; [assumption|apply Forall_removelast; assumption].
  - rewrite <- Epb. exists hb, (removelast (tb :: tsb)).
    split; [reflexivity|]. split; [assumption|apply Forall_removelast; assumption].
  - unfold jsstring in *. rewrite E. cbn [bind].
    destruct c; [apply compArrIdx_sign|auto].
Qed.

Lemma compare_sign : forall A B,
    valid A = true -> quoteless A = true -> valid B = true -> quoteless B = true ->
    match compare A B with
    | Ok z => (z = -1 \/ z = 0 \/ z = 1)%Z
    | Throw _ => False
    end.
Proof.
  intros A B VA QA VB QB.
  destruct (@body_parts A VA QA) as [ha [tsa [Ha [Fa [Qa Ea]]]]].
  destruct (@body_parts B VB QB) as [hb [tsb [Hb [Fb [Qb Eb]]]]].
  unfold compare.
  destruct (streq A B || test_anchored WILDCARD A && test_anchored WILDCARD B); [auto|].
  rewrite (@Glob_new_plain A ha tsa VA Ha Fa Qa Ea), (@Glob_new_plain B hb tsb VB Hb Fb Qb Eb).
  cbn [bind not_null notes].
  destruct (length (ha :: map untail tsa) =? length (hb :: map untail tsb))%nat.
  - match goal with |- context [_compareArrayItemGlobs ?a ?b] =>
      pose proof (@items_total a b ha tsa hb tsb eq_refl eq_refl Ha Fa eq_refl eq_refl Hb Fb)
        as S; destruct (_compareArrayItemGlobs a b) as [z|e]; [|destruct S]
    end.
    cbn [bind]. destruct (negb (z =? 0)%Z); [exact S|].
    cbn [absGlob isNegated].
    repeat match goal with |- context [if ?c then _ else _] => destruct c end; auto.
  - destruct (length (ha :: map untail tsa) <? length (hb :: map untail tsb))%nat; auto.
Qed.

Lemma compare_total : forall A B,
    valid A = true -> quoteless A = true -> valid B = true -> quoteless B = true ->
    exists z, compare A B = Ok z /\ (z = -1 \/ z = 0 \/ z = 1)%Z.
Proof.
  intros A B VA QA VB QB. pose proof (@compare_sign A B VA QA VB QB) as S.
  destruct (compare A B) as [z|e]; [eauto|destruct S].
Qed.

Section SortOn.
Variable T : Type.
Variable comparefn : T -> T -> res Z.
Variable P : T -> Prop.
Hypothesis total_on : forall x y, P x -> P y -> exists z, comparefn x y = Ok z.

Lemma sort_insert_on : forall x l,
    P x -> Forall P l ->
    exists s, sort_insert comparefn x l = Ok s /\ Permutation (x :: l) s.
Proof.
  intros x l Px. induction l as [|y l IH]; intros F; cbn [sort_insert].
  - exists [x]. split; [reflexivity|apply Permutation_refl].
  - inversion F as [|? ? Py F']; subst.
    destruct (total_on Px Py) as [z Ez]. rewrite Ez. cbn [bind].
    destruct (z <? 0)%Z.
    + eexists. split; [reflexivity|apply Permutation_refl].
    + destruct (IH F') as [s [E Q]]. rewrite E. cbn [bind].
      eexists. split; [reflexivity|].
      eapply Permutation_trans; [apply perm_swap|]. apply perm_skip. exact Q.
Qed.

Lemma sort_into_on : forall l sorted,
    Forall P sorted -> Forall P l ->
    exists s, sort_into comparefn sorted l = Ok s /\ Permutation (sorted ++ l) s.
Proof.
  induction l as [|x l IH]; intros sorted Fs Fl; cbn [sort_into].
  - exists sorted. split; [reflexivity|]. rewrite app_nil_r. apply Permutation_refl.
  - inversion Fl as [|? ? Px Fl']; subst.
    destruct (sort_insert_on Px Fs) as [s1 [E1 P1]]. rewrite E1. cbn [bind].
    destruct (IH s1) as [s [E Q]]; [|assumption|].
    + apply (Permutation_Forall P1). constructor; assumption.
    + exists s. split; [exact E|].
      eapply Permutation_trans; [|exact Q].
      eapply Permutation_trans; [apply Permutation_sym; apply Permutation_middle|].
      change (x :: sorted ++ l) with ((x :: sorted) ++ l).
      apply Permutation_app_tail. exact P1.
Qed.

Lemma array_sort_on : forall l,
    Forall P l -> exists s, array_sort comparefn l = Ok s /\ Permutation l s.
Proof. intros l F. apply (@sort_into_on l [] (Forall_nil P) F). Qed.
End SortOn.

Lemma update_same : forall h l a (x : list jsstring),
    nth_error h l = Some x -> nth_error (update h l a) l = Some a.
Proof.
  induction h as [|y h IH]; intros [|l] a x H; try discriminate; [reflexivity|].
  cbn [update nth_error]. apply (IH l a x H).
Qed.

Lemma update_other : forall h l a l',
    l' <> l -> nth_error (update h l a) l' = nth_error h l'.
Proof.
  induction h as [|y h IH]; intros [|l] a [|l'] H; try reflexivity; try congruence.
  cbn [update nth_error]. apply IH. congruence.
Qed.

(** X23: [Glob.sort] on an array of valid globs without quotes
    returns the array it was given, which then holds a permutation of its
    former contents; every other array is left as it was. *)
Theorem sort_reorders_in_place : forall h l L,
    nth_error h l = Some L ->
    Forall (fun g => valid g = true /\ quoteless g = true) L ->
    exists s, Glob_sort l h = (Ok l, update h l s)
              /\ Permutation L s
              /\ nth_error (update h l s) l = Some s
              /\ forall l', l' <> l -> nth_error (update h l s) l' = nth_error h l'.
Proof.
  intros h l L E F.
  destruct (@array_sort_on _ compare (fun g => valid g = true /\ quoteless g = true)) with (l := L)
    as [s [Es Ps]]; [|assumption|].
  - intros x y [Vx Qx] [Vy Qy]. destruct (@compare_total x y Vx Qx Vy Qy) as [z [Ez _]]. eauto.
  - exists s. unfold Glob_sort, sort_in_place, mbind, load, lift, put, ret.
    rewrite E. cbn [not_null]. rewrite Es.
    split; [reflexivity|]. split; [assumption|].
    split; [apply (@update_same h l s L E)|]. intros l' N. apply update_other. assumption.
Qed.

Lemma sort_reorders_in_place_witness :
  nth_error [[js "x"]; [js "!prop.*.name"; js "prop.*"; js "prop.id"]] 1
  = Some [js "!prop.*.name"; js "prop.*"; js "prop.id"]
  /\ exists s,
      Glob_sort 1 [[js "x"]; [js "!prop.*.name"; js "prop.*"; js "prop.id"]]
      = (Ok 1, update [[js "x"]; [js "!prop.*.name"; js "prop.*"; js "prop.id"]] 1 s)
      /\ Permutation [js "!prop.*.name"; js "prop.*"; js "prop.id"] s
      /\ nth_error (update [[js "x"]; [js "!prop.*.name"; js "prop.*"; js "prop.id"]] 1 s) 1
         = Some s
      /\ forall l', l' <> 1 ->
                    nth_error (update [[js "x"]; [js "!prop.*.name"; js "prop.*"; js "prop.id"]]
                                      1 s) l'
                    = nth_error [[js "x"]; [js "!prop.*.name"; js "prop.*"; js "prop.id"]] l'.
Proof.
  split; [reflexivity|].
  apply (@sort_reorders_in_place
           [[js "x"]; [js "!prop.*.name"; js "prop.*"; js "prop.id"]] 1
           [js "!prop.*.name"; js "prop.*"; js "prop.id"] eq_refl).
  repeat (constructor; [split; vm_compute; reflexivity|]). constructor.
Defined.

(** X22: on valid globs without quotes [compare] never throws and
    returns -1, 0 or 1.  With quotes it may throw: the parent of a negated
    array item is cut by the length of its last note, which need not give
    a valid glob. *)
Theorem compare_total_without_quotes :
  (forall A B,
      valid A = true -> quoteless A = true -> valid B = true -> quoteless B = true ->
      exists z, compare A B = Ok z /\ (z = -1 \/ z = 0 \/ z = 1)%Z)
  /\ (let A := js "![" ++ DQ :: js "a" ++ DQ :: js "]['x" ++ DQ :: js "][1]']" in
      let B := js "![" ++ DQ :: js "a" ++ DQ :: js "]['x" ++ DQ :: js "][2]']" in
      valid A = true /\ valid B = true /\ compare A B = Throw InvalidGlob).
Proof.
  split; [exact compare_total|]. cbv zeta. repeat split; vm_compute; reflexivity.
Qed.

Lemma compare_total_without_quotes_witness :
  valid (js "![0][3]") = true /\ quoteless (js "![0][3]") = true
  /\ valid (js "![*][2]") = true /\ quoteless (js "![*][2]") = true
  /\ exists z, compare (js "![0][3]") (js "![*][2]") = Ok z
               /\ (z = -1 \/ z = 0 \/ z = 1)%Z.
Proof.
  split; [vm_compute; reflexivity|]. split; [vm_compute; reflexivity|].
  split; [vm_compute; reflexivity|]. split; [vm_compute; reflexivity|].
  apply (proj1 compare_total_without_quotes (js "![0][3]") (js "![*][2]"));
    vm_compute; reflexivity.
Defined.

(** *** A glob never covers a shorter one *)

(** X11: a glob never covers a glob with fewer notes: when
    [covers(A, B)] is true, [A] has at most as many notes as [B]. *)
Theorem covers_never_shorter : forall A B,
    valid A = true -> valid B = true -> covers A B = Ok true ->
    note_count A <= note_count B.
Proof.
  intros A B VA VB C.
  destruct (@covers_valid A B VA VB) as [na [nb [Fa [Fb [-> [-> E]]]]]].
  rewrite E in C.
  destruct (bang A && (length nb <? length na)%nat); [discriminate|].
  destruct (Nat.le_gt_cases (length na) (length nb)) as [|L]; [assumption|].
  exfalso. destruct (nth_error na (length nb)) as [a|] eqn:Ea.
  - pose proof (proj1 (@covers_loop_true _coversNote na nb 0) C (length nb) a Ea) as H.
    cbn [Nat.add] in H.
    replace (nth_error nb (length nb)) with (@None jsstring) in H
      by (symmetry; apply nth_error_None; lia).
    rewrite coversNote_undefined in H. discriminate.
  - apply nth_error_None in Ea. lia.
Qed.

Lemma covers_never_shorter_witness :
  valid (js "*.y") = true /\ valid (js "x.y.z") = true
  /\ covers (js "*.y") (js "x.y.z") = Ok true
  /\ note_count (js "*.y") <= note_count (js "x.y.z").
Proof.
  split; [vm_compute; reflexivity|]. split; [vm_compute; reflexivity|].
  split; [vm_compute; reflexivity|].
  apply (@covers_never_shorter (js "*.y") (js "x.y.z")); vm_compute; reflexivity.
Defined.

(** *** Trailing wildcards are redundant *)

Lemma wild_tail_last : forall w1 w2 X Y,
    wild_tail w1 -> wild_tail w2 -> X ++ w1 = Y ++ w2 -> w1 = w2 /\ X = Y.
Proof.
  intros w1 w2 X Y W1 W2 E. apply (@wild_suffix_tail w1 w2 X Y); [|assumption|assumption].
  destruct W1 as [-> | ->]; [apply tail_any|apply tail_bracket; constructor].
Qed.

Lemma wild_split : forall ws ws1 r,
    Forall wild_tail ws -> Forall wild_tail ws1 -> concat ws1 = r ++ concat ws ->
    exists ws3, r = concat ws3 /\ Forall wild_tail ws3.
Proof.
  induction ws as [|w ws IH] using rev_ind; intros ws1 r F F1 E.
  - cbn in E. rewrite app_nil_r in E. exists ws1. auto.
  - apply Forall_app in F. destruct F as [F Fw]. inversion Fw as [|? ? W _]; subst.
    destruct ws1 as [|w1 ws1] using rev_ind.
    + exfalso. rewrite concat_snoc in E. cbn in E. symmetry in E.
      apply app_eq_nil in E. destruct E as [_ E]. apply app_eq_nil in E.
      destruct E as [_ E]. destruct W as [-> | ->]; discriminate E.
    + clear IHws1. apply Forall_app in F1. destruct F1 as [F1 Fw1].
      inversion Fw1 as [|? ? W1 _]; subst.
      rewrite !concat_snoc, app_assoc in E.
      destruct (@wild_tail_last w1 w (concat ws1) (r ++ concat ws) W1 W E) as [_ E'].
      apply (IH ws1 r F F1 E').
Qed.

Lemma body_all_dot : forall s, glob_body s -> all_of dot s.
Proof.
  assert (V : forall t, var_shape t -> all_of dot t).
  { intros t [c l C F]. apply var_chars_dot. constructor; [apply var_start_char|]; assumption. }
  assert (D : forall l, all_of is_digit l -> all_of dot l).
  { intros l F. induction F as [|c l C _ IH]; constructor; [|assumption].
    revert C. clear. destruct c as [[] [] [] [] [] [] [] []]; cbv; congruence. }
  assert (B : forall t, bracket_shape t -> all_of dot t).
  { intros t [|c l C F|q body Q F].
    - change (js "[*]") with ["["%char; "*"%char; "]"%char]. repeat (apply Forall_cons; [reflexivity|]); apply Forall_nil.
    - constructor; [reflexivity|]. change (c :: l ++ js "]") with ((c :: l) ++ js "]").
      apply Forall_app. split; [apply D; constructor; assumption|].
      change (js "]") with ["]"%char].
      repeat (apply Forall_cons; [reflexivity|]); apply Forall_nil.
    - constructor; [reflexivity|]. constructor; [destruct Q as [-> | ->]; reflexivity|].
      apply Forall_app. split; [assumption|].
      constructor; [destruct Q as [-> | ->]; reflexivity|].
      repeat (apply Forall_cons; [reflexivity|]); apply Forall_nil. }
  intros s [h [ts [-> [N F]]]]. apply Forall_app. split.
  - destruct N as [|t H|t H]; [|apply V; assumption|apply B; assumption].
    change (js "*") with ["*"%char]. repeat (apply Forall_cons; [reflexivity|]); apply Forall_nil.
  - induction F as [|t ts T _ IH]; [constructor|]. cbn [concat]. apply Forall_app.
    split; [|assumption].
    destruct T as [t H|t H|]; [apply B; assumption| |].
    + constructor; [reflexivity|apply V; assumption].
    + change (js ".*") with ["."%char; "*"%char]. repeat (apply Forall_cons; [reflexivity|]); apply Forall_nil.
Qed.

Lemma trail_complete : forall x ws,
    x <> [] -> all_of dot x -> bang x = false -> ws <> [] -> Forall wild_tail ws ->
    exec_group TRAIL_pre TRAIL_g1 TRAIL_post (x ++ concat ws) <> None.
Proof.
  intros x ws X D B N F. destruct x as [|c x]; [congruence|].
  inversion D as [|? ? Dc Dx]; subst.
  apply exec_group_complete with (s0 := (c :: x) ++ concat ws) (s1 := concat ws) (s2 := []).
  - split; [reflexivity|]. intros y M. apply matches_chr in M. cbn in M.
    injection M as Ec _. subst c. discriminate B.
  - unfold TRAIL_g1, LazyPlus. apply matches_seq. exists (x ++ concat ws). split.
    + exists c. split; [reflexivity|assumption].
    + apply iter_chr. exists x. auto.
  - apply wild_tails_match; assumption.
Qed.

Lemma app_split_prefix : forall (x g a b : jsstring),
    x ++ a = g ++ b -> length x <= length g -> exists r, g = x ++ r /\ a = r ++ b.
Proof.
  induction x as [|c x IH]; intros g a b E L.
  - exists g. auto.
  - destruct g as [|c' g]; [cbn in L; lia|]. cbn in E. injection E as <- E.
    destruct (IH g a b E) as [r [-> ->]]; [cbn in L; lia|]. exists r. auto.
Qed.

Lemma strip_app_wild : forall g ws,
    glob_body g -> Forall wild_tail ws ->
    removeTrailingWildcards (g ++ concat ws) = removeTrailingWildcards g.
Proof.
  intros g ws G F. destruct ws as [|w0 ws0] eqn:Ews; [cbn; rewrite app_nil_r; reflexivity|].
  rewrite <- Ews in *. assert (N : ws <> []) by (rewrite Ews; discriminate). clear Ews w0 ws0.
  pose proof (@body_all_dot g G) as D.
  destruct (@glob_body_no_bang g G) as [B NE].
  pose proof (@trail_complete g ws NE D B N F) as C.
  unfold removeTrailingWildcards at 1.
  destruct (exec_group TRAIL_pre TRAIL_g1 TRAIL_post (g ++ concat ws)) as [x|] eqn:Ex;
    [|congruence].
  destruct (@trail_match _ _ Ex) as [X [_ [ws1 [N1 [F1 S1]]]]].
  pose proof (@trail_shortest _ _ Ex g ws eq_refl N F NE) as L.
  destruct (@app_split_prefix x g (concat ws1) (concat ws)) as [r [Eg Er]];
    [symmetry; assumption|assumption|].
  destruct (@wild_split ws ws1 r F F1 Er) as [ws3 [-> F3]].
  assert (Cand : forall y ws2, g = y ++ concat ws2 -> ws2 <> [] -> Forall wild_tail ws2 ->
                               y <> [] -> length x <= length y).
  { intros y ws2 E2 N2 F2 Y. apply (@trail_shortest _ _ Ex y (ws2 ++ ws)).
    - rewrite E2, concat_app, app_assoc. reflexivity.
    - destruct ws2; [congruence|discriminate].
    - apply Forall_app. split; assumption.
    - assumption. }
  unfold removeTrailingWildcards.
  destruct (exec_group TRAIL_pre TRAIL_g1 TRAIL_post g) as [y|] eqn:Ey.
  - destruct (@trail_match _ _ Ey) as [Y [_ [ws2 [N2 [F2 S2]]]]].
    pose proof (Cand y ws2 S2 N2 F2 Y) as L1.
    assert (L2 : length y <= length x).
    { destruct ws3 as [|w3 ws3'] eqn:E3.
      - cbn in Eg. rewrite app_nil_r in Eg. subst g.
        pose proof (@wild_tail_length ws2 N2 F2) as P.
        rewrite S2 in L1 at 1. rewrite length_app in L1. lia.
      - rewrite <- E3 in *. apply (@trail_shortest _ _ Ey x ws3 Eg); [|assumption|assumption].
        rewrite E3. discriminate. }
    rewrite Eg in S2.
    destruct (@app_split_prefix x y (concat ws3) (concat ws2)) as [r [Ey' _]];
      [assumption|lia|].
    assert (R : r = []).
    { destruct r; [reflexivity|]. rewrite Ey', length_app in L2. cbn in L2. lia. }
    rewrite R, app_nil_r in Ey'. congruence.
  - destruct ws3 as [|w3 ws3'] eqn:E3.
    + cbn in Eg. rewrite app_nil_r in Eg. congruence.
    + exfalso. rewrite <- E3 in *. revert Ey. rewrite Eg. apply trail_complete.
      * assumption.
      * rewrite Eg in D. apply Forall_app in D. apply D.
      * rewrite Eg in B. destruct x; [congruence|exact B].
      * rewrite E3. discriminate.
      * assumption.
Qed.

Lemma wild_tails_body : forall g ws,
    glob_body g -> Forall wild_tail ws -> glob_body (g ++ concat ws).
Proof.
  intros g ws [h [ts [-> [N T]]]] F. exists h, (ts ++ ws).
  rewrite concat_app, app_assoc. split; [reflexivity|]. split; [assumption|].
  apply Forall_app. split; [assumption|].
  apply Forall_impl with (P := wild_tail); [|assumption].
  intros w [-> | ->]; [apply tail_any|apply tail_bracket; constructor].
Qed.

Lemma inspect_app_wild : forall g ws,
    glob_body g -> Forall wild_tail ws -> _inspect (g ++ concat ws) = _inspect g.
Proof.
  intros g ws G F. pose proof (@wild_tails_body g ws G F) as G'.
  unfold _inspect.
  rewrite (@valid_trim _ (@glob_body_valid _ G)), (@valid_trim _ (@glob_body_valid _ G')).
  rewrite (@glob_body_valid _ G), (@glob_body_valid _ G').
  destruct (@glob_body_no_bang _ G) as [B _]. destruct (@glob_body_no_bang _ G') as [B' _].
  rewrite B, B'. cbn [negb]. rewrite strip_app_wild by assumption. reflexivity.
Qed.

Lemma split_app_wild : forall g ws,
    glob_body g -> Forall wild_tail ws ->
    split (g ++ concat ws) true = split g true.
Proof.
  intros g ws G F. pose proof (@wild_tails_body g ws G F) as G'.
  unfold split. rewrite (@glob_body_valid _ G), (@glob_body_valid _ G').
  destruct (@glob_body_no_bang _ G) as [B _]. destruct (@glob_body_no_bang _ G') as [B' _].
  rewrite B, B'. cbn [negb andb]. rewrite strip_app_wild by assumption. reflexivity.
Qed.

Lemma intersect_app_wild : forall g ws B r,
    glob_body g -> Forall wild_tail ws ->
    _intersect (g ++ concat ws) B r = _intersect g B r
    /\ _intersect B (g ++ concat ws) r = _intersect B g r.
Proof.
  intros g ws B r G F. pose proof (@wild_tails_body g ws G F) as G'.
  destruct (@glob_body_no_bang _ G) as [Bg _]. destruct (@glob_body_no_bang _ G') as [Bg' _].
  unfold _intersect. rewrite split_app_wild, Bg, Bg' by assumption. split; reflexivity.
Qed.

(** X9: trailing wildcards after a valid glob that is not negated
    change nothing: the glob is still valid, the constructor builds the
    same [Glob], and [covers] and [_intersect] give the same answers on
    either side. *)
Theorem trailing_wildcards_redundant : forall g ws,
    valid g = true -> bang g = false -> Forall wild_tail ws ->
    valid (g ++ concat ws) = true
    /\ Glob_new (g ++ concat ws) = Glob_new g
    /\ (forall B, covers (g ++ concat ws) B = covers g B
                  /\ covers B (g ++ concat ws) = covers B g)
    /\ (forall B r, _intersect (g ++ concat ws) B r = _intersect g B r
                    /\ _intersect B (g ++ concat ws) r = _intersect B g r).
Proof.
  intros g ws V B F. pose proof (@valid_body g V B) as G.
  assert (E : Glob_new (g ++ concat ws) = Glob_new g).
  { unfold Glob_new. rewrite inspect_app_wild by assumption. reflexivity. }
  split; [apply glob_body_valid, wild_tails_body; assumption|].
  split; [exact E|].
  split; [|intros X r; apply intersect_app_wild; assumption].
  intros X. split; unfold covers, _covers, glob_arg; rewrite E; reflexivity.
Qed.

Lemma trailing_wildcards_redundant_witness :
  valid (js "x") = true /\ bang (js "x") = false
  /\ Forall wild_tail [js ".*"; js "[*]"]
  /\ Glob_new (js "x" ++ concat [js ".*"; js "[*]"]) = Glob_new (js "x").
Proof.
  assert (F : Forall wild_tail [js ".*"; js "[*]"]).
  { constructor; [left; reflexivity|]. constructor; [right; reflexivity|constructor]. }
  split; [vm_compute; reflexivity|]. split; [reflexivity|]. split; [exact F|].
  apply (@trailing_wildcards_redundant (js "x") [js ".*"; js "[*]"]);
    [vm_compute; reflexivity|reflexivity|exact F].
Defined.

(** *** The intersection of two globs without quotes is a glob *)

Lemma untail_notes : forall ts,
    Forall tail_shape ts -> quoteless (concat ts) = true ->
    Forall note_shape (map untail ts) /\ Forall (fun t => quoteless t = true) (map untail ts).
Proof.
  induction ts as [|t ts IH]; intros F Q; [split; constructor|].
  inversion F as [|? ? T F']; subst. cbn [concat] in Q.
  rewrite quoteless_app in Q. apply andb_prop in Q. destruct Q as [Qt Qr].
  destruct (IH F' Qr) as [I1 I2]. cbn [map].
  split; constructor; try assumption.
  - destruct T as [t B|t V|]; [apply shape_bracket|apply shape_name|apply shape_any];
      try assumption. destruct B; constructor; assumption.
  - destruct T as [t B|t V|]; [|exact Qt|reflexivity].
    replace (untail t) with t by (destruct B; reflexivity). assumption.
Qed.

Lemma intersect_loop_notes : forall na nb,
    Forall note_shape na -> Forall (fun t => quoteless t = true) na ->
    Forall note_shape nb -> Forall (fun t => quoteless t = true) nb ->
    forall n i l out,
      i + n = Nat.max (length na) (length nb) ->
      Forall note_shape l -> Forall (fun t => quoteless t = true) l ->
      intersect_loop na nb i n (map Some l) = Some out ->
      exists l', out = map Some l' /\ Forall note_shape l'
                 /\ Forall (fun t => quoteless t = true) l'.
Proof.
  intros na nb Sa Qa Sb Qb. induction n as [|n IH]; intros i l out L Sl Ql E;
    cbn [intersect_loop] in E.
  - injection E as <-. exists l. auto.
  - assert (Step : forall t, note_shape t -> quoteless t = true ->
                             intersect_loop na nb (S i) n (map Some l ++ [Some t]) = Some out ->
                             exists l', out = map Some l' /\ Forall note_shape l'
                                        /\ Forall (fun t => quoteless t = true) l').
    { intros t St Qt H. apply (IH (S i) (l ++ [t]) out); [lia| | |].
      - apply Forall_app. split; [assumption|constructor; [assumption|constructor]].
      - apply Forall_app. split; [assumption|constructor; [assumption|constructor]].
      - rewrite map_app. exact H. }
    destruct (nth_error na i) as [x|] eqn:Ea; destruct (nth_error nb i) as [y|] eqn:Eb.
    + pose proof (proj1 (Forall_forall _ _) Sa x (nth_error_In _ _ Ea)) as Sx.
      pose proof (proj1 (Forall_forall _ _) Qa x (nth_error_In _ _ Ea)) as Qx.
      pose proof (proj1 (Forall_forall _ _) Sb y (nth_error_In _ _ Eb)) as Sy.
      pose proof (proj1 (Forall_forall _ _) Qb y (nth_error_In _ _ Eb)) as Qy.
      repeat match type of E with
             | (if true then _ else _) = _ => cbv iota in E
             | (if false then _ else _) = _ => cbv iota in E
             | (if ?c then _ else _) = _ => destruct c
             end;
        try discriminate E;
        first [exact (Step x Sx Qx E) | exact (Step y Sy Qy E)].
    + pose proof (proj1 (Forall_forall _ _) Sa x (nth_error_In _ _ Ea)) as Sx.
      pose proof (proj1 (Forall_forall _ _) Qa x (nth_error_In _ _ Ea)) as Qx.
      destruct x as [|x0 x]; [destruct (@note_shape_no_bang _ Sx) as [_ X]; congruence|].
      cbn [strict_eq truthy negb is_wildcard andb] in E.
      repeat match type of E with
             | (if true then _ else _) = _ => cbv iota in E
             | (if false then _ else _) = _ => cbv iota in E
             | (if ?c then _ else _) = _ => destruct c
             end;
        try discriminate E; exact (Step _ Sx Qx E).
    + pose proof (proj1 (Forall_forall _ _) Sb y (nth_error_In _ _ Eb)) as Sy.
      pose proof (proj1 (Forall_forall _ _) Qb y (nth_error_In _ _ Eb)) as Qy.
      destruct y as [|y0 y]; [destruct (@note_shape_no_bang _ Sy) as [_ X]; congruence|].
      cbn [strict_eq truthy negb is_wildcard andb] in E.
      repeat match type of E with
             | (if true then _ else _) = _ => cbv iota in E
             | (if false then _ else _) = _ => cbv iota in E
             | (if ?c then _ else _) = _ => destruct c
             end;
        try discriminate E; exact (Step _ Sy Qy E).
    + exfalso. apply nth_error_None in Ea, Eb. lia.
Qed.

Lemma intersect_result : forall A B r s,
    _intersect A B r = Ok (Some s) ->
    exists na nb out (b : bool),
      split A true = Ok (Some na) /\ split B true = Ok (Some nb)
      /\ intersect_loop na nb 0 (Nat.max (length na) (length nb)) [] = Some out
      /\ out <> [] /\ s = (if b then js "!" else []) ++ joinNotes out.
Proof.
  intros A B r s E. unfold _intersect in E.
  destruct (split A true) as [[na|]|]; destruct (split B true) as [[nb|]|];
    unfold bind, not_null in E; try discriminate E.
  destruct (intersect_loop na nb 0 (Nat.max (length na) (length nb)) []) as [[|x out]|] eqn:L;
    cbv beta match zeta in E; try discriminate E.
  injection E as <-. exists na, nb, (x :: out).
  exists (if r then bang A || bang B
          else if bang A && bang B then true
               else ((length nb <? length na)%nat && bang A)
                    || ((length na <? length nb)%nat && bang B)).
  split; [reflexivity|]. split; [reflexivity|]. split; [exact L|].
  split; [discriminate|reflexivity].
Qed.

(** X17: when two valid globs without quotes intersect, the
    intersection is a valid glob without quotes, which [split] takes
    apart. *)
Theorem intersect_is_a_glob : forall A B r s,
    valid A = true -> quoteless A = true -> valid B = true -> quoteless B = true ->
    _intersect A B r = Ok (Some s) ->
    valid s = true /\ quoteless s = true
    /\ exists ns, split s false = Ok (Some ns).
Proof.
  intros A B r s VA QA VB QB E.
  destruct (@body_parts A VA QA) as [ha [tsa [Ha [Fa [Qa Ea]]]]].
  destruct (@body_parts B VB QB) as [hb [tsb [Hb [Fb [Qb Eb]]]]].
  destruct (@intersect_result A B r s E) as [na [nb [out [b [Sa' [Sb' [L [NE ->]]]]]]]].
  rewrite (@split_true_plain A ha tsa VA Ha Fa Qa Ea) in Sa'.
  rewrite (@split_true_plain B hb tsb VB Hb Fb Qb Eb) in Sb'.
  injection Sa' as <-. injection Sb' as <-.
  rewrite quoteless_app in Qa, Qb. apply andb_prop in Qa, Qb.
  destruct Qa as [Qha Qta]. destruct Qb as [Qhb Qtb].
  destruct (@untail_notes tsa Fa Qta) as [Sa Qa]. destruct (@untail_notes tsb Fb Qtb) as [Sb Qb].
  apply (@intersect_loop_notes (ha :: map untail tsa) (hb :: map untail tsb)) with (l := []) in L;
    try (constructor; assumption); try reflexivity.
  destruct L as [l' [-> [Sl Ql]]].
  destruct (@join_plain l') as [G [Qj Es]]; [intros ->; apply NE; reflexivity|assumption|assumption|].
  destruct b.
  - split; [apply valid_iff; right; eexists; split; [reflexivity|exact G]|].
    split; [exact Qj|].
    destruct (@split_valid (js "!" ++ joinNotes (map Some l')) false) as [ns [En _]];
      [apply valid_iff; right; eexists; split; [reflexivity|exact G]|].
    exists ns. exact En.
  - split; [apply glob_body_valid; exact G|]. split; [exact Qj|]. eauto.
Qed.

Lemma intersect_is_a_glob_witness :
  _intersect (js "x.*") (js "!*.y") true = Ok (Some (js "!x.y"))
  /\ valid (js "!x.y") = true.
Proof.
  assert (H : _intersect (js "x.*") (js "!*.y") true = Ok (Some (js "!x.y")))
    by (vm_compute; reflexivity).
  split; [exact H|].
  apply (proj1 (@intersect_is_a_glob (js "x.*") (js "!*.y") true (js "!x.y")
                  ltac:(vm_compute; reflexivity) ltac:(vm_compute; reflexivity)
                  ltac:(vm_compute; reflexivity) ltac:(vm_compute; reflexivity) H)).
Defined.

(** *** A glob and its negation *)

Lemma strip_parts : forall g,
    exists ws, Forall wild_tail ws /\ g = removeTrailingWildcards g ++ concat ws.
Proof.
  intros g. unfold removeTrailingWildcards.
  destruct (exec_group TRAIL_pre TRAIL_g1 TRAIL_post g) as [x|] eqn:E.
  - destruct (@trail_match _ _ E) as [_ [_ [ws [_ [F S]]]]]. exists ws. auto.
  - exists []. split; [constructor|]. cbn. rewrite app_nil_r. reflexivity.
Qed.

Lemma wild_tails_are_tails : forall ws, Forall wild_tail ws -> Forall tail_shape ws.
Proof.
  intros ws F. apply Forall_impl with (P := wild_tail); [|assumption].
  intros w [-> | ->]; [apply tail_any|apply tail_bracket; constructor].
Qed.

(** X21: a valid glob without quotes that is not negated comes
    before its own negation. *)
Theorem compare_negated_last : forall g,
    valid g = true -> bang g = false -> quoteless g = true ->
    compare g ("!"%char :: g) = Ok (-1)%Z /\ compare ("!"%char :: g) g = Ok 1%Z.
Proof.
  intros g V B Q.
  destruct (@body_parts g V Q) as [h [ts [N [F [Q' E]]]]]. rewrite B in E.
  destruct (strip_parts g) as [ws [W Sg]]. rewrite E in Sg.
  assert (S' : g = h ++ concat (ts ++ ws)) by (rewrite concat_app, app_assoc; exact Sg).
  assert (V' : valid ("!"%char :: g) = true).
  { apply valid_iff. right. exists g. split; [reflexivity|apply valid_body; assumption]. }
  assert (Ea := @Glob_new_plain g h ts V N F Q').
  rewrite B in Ea. specialize (Ea E).
  assert (Eb := @Glob_new_plain ("!"%char :: g) h (ts ++ ws) V' N).
  cbn [bang tl] in Eb. replace (is_char "!" "!") with true in Eb by reflexivity.
  rewrite <- S' in Eb.
  assert (Ft : Forall tail_shape (ts ++ ws))
    by (apply Forall_app; split; [assumption|apply wild_tails_are_tails; assumption]).
  specialize (Eb Ft Q eq_refl).
  assert (X : streq g ("!"%char :: g) = false).
  { destruct (streq g ("!"%char :: g)) eqn:X; [|reflexivity].
    apply streq_eq in X. rewrite X in B. discriminate B. }
  assert (Wc : test_anchored WILDCARD ("!"%char :: g) = false) by reflexivity.
  unfold compare. rewrite (streq_sym ("!"%char :: g) g), X, Wc, andb_false_r.
  cbn [orb andb]. rewrite Ea, Eb. cbn [bind not_null notes].
  rewrite !length_cons, !length_map, length_app.
  destruct ws as [|w ws].
  - rewrite app_nil_r in *. cbn [length]. rewrite Nat.add_0_r, Nat.eqb_refl.
    rewrite !compare_items_zero by reflexivity.
    cbn [bind Z.eqb negb absGlob isNegated]. rewrite <- S', Nat.eqb_refl.
    split; reflexivity.
  - cbn [length].
    replace (S (length ts) =? S (length ts + S (length ws)))%nat with false
      by (symmetry; apply Nat.eqb_neq; lia).
    replace (S (length ts + S (length ws)) =? S (length ts))%nat with false
      by (symmetry; apply Nat.eqb_neq; lia).
    replace (S (length ts) <? S (length ts + S (length ws)))%nat with true
      by (symmetry; apply Nat.ltb_lt; lia).
    replace (S (length ts + S (length ws)) <? S (length ts))%nat with false
      by (symmetry; apply Nat.ltb_ge; lia).
    split; reflexivity.
Qed.

Lemma compare_negated_last_witness :
  valid (js "prop.id") = true /\ bang (js "prop.id") = false
  /\ quoteless (js "prop.id") = true
  /\ compare (js "prop.id") ("!"%char :: js "prop.id") = Ok (-1)%Z
  /\ compare ("!"%char :: js "prop.id") (js "prop.id") = Ok 1%Z.
Proof.
  split; [vm_compute; reflexivity|]. split; [reflexivity|].
  split; [vm_compute; reflexivity|].
  apply (@compare_negated_last (js "prop.id")); vm_compute; reflexivity.
Defined.

(** *** What [normalize] returns *)

Lemma always_ret : forall (A : Type) (P : A -> Prop) a, P a -> always P (ret a).
Proof. intros A P a H h a' h' E. injection E as <- _. exact H. Qed.

Lemma always_raise : forall (A : Type) (P : A -> Prop) e, always P (@raise A e).
Proof. intros A P e h a h' E. discriminate E. Qed.

Lemma always_bind : forall (A B : Type) (Q : A -> Prop) (P : B -> Prop) (m : M A) (f : A -> M B),
    always Q m -> (forall a, Q a -> always P (f a)) -> always P (mbind m f).
Proof.
  intros A B Q P m f Hm Hf h b h' E. unfold mbind in E.
  destruct (m h) as [[a|e] h1] eqn:Em; [|discriminate E].
  apply (Hf a (Hm h a h1 Em) h1 b h' E).
Qed.

Lemma always_any : forall (A : Type) (m : M A), always (fun _ => True) m.
Proof. intros A m h a h' _. exact I. Qed.

Lemma same_core_refl : forall w, same_core w w.
Proof. intros w. split; [reflexivity|apply incl_refl]. Qed.

Lemma same_core_trans : forall a b c, same_core a b -> same_core b c -> same_core a c.
Proof.
  intros a b c [N1 I1] [N2 I2]. split; [congruence|].
  eapply incl_tran; eassumption.
Qed.

Lemma splice1_incl : forall (A : Type) (l : list A) i, incl (splice1 l i) l.
Proof. intros A l i x H. apply (@splice1_In A l i x H). Qed.

Lemma always_checkAdd : forall r o gA gB w,
    always (same_core w) (checkAddIntersection r o gA gB w).
Proof.
  intros r o gA gB w. unfold checkAddIntersection.
  apply always_bind with (Q := fun _ => True); [apply always_any|]. intros inter _.
  destruct (negb (truthy inter)); [apply always_ret, same_core_refl|].
  destruct inter as [i|]; [|apply always_ret, same_core_refl].
  apply always_bind with (Q := fun _ => True); [apply always_any|]. intros hi _.
  destruct (false || hi); apply always_ret; [apply same_core_refl|].
  split; [reflexivity|apply incl_refl].
Qed.

Ltac core_step w :=
  match goal with
  | |- always _ (ret (_, (_, w))) => apply always_ret, same_core_refl
  | |- always _ (ret (_, (_, with_ignored w _))) =>
      apply always_ret; split; [reflexivity|apply incl_refl]
  | |- always _ (ret (_, (_, with_list w _))) =>
      apply always_ret; split; [reflexivity|apply splice1_incl]
  | |- always _ (raise _) => apply always_raise
  | |- always _ (if ?c then _ else _) => destruct c
  | |- always _ (mbind (checkAddIntersection _ _ _ _ w) _) =>
      apply always_bind with (Q := same_core w); [apply always_checkAdd|];
      let w' := fresh "w'" in let H := fresh "H" in
      intros w' H; apply always_ret; exact H
  | |- always _ (mbind _ _) =>
      apply always_bind with (Q := fun _ => True); [apply always_any|]; intros ? _
  end.

Lemma always_inner_step : forall r o a iA iB f w,
    always (fun x => same_core w (snd (snd x))) (inner_step r o a iA iB (f, w)).
Proof.
  intros r o a iA iB f w. unfold inner_step.
  repeat core_step w.
Qed.

Lemma always_inner_loop : forall r o a iA n f w,
    always (fun x => same_core w (snd x)) (inner_loop r o a iA n (f, w)).
Proof.
  intros r o a iA. induction n as [|n IH]; intros f w; cbn [inner_loop].
  - apply always_ret, same_core_refl.
  - apply always_bind with (Q := fun x => same_core w (snd (snd x)));
      [apply always_inner_step|].
    intros [[|] [f' w']] H; cbn [snd] in H.
    + intros h x h' E. apply (@same_core_trans w w' (snd x) H).
      apply (IH f' w' h x h' E).
    + apply always_ret. exact H.
Qed.

Lemma keeps_refl : forall w, keeps w w.
Proof. intros w. split; [apply incl_refl|]. intros g H. left. exact H. Qed.

Lemma keeps_trans : forall a b c, keeps a b -> keeps b c -> keeps a c.
Proof.
  intros a b c [I1 N1] [I2 N2]. split; [eapply incl_tran; eassumption|].
  intros g H. destruct (N2 g H) as [H'|[o [Ho E]]].
  - apply N1. exact H'.
  - right. exists o. split; [apply I1; exact Ho|exact E].
Qed.

Lemma always_outer_step : forall r o iA w,
    always (fun x => keeps w (snd x)) (outer_step r o iA w).
Proof.
  intros r o iA w. unfold outer_step.
  intros h x h' E. unfold mbind at 1, lift in E.
  destruct (nth_error (list_ w) iA) as [a|] eqn:Ea; cbn [not_null] in E; [|discriminate E].
  set (w1 := if test_anchored NEGATE_ALL (glob a) then with_negateAll w else w) in E.
  assert (C1 : same_core w w1).
  { subst w1. destruct (test_anchored NEGATE_ALL (glob a));
      split; try reflexivity; apply incl_refl. }
  destruct (test_anchored NEGATE_ALL (glob a) && r).
  - injection E as <- _. cbn [snd]. destruct C1 as [N1 I1].
    split; [exact I1|]. intros g H. left. rewrite <- N1. exact H.
  - unfold mbind in E.
    destruct (inner_loop r o a iA (length (list_ w1)) (no_flags, w1) h) as [[[f w2]|e] h2] eqn:El;
      [|discriminate E].
    pose proof (@always_inner_loop r o a iA _ no_flags w1 h (f, w2) h2 El) as C2.
    cbn [snd] in C2. destruct (@same_core_trans w w1 w2 C1 C2) as [N2 I2].
    match type of E with
    | (if ?c then _ else _) _ = _ => destruct c
    end; injection E as <- _; cbn [snd]; split; try exact I2.
    + cbn [with_normalized normalized]. intros g H. apply in_app_or in H.
      destruct H as [H|[<- |[]]].
      * left. rewrite <- N2. exact H.
      * right. exists a. split; [apply (nth_error_In _ _ Ea)|reflexivity].
    + cbn [with_ignored normalized]. intros g H. left. rewrite <- N2. exact H.
Qed.

Lemma always_outer_loop : forall r o n w,
    always (keeps w) (outer_loop r o n w).
Proof.
  intros r o. induction n as [|n IH]; intros w; cbn [outer_loop].
  - apply always_ret, keeps_refl.
  - apply always_bind with (Q := fun x => keeps w (snd x)); [apply always_outer_step|].
    intros [[|] w'] H; cbn [snd] in H.
    + intros h x h' E. apply (@keeps_trans w w' x H). apply (IH w' h x h' E).
    + apply always_ret. exact H.
Qed.

Section SortOutcome.
Variable T : Type.
Variable comparefn : T -> T -> res Z.

Lemma sort_insert_outcome : forall x l s,
    sort_insert comparefn x l = Ok s -> Permutation (x :: l) s.
Proof.
  intros x. induction l as [|y l IH]; intros s E; cbn [sort_insert] in E.
  - injection E as <-. apply Permutation_refl.
  - destruct (comparefn x y) as [z|e]; [|discriminate E]. cbn [bind] in E.
    destruct (z <? 0)%Z; [injection E as <-; apply Permutation_refl|].
    destruct (sort_insert comparefn x l) as [s'|e]; [|discriminate E].
    cbn [bind] in E. injection E as <-.
    eapply Permutation_trans; [apply perm_swap|]. apply perm_skip. apply IH. reflexivity.
Qed.

Lemma sort_into_outcome : forall l sorted s,
    sort_into comparefn sorted l = Ok s -> Permutation (sorted ++ l) s.
Proof.
  induction l as [|x l IH]; intros sorted s E; cbn [sort_into] in E.
  - injection E as <-. rewrite app_nil_r. apply Permutation_refl.
  - destruct (sort_insert comparefn x sorted) as [s1|e] eqn:E1; [|discriminate E].
    cbn [bind] in E. apply sort_insert_outcome in E1. apply IH in E.
    eapply Permutation_trans; [|exact E].
    eapply Permutation_trans; [apply Permutation_sym; apply Permutation_middle|].
    change (x :: sorted ++ l) with ((x :: sorted) ++ l).
    apply Permutation_app_tail. exact E1.
Qed.

Lemma array_sort_outcome : forall l s, array_sort comparefn l = Ok s -> Permutation l s.
Proof. intros l s E. apply (@sort_into_outcome l [] s E). Qed.
End SortOutcome.

Lemma inspect_normal : forall x o, _inspect x = Ok o -> normal (glob o).
Proof.
  intros x o E. unfold _inspect in E. destruct (valid (trim x)) eqn:V; [|discriminate].
  cbn [negb] in E. injection E as <-. cbn [glob].
  destruct (bang (trim x)) eqn:B; cbn [negb].
  - split; [assumption|]. congruence.
  - split; [|intros _; apply strip_twice].
    apply glob_body_valid, strip_body, valid_body; assumption.
Qed.

Lemma map_inspect_items : forall l items,
    map_inspect l = Ok items -> Forall (fun o => normal (glob o)) items.
Proof.
  induction l as [|x l IH]; intros items E; cbn [map_inspect] in E.
  - injection E as <-. constructor.
  - destruct (_inspect x) as [o|e] eqn:Eo; [|discriminate E]. cbn [bind] in E.
    destruct (map_inspect l) as [r|e]; [|discriminate E]. cbn [bind] in E.
    injection E as <-. constructor; [apply (@inspect_normal x o Eo)|apply IH; reflexivity].
Qed.

Lemma finish_normal : forall again r w h out h',
    (forall l h0 out0 h0', again l h0 = (Done (Ok out0), h0') ->
                           exists L, nth_error h0' out0 = Some L /\ Forall normal L) ->
    Forall normal (normalized w) ->
    finish again r w h = (Done (Ok out), h') ->
    exists L, nth_error h' out = Some L /\ Forall normal L.
Proof.
  intros again r w h out h' IH F E. unfold finish in E.
  destruct (r && negateAll w).
  - unfold alloc in E. injection E as <- <-. exists []. split; [apply nth_error_end|constructor].
  - destruct (intersections w) as [|i more].
    + unfold mbind, alloc, Glob_sort in E.
      destruct (sort_in_place_end compare h (normalized w)) as [rs [s' [Es Hs]]].
      rewrite Es in E. injection E as -> <-.
      destruct (Hs out eq_refl) as [-> S]. exists s'. split; [apply nth_error_end|].
      apply array_sort_outcome in S. apply (Permutation_Forall S F).
    + unfold alloc in E. apply IH in E. exact E.
Qed.

Lemma normalize_normal : forall fuel l r h out h',
    normalize fuel l r h = (Done (Ok out), h') ->
    exists L, nth_error h' out = Some L /\ Forall normal L.
Proof.
  induction fuel as [|fuel IH]; intros l r h out h' E; [discriminate E|].
  cbn [normalize] in E. unfold load at 1 in E.
  destruct (nth_error h l) as [[|x orig]|] eqn:L; cbn [not_null] in E; [| |discriminate E].
  - unfold alloc in E. injection E as <- <-. exists []. split; [apply nth_error_end|constructor].
  - destruct (@prepare_store r l h (x :: orig) L) as [res [a' [Ep Hp]]].
    rewrite Ep in E. destruct res as [items|e]; [|discriminate E].
    destruct (Hp items eq_refl) as [_ Mi]. apply map_inspect_items in Mi.
    assert (Loop : forall w0 w h3,
               list_ w0 = items -> normalized w0 = [] ->
               outer_loop r l (length items) w0 (h ++ [a']) = (Ok w, h3) ->
               Forall normal (normalized w)).
    { intros w0 w h3 El En Eo.
      destruct (@always_outer_loop r l (length items) w0 _ w h3 Eo) as [_ K].
      apply Forall_forall. intros g Hg. destruct (K g Hg) as [H|[o [Ho <-]]].
      - rewrite En in H. destruct H.
      - rewrite El in Ho. apply (proj1 (Forall_forall _ _) Mi o Ho). }
    destruct items as [|g [|g' items]].
    + match type of E with context [outer_loop r l ?n ?w0 ?h2] =>
        destruct (outer_loop r l n w0 h2) as [[w|e] h3] eqn:Eo end; [|discriminate E].
      apply (@finish_normal _ r w h3 out h'
               (fun l0 h0 out0 h0' => @IH l0 r h0 out0 h0')); [|exact E].
      eapply Loop; [| |exact Eo]; reflexivity.
    + unfold alloc in E. injection E as <- <-.
      eexists. split; [apply nth_error_end|].
      inversion Mi; subst. destruct (isNegated g); constructor; [assumption|constructor].
    + match type of E with context [outer_loop r l ?n ?w0 ?h2] =>
        destruct (outer_loop r l n w0 h2) as [[w|e] h3] eqn:Eo end; [|discriminate E].
      apply (@finish_normal _ r w h3 out h'
               (fun l0 h0 out0 h0' => @IH l0 r h0 out0 h0')); [|exact E].
      eapply Loop; [| |exact Eo]; reflexivity.
Qed.

(** X26: whenever [normalize] returns a list, every glob of the
    list is valid and in normal form: it has no trailing wildcard left to
    remove unless it is negated. *)
Theorem normalize_returns_normal_globs : forall fuel L r out,
    normalize_list fuel L r = Done (Ok out) ->
    Forall (fun g => valid g = true
                     /\ (bang g = false -> removeTrailingWildcards g = g)) out.
Proof.
  intros fuel L r out E. unfold normalize_list in E.
  destruct (normalize fuel 0 r [L]) as [[[o|e]|] h'] eqn:En; try discriminate E.
  destruct (@normalize_normal fuel 0 r [L] o h' En) as [L' [El F]].
  unfold load in E. cbn [fst] in E. rewrite El in E. cbn [not_null] in E.
  injection E as <-. exact F.
Qed.

Lemma normalize_returns_normal_globs_witness :
  normalize_list 3 [js "car.*"; js "!*.model"] false = Done (Ok [js "car"; js "!car.model"])
  /\ Forall (fun g => valid g = true
                      /\ (bang g = false -> removeTrailingWildcards g = g))
            [js "car"; js "!car.model"].
Proof.
  assert (H : normalize_list 3 [js "car.*"; js "!*.model"] false
              = Done (Ok [js "car"; js "!car.model"])) by (vm_compute; reflexivity).
  split; [exact H|].
  apply (@normalize_returns_normal_globs 3 [js "car.*"; js "!*.model"] false _ H).
Defined.

(** *** A negate-all in restrictive mode *)

Ltac step_ok :=
  do 3 eexists; split; [reflexivity|];
  split; [intros _; first [reflexivity | assumption]
         |left; first [reflexivity | assumption]].

Lemma inner_step_ok : forall r orig a iA iB f w h b,
    good false a -> good false b -> nth_error (list_ w) iB = Some b -> loaded h orig ->
    isArrayGlob a = isArrayGlob b ->
    exists c f' w',
      inner_step r orig a iA iB (f, w) h = (Ok (c, (f', w')), h)
      /\ (c = Next -> list_ w' = list_ w)
      /\ kept_or_spliced a iA (list_ w) (list_ w').
Proof.
  intros r orig a iA iB f w h b Ga Gb Hb Hl R. unfold inner_step.
  rewrite Hb. cbv beta iota delta [mbind lift not_null ret raise].
  destruct (iA =? iB) eqn:Ei; [step_ok|].
  rewrite R, Bool.eqb_reflx. cbn [negb].
  destruct (streq (glob a) (glob b)) eqn:D.
  { do 3 eexists. split; [reflexivity|]. split; [intros X; discriminate X|].
    right. split; [reflexivity|]. exists iB, b. apply Nat.eqb_neq in Ei.
    apply streq_eq in D. auto. }
  destruct (negb (isNegated a) && _isReverseOf a b); [step_ok|].
  destruct (is_ignored (ignored w) (glob b)); [step_ok|].
  destruct (@covers_obj_total false a b Ga Gb) as [c1 E1].
  destruct (@covers_obj_total false b a Gb Ga) as [c2 E2].
  destruct Ga as [_ [_ [Va _]]]. destruct Gb as [_ [_ [Vb _]]].
  destruct (@checkAdd_total r orig (glob a) (glob b) w h Va Vb Hl) as [w' [Ec Lw]].
  rewrite E1. destruct c1; rewrite ?E2;
    repeat match goal with
           | |- context [if ?c then _ else _] => destruct c
           end;
    rewrite ?Ec; step_ok.
Qed.

Lemma inner_loop_ok : forall r orig a iA h,
    good false a -> loaded h orig ->
    forall n f w,
      Forall (good false) (list_ w) ->
      (forall b, In b (list_ w) -> isArrayGlob a = isArrayGlob b) ->
      n <= length (list_ w) ->
      exists f' w',
        inner_loop r orig a iA n (f, w) h = (Ok (f', w'), h)
        /\ kept_or_spliced a iA (list_ w) (list_ w').
Proof.
  intros r orig a iA h Ga Hl. induction n as [|n IH]; intros f w F R L.
  - exists f, w. split; [reflexivity|left; reflexivity].
  - cbn [inner_loop]. unfold mbind.
    destruct (nth_error (list_ w) n) as [b|] eqn:Hb;
      [|apply nth_error_None in Hb; lia].
    pose proof (@nth_error_good false (list_ w) n b F Hb) as Gb.
    destruct (@inner_step_ok r orig a iA n f w h b Ga Gb Hb Hl (R b (nth_error_In _ _ Hb)))
      as [c [f' [w' [E [Hn K]]]]]. rewrite E.
    destruct c.
    + specialize (Hn eq_refl).
      destruct (IH f' w') as [f'' [w'' [E' K']]].
      * rewrite Hn. exact F.
      * rewrite Hn. exact R.
      * rewrite Hn. lia.
      * exists f'', w''. split; [exact E'|]. rewrite <- Hn. exact K'.
    + exists f', w'. split; [reflexivity|exact K].
Qed.

Lemma outer_step_next : forall orig i w h a,
    good false a -> Forall (good false) (list_ w) ->
    (forall b, In b (list_ w) -> isArrayGlob a = isArrayGlob b) ->
    nth_error (list_ w) i = Some a -> loaded h orig ->
    test_anchored NEGATE_ALL (glob a) = false ->
    exists w', outer_step true orig i w h = (Ok (Next, w'), h)
               /\ kept_or_spliced a i (list_ w) (list_ w').
Proof.
  intros orig i w h a Ga F R Ha Hl T. unfold outer_step.
  rewrite Ha. cbv beta iota delta [mbind lift not_null ret]. rewrite T. cbn [andb].
  destruct (@inner_loop_ok true orig a i h Ga Hl (length (list_ w)) no_flags w F R (le_n _))
    as [f' [w' [E K]]].
  rewrite E.
  match goal with
  | |- context [if ?c then _ else _] => destruct c
  end; eexists; (split; [reflexivity|exact K]).
Qed.

Lemma outer_step_stop : forall orig i w h a,
    nth_error (list_ w) i = Some a ->
    test_anchored NEGATE_ALL (glob a) = true ->
    outer_step true orig i w h = (Ok (Stop, with_negateAll w), h).
Proof.
  intros orig i w h a Ha T. unfold outer_step.
  rewrite Ha. cbv beta iota delta [mbind lift not_null ret]. rewrite T. reflexivity.
Qed.

Lemma outer_loop_stops : forall orig h,
    loaded h orig ->
    forall n w,
      n <= length (list_ w) -> Forall (good false) (list_ w) ->
      (forall x y, In x (list_ w) -> In y (list_ w) -> isArrayGlob x = isArrayGlob y) ->
      (exists j o, j < n /\ nth_error (list_ w) j = Some o
                   /\ test_anchored NEGATE_ALL (glob o) = true) ->
      exists w', outer_loop true orig n w h = (Ok w', h) /\ negateAll w' = true.
Proof.
  intros orig h Hl. induction n as [|i IH]; intros w L F R [j [o [Hj [Ho To]]]]; [lia|].
  cbn [outer_loop]. unfold mbind.
  destruct (nth_error (list_ w) i) as [a|] eqn:Ha; [|apply nth_error_None in Ha; lia].
  destruct (test_anchored NEGATE_ALL (glob a)) eqn:Ta.
  - rewrite (@outer_step_stop orig i w h a Ha Ta). cbv beta iota delta [ret].
    eexists. split; reflexivity.
  - pose proof (@nth_error_good false (list_ w) i a F Ha) as Ga.
    destruct (@outer_step_next orig i w h a Ga F
                (fun b Hb => R a b (nth_error_In _ _ Ha) Hb) Ha Hl Ta) as [w' [E K]].
    rewrite E.
    assert (Ji : j < i).
    { destruct (Nat.eq_dec j i) as [->|]; [|lia]. congruence. }
    assert (Sub : forall x, In x (list_ w') -> In x (list_ w)).
    { destruct K as [-> |[-> _]]; [auto|]. intros x. apply splice1_In. }
    apply IH.
    + destruct K as [-> |[-> _]]; [lia|]. rewrite splice1_length by lia. lia.
    + apply Forall_forall. intros x Hx. apply (proj1 (Forall_forall _ _) F x (Sub x Hx)).
    + intros x y Hx Hy. apply R; apply Sub; assumption.
    + exists j, o. split; [exact Ji|]. split; [|exact To].
      destruct K as [-> |[-> _]]; [exact Ho|].
      rewrite splice1_nth by lia.
      replace (j <? i)%nat with true by (symmetry; apply Nat.ltb_lt; exact Ji). exact Ho.
Qed.

Lemma map_inspect_each : forall l items,
    map_inspect l = Ok items ->
    (forall o, In o items -> exists g, In g l /\ _inspect g = Ok o)
    /\ (forall g, In g l -> exists o, In o items /\ _inspect g = Ok o).
Proof.
  induction l as [|x l IH]; intros items E; cbn [map_inspect] in E.
  - injection E as <-. split; intros ? [].
  - destruct (_inspect x) as [o|e] eqn:Eo; [|discriminate E]. cbn [bind] in E.
    destruct (map_inspect l) as [r|e]; [|discriminate E]. cbn [bind] in E.
    injection E as <-. destruct (IH r eq_refl) as [I1 I2]. split.
    + intros o' [<- |H]; [exists x; split; [left; reflexivity|exact Eo]|].
      destruct (I1 o' H) as [g [Hg Eg]]. exists g. split; [right; exact Hg|exact Eg].
    + intros g [<- |H]; [exists o; split; [left; reflexivity|exact Eo]|].
      destruct (I2 g H) as [o' [Ho Eg]]. exists o'. split; [right; exact Ho|exact Eg].
Qed.

(** X27: in restrictive mode a negate-all ([!*] or [![*]]) empties
    the result: [normalize] returns the empty list for every list of valid
    globs that holds one and whose globs agree on the root. *)
Theorem normalize_negate_all : forall n L,
    Forall (fun g => valid g = true) L ->
    In (js "!*") L \/ In (js "![*]") L ->
    (forall a b, In a L -> In b L -> array_root a = array_root b) ->
    normalize_list (S n) L true = Done (Ok []).
Proof.
  intros n L F N R.
  destruct (@array_sort_perm _ _negFirstSort (pre_sort_total true) L) as [sorted [Es P]].
  assert (Fs : Forall (fun g => valid g = true) sorted) by (apply (Permutation_Forall P F)).
  destruct (@map_inspect_good false sorted Fs) as [items [Ei [Gi _]]]; [discriminate|].
  destruct (@map_inspect_each sorted items Ei) as [I1 I2].
  assert (Root : forall x y, In x items -> In y items -> isArrayGlob x = isArrayGlob y).
  { assert (Rx : forall x, In x items -> exists g, In g L /\ isArrayGlob x = array_root g).
    { intros x Hx. destruct (I1 x Hx) as [g [Hg Eg]]. exists g.
      split; [apply (Permutation_in g (Permutation_sym P) Hg)|].
      unfold array_root. rewrite Eg. reflexivity. }
    intros x y Hx Hy. destruct (Rx x Hx) as [gx [Gx ->]]. destruct (Rx y Hy) as [gy [Gy ->]].
    apply R; assumption. }
  assert (All : exists o, In o items /\ test_anchored NEGATE_ALL (glob o) = true
                          /\ isNegated o = true).
  { destruct N as [H|H]; apply (Permutation_in _ P) in H;
      destruct (I2 _ H) as [o [Ho Eo]]; exists o; (split; [exact Ho|]);
      vm_compute in Eo; injection Eo as <-; split; reflexivity. }
  unfold normalize_list. cbn [normalize]. unfold load at 1. cbn [nth_error not_null].
  destruct L as [|g0 L0]; [destruct N as [[]|[]]|].
  rewrite (@prepare_ok true 0 [g0 :: L0] (g0 :: L0) sorted items eq_refl Es Ei).
  set (h2 := [g0 :: L0] ++ [sorted]).
  destruct All as [o [Ho [To No]]].
  destruct items as [|o1 [|o2 items]]; [destruct Ho| |].
  - destruct Ho as [<- |[]]. rewrite No. reflexivity.
  - match goal with |- context [outer_loop true 0 ?k ?w0 h2] =>
      destruct (@outer_loop_stops 0 h2 (ex_intro _ (g0 :: L0) eq_refl) k w0) as [w' [E Nw]]
    end.
    + apply le_n.
    + exact Gi.
    + exact Root.
    + apply In_nth_error in Ho. destruct Ho as [j Hj]. exists j, o.
      split; [apply nth_error_Some; cbn [list_]; congruence|]. split; [exact Hj|exact To].
    + rewrite E. unfold finish. rewrite Nw. reflexivity.
Qed.

Lemma normalize_negate_all_witness :
  normalize_list 1 [js "a"; js "!*"; js "b.c"] true = Done (Ok []).
Proof.
  apply (@normalize_negate_all 0 [js "a"; js "!*"; js "b.c"]).
  - repeat (constructor; [vm_compute; reflexivity|]). constructor.
  - left. right. left. reflexivity.
  - intros a b [<- |[<- |[<- |[]]]] [<- |[<- |[<- |[]]]]; vm_compute; reflexivity.
Defined.

(** *** Union *)

Lemma grows_nth : forall h h' l (x : list jsstring),
    grows h h' -> nth_error h l = Some x -> nth_error h' l = Some x.
Proof.
  intros h h' l x [more ->] E. rewrite nth_error_app1; [exact E|].
  apply nth_error_Some. congruence.
Qed.

Lemma union_store : forall fuel a b r h out h',
    Glob_union fuel a b r h = (out, h') -> grows h h' /\ new_array h h' out.
Proof.
  intros fuel a b r h out h' E. unfold Glob_union in E.
  destruct (normalize fuel a r h) as [oa h1] eqn:Ea.
  destruct (@normalize_store fuel a r h oa h1 Ea) as [G1 N1].
  destruct oa as [[la|e]|]; try (injection E as <- <-; auto).
  destruct (normalize fuel b r h1) as [ob h2] eqn:Eb.
  destruct (@normalize_store fuel b r h1 ob h2 Eb) as [G2 N2].
  pose proof (grows_trans G1 G2) as G12.
  pose proof (grows_length G1) as L1. pose proof (grows_length G2) as L2.
  destruct ob as [[lb|e]|]; try (injection E as <- <-; split; [assumption|exact I]).
  unfold load in E.
  destruct (nth_error h2 la) as [ca|]; cbn [not_null] in E;
    [|injection E as <- <-; split; [assumption|exact I]].
  destruct (nth_error h2 lb) as [cb|]; cbn [not_null] in E;
    [|injection E as <- <-; split; [assumption|exact I]].
  destruct (length ca =? 0)%nat.
  { injection E as <- <-. split; [assumption|]. cbn [new_array] in *. lia. }
  destruct (length cb =? 0)%nat.
  { injection E as <- <-. split; [assumption|]. cbn [new_array] in *. lia. }
  destruct (u <- _compareUnion r ca cb [];; _compareUnion r cb ca u) as [u|e];
    [|injection E as <- <-; split; [assumption|exact I]].
  unfold alloc in E. destruct (@normalize_store fuel _ r _ out h' E) as [G3 N3].
  split; [eapply grows_trans; [exact G12|]; eapply grows_trans; [apply grows_one|exact G3]|].
  destruct out as [[o|]|]; cbn [new_array] in *; auto.
  rewrite length_app in N3. cbn [length] in N3. lia.
Qed.

(** X28: [union] leaves its two input arrays, and every array
    that existed before the call, as they were; the array it returns is a
    new one. *)
Theorem union_keeps_inputs : forall fuel globsA globsB restrictive h LA LB,
    nth_error h globsA = Some LA -> nth_error h globsB = Some LB ->
    nth_error (snd (Glob_union fuel globsA globsB restrictive h)) globsA = Some LA
    /\ nth_error (snd (Glob_union fuel globsA globsB restrictive h)) globsB = Some LB
    /\ grows h (snd (Glob_union fuel globsA globsB restrictive h))
    /\ new_array h (snd (Glob_union fuel globsA globsB restrictive h))
                 (fst (Glob_union fuel globsA globsB restrictive h)).
Proof.
  intros fuel a b r h LA LB Ea Eb.
  destruct (Glob_union fuel a b r h) as [out h'] eqn:E. cbn [fst snd].
  destruct (@union_store fuel a b r h out h' E) as [G N].
  split; [apply (@grows_nth h h' a LA G Ea)|].
  split; [apply (@grows_nth h h' b LB G Eb)|]. auto.
Qed.

Lemma union_keeps_inputs_witness :
  nth_error [[js "*"; js "!id"; js "!pwd"]; [js "*"; js "!pwd"; js "title"]] 0
  = Some [js "*"; js "!id"; js "!pwd"]
  /\ nth_error (snd (Glob_union 3 0 1 false
                        [[js "*"; js "!id"; js "!pwd"]; [js "*"; js "!pwd"; js "title"]])) 0
     = Some [js "*"; js "!id"; js "!pwd"].
Proof.
  exact (conj eq_refl
           (proj1 (@union_keeps_inputs 3 0 1 false
                     [[js "*"; js "!id"; js "!pwd"]; [js "*"; js "!pwd"; js "title"]]
                     [js "*"; js "!id"; js "!pwd"] [js "*"; js "!pwd"; js "title"]
                     eq_refl eq_refl))).
Defined.

Lemma union_normal : forall fuel globsA globsB restrictive h out h',
    Glob_union fuel globsA globsB restrictive h = (Done (Ok out), h') ->
    exists L, nth_error h' out = Some L /\ Forall normal L.
Proof.
  intros fuel a b r h out h' E. unfold Glob_union in E.
  destruct (normalize fuel a r h) as [[[la|e]|] h1] eqn:Ea; try discriminate E.
  destruct (normalize fuel b r h1) as [[[lb|e]|] h2] eqn:Eb; try discriminate E.
  destruct (@normalize_normal fuel a r h la h1 Ea) as [ca [Ca Fa]].
  destruct (@normalize_normal fuel b r h1 lb h2 Eb) as [cb [Cb Fb]].
  destruct (@normalize_store fuel b r h1 _ h2 Eb) as [G2 _].
  pose proof (@grows_nth h1 h2 la ca G2 Ca) as Ca2.
  unfold load in E. rewrite Ca2, Cb in E. cbn [not_null] in E.
  destruct (length ca =? 0)%nat; [injection E as <- <-; eauto|].
  destruct (length cb =? 0)%nat; [injection E as <- <-; eauto|].
  destruct (u <- _compareUnion r ca cb [];; _compareUnion r cb ca u) as [u|e];
    [|discriminate E].
  unfold alloc in E. apply (@normalize_normal fuel _ r _ out h' E).
Qed.

(** X29: whenever [union] returns a list, every glob of the list
    is valid and in normal form. *)
Theorem union_returns_normal_globs : forall fuel globsA globsB restrictive out,
    union_list fuel globsA globsB restrictive = Done (Ok out) ->
    Forall (fun g => valid g = true
                     /\ (bang g = false -> removeTrailingWildcards g = g)) out.
Proof.
  intros fuel A B r out E. unfold union_list in E.
  destruct (Glob_union fuel 0 1 r [A; B]) as [[[o|e]|] h'] eqn:Eu; try discriminate E.
  destruct (@union_normal fuel 0 1 r [A; B] o h' Eu) as [L [El F]].
  unfold load in E. cbn [fst] in E. rewrite El in E. cbn [not_null] in E.
  injection E as <-. exact F.
Qed.

Lemma union_returns_normal_globs_witness :
  union_list 3 [js "*"; js "!id"; js "!pwd"] [js "*"; js "!pwd"; js "title"] false
  = Done (Ok [js "*"; js "!pwd"])
  /\ Forall (fun g => valid g = true
                      /\ (bang g = false -> removeTrailingWildcards g = g))
            [js "*"; js "!pwd"].
Proof.
  assert (H : union_list 3 [js "*"; js "!id"; js "!pwd"] [js "*"; js "!pwd"; js "title"] false
              = Done (Ok [js "*"; js "!pwd"])) by (vm_compute; reflexivity).
  split; [exact H|].
  apply (@union_returns_normal_globs 3 _ _ false _ H).
Defined.

(** X30: when the first list normalizes to the empty list, [union]
    is [normalize] of the second one; when the second one does and the
    first does not, [union] returns the normalized first list. *)
Theorem union_with_an_empty_side : forall fuel globsA globsB restrictive h listA h1,
    normalize fuel globsA restrictive h = (Done (Ok listA), h1) ->
    (nth_error h1 listA = Some [] ->
     Glob_union fuel globsA globsB restrictive h = normalize fuel globsB restrictive h1)
    /\ (forall x LA listB h2,
           nth_error h1 listA = Some (x :: LA) ->
           normalize fuel globsB restrictive h1 = (Done (Ok listB), h2) ->
           nth_error h2 listB = Some [] ->
           Glob_union fuel globsA globsB restrictive h = (Done (Ok listA), h2)).
Proof.
  intros fuel a b r h la h1 Ea. split.
  - intros Ca. unfold Glob_union. rewrite Ea.
    destruct (normalize fuel b r h1) as [[[lb|e]|] h2] eqn:Eb; try reflexivity.
    destruct (@normalize_store fuel b r h1 _ h2 Eb) as [G2 _].
    destruct (@normalize_normal fuel b r h1 lb h2 Eb) as [cb [Cb _]].
    unfold load. rewrite (@grows_nth h1 h2 la [] G2 Ca), Cb. reflexivity.
  - intros x LA lb h2 Ca Eb Cb. unfold Glob_union. rewrite Ea, Eb.
    destruct (@normalize_store fuel b r h1 _ h2 Eb) as [G2 _].
    unfold load. rewrite (@grows_nth h1 h2 la (x :: LA) G2 Ca), Cb. reflexivity.
Qed.

Lemma union_with_an_empty_side_witness :
  normalize 2 0 false [[js "!x"]; [js "b"; js "a"]]
  = (Done (Ok 3), [[js "!x"]; [js "b"; js "a"]; [js "!x"]; []])
  /\ Glob_union 2 0 1 false [[js "!x"]; [js "b"; js "a"]]
     = normalize 2 1 false [[js "!x"]; [js "b"; js "a"]; [js "!x"]; []].
Proof.
  assert (H : normalize 2 0 false [[js "!x"]; [js "b"; js "a"]]
              = (Done (Ok 3), [[js "!x"]; [js "b"; js "a"]; [js "!x"]; []]))
    by (vm_compute; reflexivity).
  split; [exact H|].
  apply (proj1 (@union_with_an_empty_side 2 0 1 false _ _ _ H)). reflexivity.
Defined.

(** X3: [removeTrailingWildcards] is idempotent, drops nothing but a
    run of trailing [.*] and [[*]] at the end of its argument, and leaves a
    negated glob as it is. *)
Theorem removeTrailingWildcards_idempotent : forall g,
    removeTrailingWildcards (removeTrailingWildcards g) = removeTrailingWildcards g
    /\ (exists ws, Forall wild_tail ws /\ g = removeTrailingWildcards g ++ concat ws)
    /\ (bang g = true -> removeTrailingWildcards g = g).
Proof.
  intros g. split; [apply strip_twice|]. split; [apply strip_parts|].
  intros B. unfold removeTrailingWildcards.
  destruct (exec_group TRAIL_pre TRAIL_g1 TRAIL_post g) as [x|] eqn:E; [|reflexivity].
  destruct (@trail_match _ _ E) as [_ [B' _]]. congruence.
Qed.

(** X6: for a valid glob [g], the notes of [new Glob(g)] are
    [Glob.split(g, true)], and they are the split of its [absGlob]. *)
Theorem notes_are_split : forall g,
    valid g = true ->
    exists o ns, Glob_new g = Ok o /\ notes o = Some ns
                 /\ split g true = Ok (Some ns)
                 /\ split (absGlob o) false = Ok (Some ns).
Proof.
  intros g V.
  destruct (@inspect_valid g V) as [o [E [_ [_ [G [_ [_ [_ Ea]]]]]]]].
  destruct (@match_g_body _ G) as [ns [Em _]].
  assert (S1 : split (absGlob o) false = Ok (Some ns)).
  { rewrite split_plain_body by (assumption || discriminate). rewrite Em. reflexivity. }
  eexists. exists ns. unfold Glob_new. rewrite E. cbn [bind]. rewrite S1. cbn [bind].
  split; [reflexivity|]. split; [reflexivity|]. split; [|exact S1].
  unfold split. rewrite V. cbn [negb].
  destruct (bang g) eqn:B; cbn [negb andb] in *.
  - rewrite B, <- Ea, Em. reflexivity.
  - destruct (@glob_body_no_bang _ G) as [B' _]. rewrite Ea in B'.
    rewrite B', <- Ea, Em. reflexivity.
Qed.

Lemma notes_are_split_witness :
  valid (js "!a[0].*") = true
  /\ exists o ns, Glob_new (js "!a[0].*") = Ok o /\ notes o = Some ns
                  /\ split (js "!a[0].*") true = Ok (Some ns)
                  /\ split (absGlob o) false = Ok (Some ns).
Proof.
  split; [vm_compute; reflexivity|].
  apply (@notes_are_split (js "!a[0].*")). vm_compute. reflexivity.
Defined.

(** X10: [covers(A, B)] returns a boolean whenever both globs are
    valid once trimmed, and throws the invalid-glob error whenever one of
    them is not. *)
Theorem covers_errors : forall A B,
    (valid (trim A) = true -> valid (trim B) = true -> exists c, covers A B = Ok c)
    /\ (valid (trim A) = false \/ valid (trim B) = false ->
        covers A B = Throw InvalidGlob).
Proof.
  intros A B. split.
  - intros VA VB. unfold covers, _covers, glob_arg.
    rewrite (@Glob_new_trimmed A VA), (@Glob_new_trimmed B VB).
    destruct (@covers_valid _ _ VA VB) as [na [nb [Fa [Fb [_ [_ E]]]]]].
    unfold covers, _covers, glob_arg in E. rewrite E.
    destruct (bang (trim A) && (length nb <? length na)%nat); [eauto|].
    apply covers_loop_total; assumption.
  - intros H. unfold covers, _covers, glob_arg.
    destruct (valid (trim A)) eqn:VA.
    + destruct H as [H|VB]; [discriminate|].
      destruct (@Glob_new_ok _ VA) as [a [na [Ea _]]].
      rewrite Ea, (@Glob_new_invalid _ VB). reflexivity.
    + rewrite (@Glob_new_invalid _ VA). reflexivity.
Qed.

Lemma covers_errors_witness :
  valid (trim (js " *.y ")) = true /\ valid (trim (js "x.y")) = true
  /\ exists c, covers (js " *.y ") (js "x.y") = Ok c.
Proof.
  split; [vm_compute; reflexivity|]. split; [vm_compute; reflexivity|].
  apply (proj1 (covers_errors (js " *.y ") (js "x.y"))); vm_compute; reflexivity.
Defined.

(** *** Wildcard notes and [hasMagic] *)

Lemma hasMagic_stars : forall raw,
    hasMagic raw = true <->
    valid raw = true
    /\ (bang raw = true
        \/ exists p q, raw = p ++ "*"%char :: q
                       /\ Nat.even (occurrences DQ q) = true
                       /\ Nat.even (occurrences "'" q) = true).
Proof.
  intros raw. unfold hasMagic.
  rewrite andb_true_iff, orb_true_iff, WILDCARDS_test. tauto.
Qed.

Lemma quoteless_occurrences : forall s,
    quoteless s = true -> occurrences DQ s = 0 /\ occurrences "'" s = 0.
Proof.
  induction s as [|c s IH]; intros H; [split; reflexivity|].
  unfold quoteless in H. simpl in H. apply andb_true_iff in H. destruct H as [C H].
  destruct (IH H) as [E1 E2]. rewrite !occurrences_cons, E1, E2.
  apply negb_true_iff, orb_false_iff in C. destruct C as [C1 C2].
  rewrite C1, C2. split; reflexivity.
Qed.

Lemma all_occurrences : forall (p : ascii -> bool) q l,
    all_of p l -> p q = false -> occurrences q l = 0.
Proof.
  intros p q l F Q. apply occurrences_none.
  induction F as [|c l C _ IH]; constructor; [|exact IH].
  unfold not_char. destruct (Ascii.eqb c q) eqn:E; [|reflexivity].
  apply Ascii.eqb_eq in E. subst c. congruence.
Qed.

Lemma all_without : forall (p : ascii -> bool) x a b l,
    all_of p l -> p x = false -> l <> a ++ x :: b.
Proof.
  intros p x a b l F X E. subst l. apply Forall_app in F. destruct F as [_ F].
  inversion F as [|? ? C _]. congruence.
Qed.

Lemma var_quotes : forall t q,
    var_shape t -> q = DQ \/ q = "'"%char -> occurrences q t = 0.
Proof.
  intros t q V Q. destruct V as [c l C F].
  apply (@all_occurrences is_var_char).
  - constructor; [apply var_start_char; exact C|exact F].
  - destruct Q; subst q; reflexivity.
Qed.

(** Either quote comes twice or not at all in a bracket with a plain key. *)
Lemma bracket_quotes : forall t q,
    bracket_shape t -> plain_key t -> q = DQ \/ q = "'"%char ->
    Nat.even (occurrences q t) = true.
Proof.
  intros t q B K Q. destruct B as [|c l C F|q0 body Q0 F].
  - destruct Q; subst q; reflexivity.
  - change ("["%char :: c :: l ++ js "]") with (js "[" ++ (c :: l) ++ js "]").
    rewrite !occurrences_app.
    rewrite (@all_occurrences is_digit q (c :: l));
      [|constructor; assumption|destruct Q; subst q; reflexivity].
    destruct Q; subst q; reflexivity.
  - destruct (@quoteless_occurrences _ (K q0 body Q0 eq_refl)) as [E1 E2].
    change ("["%char :: q0 :: body ++ [q0; "]"%char])
      with (js "[" ++ [q0] ++ body ++ [q0] ++ js "]").
    rewrite !occurrences_app.
    assert (E : occurrences q body = 0) by (destruct Q; subst q; assumption).
    rewrite E.
    assert (Z : occurrences q (js "[") = 0 /\ occurrences q (js "]") = 0)
      by (destruct Q; subst q; split; reflexivity).
    destruct Z as [Z1 Z2]. rewrite Z1, Z2.
    destruct (Nat.even (occurrences q [q0])) eqn:P;
      rewrite !Nat.add_0_l, Nat.add_0_r, Nat.even_add, P; reflexivity.
Qed.

Lemma piece_quotes : forall t q,
    piece_shape t -> plain_key t -> q = DQ \/ q = "'"%char ->
    Nat.even (occurrences q t) = true.
Proof.
  intros t q [N|T] K Q.
  - destruct N as [|t V|t B].
    + destruct Q; subst q; reflexivity.
    + rewrite (@var_quotes _ _ V Q). reflexivity.
    + apply bracket_quotes; assumption.
  - destruct T as [t B|t V|].
    + apply bracket_quotes; assumption.
    + rewrite occurrences_cons, (@var_quotes _ _ V Q). destruct Q; subst q; reflexivity.
    + destruct Q; subst q; reflexivity.
Qed.

Lemma pieces_quotes : forall ts q,
    Forall piece_shape ts -> Forall plain_key ts -> q = DQ \/ q = "'"%char ->
    Nat.even (occurrences q (concat ts)) = true.
Proof.
  intros ts q F. induction F as [|t ts T _ IH]; intros K Q; [reflexivity|].
  inversion K as [|? ? Kt Kts]; subst. simpl.
  rewrite occurrences_app, (@even_add _ _ (@piece_quotes _ _ T Kt Q)). apply IH; assumption.
Qed.

(** A character of a concatenation lies in one of the pieces. *)
Lemma concat_at : forall (ts : list jsstring) P c Q,
    concat ts = P ++ c :: Q ->
    exists pre t post p r,
      ts = pre ++ t :: post /\ t = p ++ c :: r /\ Q = r ++ concat post.
Proof.
  induction ts as [|t ts IH]; intros P c Q E; [destruct P; discriminate E|].
  simpl in E. apply app_eq_app in E. destruct E as [l [[Et El]|[Ep El]]].
  - destruct l as [|x r].
    + simpl in El. symmetry in El. change (c :: Q) with ([] ++ c :: Q) in El.
      destruct (IH _ _ _ El) as [pre [t0 [post [p [r [-> [-> ->]]]]]]].
      exists (t :: pre), (p ++ c :: r), post, p, r. auto.
    + injection El as <- ->. exists [], t, ts, P, r. auto.
  - destruct (IH _ _ _ El) as [pre [t0 [post [p [r [-> [-> ->]]]]]]].
    exists (t :: pre), (p ++ c :: r), post, p, r. auto.
Qed.

Lemma untail_wild : forall t,
    test_anchored WILDCARD (untail t) = true ->
    exists p r, t = p ++ "*"%char :: r
                /\ occurrences DQ r = 0 /\ occurrences "'" r = 0.
Proof.
  intros t W.
  assert (U : untail t = js "*" \/ untail t = js "[*]").
  { destruct (list_eq_dec ascii_dec (untail t) (js "*")) as [E|N1]; [left; exact E|].
    destruct (list_eq_dec ascii_dec (untail t) (js "[*]")) as [E|N2]; [right; exact E|].
    rewrite (@wildcard_only _ N1 N2) in W. discriminate W. }
  destruct t as [|c t]; [destruct U as [U|U]; discriminate U|].
  unfold untail in U. destruct (is_char "." c).
  - destruct U as [-> | ->].
    + exists [c], []. repeat split; reflexivity.
    + exists [c; "["%char], (js "]"). repeat split; reflexivity.
  - destruct U as [U|U]; rewrite U.
    + exists [], []. repeat split; reflexivity.
    + exists (js "["), (js "]"). repeat split; reflexivity.
Qed.

Lemma quoted_star : forall (q0 : ascii) body p r,
    q0 <> "*"%char ->
    "["%char :: q0 :: body ++ [q0; "]"%char] = p ++ "*"%char :: r ->
    exists p' r', body = p' ++ "*"%char :: r' /\ r = r' ++ [q0; "]"%char].
Proof.
  intros q0 body p r N E.
  destruct p as [|a p]; [discriminate E|]. injection E as _ E.
  destruct p as [|b p]; [injection E as E _; congruence|]. injection E as _ E.
  apply app_eq_app in E. destruct E as [l [[Eb El]|[Ep El]]].
  - destruct l as [|x r']; [injection El as El _; congruence|].
    injection El as <- ->. exists p, r'. auto.
  - destruct l as [|x [|y l]].
    + injection El as El _. congruence.
    + injection El as _ El _. discriminate El.
    + injection El as _ _ El. destruct l; discriminate El.
Qed.

(** A star in a piece with a plain key: the piece is a wildcard, or the
    star stands in a quoted key and one quote is left after it. *)
Lemma piece_star : forall t p r,
    piece_shape t -> plain_key t -> t = p ++ "*"%char :: r ->
    (test_anchored WILDCARD (untail t) = true
     /\ occurrences DQ r = 0 /\ occurrences "'" r = 0)
    \/ Nat.even (occurrences DQ r) = false
    \/ Nat.even (occurrences "'" r) = false.
Proof.
  assert (Var : forall t p r, var_shape t -> t <> p ++ "*"%char :: r).
  { intros t p r V. destruct V as [c l C F].
    apply (@all_without is_var_char);
      [constructor; [apply var_start_char; exact C|exact F]|reflexivity]. }
  assert (Any : forall p r, js "[*]" = p ++ "*"%char :: r -> r = js "]").
  { intros p r E. change (js "[*]") with ["["%char; "*"%char; "]"%char] in E.
    destruct p as [|a [|b [|c p]]]; cbn in E; try discriminate E.
    - injection E as _ E. symmetry. exact E.
    - injection E as _ _ _ E. destruct p; discriminate E. }
  assert (Br : forall t p r, bracket_shape t -> plain_key t -> t = p ++ "*"%char :: r ->
                             (test_anchored WILDCARD (untail t) = true
                              /\ occurrences DQ r = 0 /\ occurrences "'" r = 0)
                             \/ Nat.even (occurrences DQ r) = false
                             \/ Nat.even (occurrences "'" r) = false).
  { intros t p r B K E. destruct B as [|c l C F|q0 body Q0 F].
    - apply Any in E. subst r. left. repeat split; reflexivity.
    - exfalso. destruct p as [|a p]; [discriminate E|]. injection E as _ E.
      apply (@app_eq_app _ (c :: l) ["]"%char] p ("*"%char :: r)) in E.
      destruct E as [x [[E1 E2]|[E1 E2]]].
      + destruct x as [|y x].
        * cbn in E2. injection E2 as E2 _. discriminate E2.
        * injection E2 as <- _. revert E1. apply (@all_without is_digit);
            [constructor; assumption|reflexivity].
      + destruct x as [|y [|z x]]; discriminate E2.
    - right. destruct (@quoteless_occurrences _ (K q0 body Q0 eq_refl)) as [E1 E2].
      assert (N : q0 <> "*"%char) by (destruct Q0; subst q0; discriminate).
      destruct (@quoted_star _ _ _ _ N E) as [p' [r' [-> ->]]].
      rewrite occurrences_app in E1, E2.
      assert (Z1 : occurrences DQ r' = 0) by (rewrite occurrences_cons in E1; simpl in E1; lia).
      assert (Z2 : occurrences "'" r' = 0) by (rewrite occurrences_cons in E2; simpl in E2; lia).
      rewrite !occurrences_app, Z1, Z2.
      destruct Q0; subst q0; [left|right]; reflexivity. }
  intros t p r [N|T] K E.
  - destruct N as [|t V|t B].
    + destruct p as [|a p].
      * injection E as <-. left. repeat split; reflexivity.
      * injection E as _ E. destruct p; discriminate E.
    + exfalso. exact (Var _ _ _ V E).
    + exact (Br _ _ _ B K E).
  - destruct T as [t B|t V|].
    + exact (Br _ _ _ B K E).
    + exfalso. destruct p as [|a p]; [discriminate E|]. injection E as _ E.
      exact (Var _ _ _ V E).
    + destruct p as [|a [|b p]].
      * discriminate E.
      * injection E as _ <-. left. repeat split; reflexivity.
      * injection E as _ _ E. destruct p; discriminate E.
Qed.

Lemma untail_note : forall h, note_shape h -> untail h = h.
Proof.
  intros h N. destruct N as [|t V|t B]; [reflexivity| |destruct B; reflexivity].
  destruct V as [c l C _]. apply var_start_char, var_char_facts in C.
  destruct C as [_ [_ [_ [_ [_ C]]]]]. unfold untail, is_char.
  destruct (Ascii.eqb c ".") eqn:E; [|reflexivity].
  apply Ascii.eqb_eq in E. congruence.
Qed.

(** [hasMagic] on a glob without its bang, given by its pieces. *)
Lemma hasMagic_pieces : forall h ts,
    note_shape h -> Forall tail_shape ts -> Forall plain_key (h :: ts) ->
    (hasMagic (h ++ concat ts) = true <->
     Exists (fun t => test_anchored WILDCARD t = true) (h :: map untail ts)).
Proof.
  intros h ts N T K.
  assert (G : glob_body (h ++ concat ts)) by (exists h, ts; auto).
  assert (P : Forall piece_shape (h :: ts)).
  { constructor; [left; exact N|]. eapply Forall_impl; [|exact T]. intros t H. right. exact H. }
  assert (U : h :: map untail ts = map untail (h :: ts)).
  { simpl. rewrite (@untail_note _ N). reflexivity. }
  rewrite U. clear U.
  change (h ++ concat ts) with (concat (h :: ts)) in *.
  revert P K G. generalize (h :: ts) as l. clear h ts N T. intros l P K G.
  rewrite hasMagic_stars. split.
  - intros [_ [B|[p [q [E [E1 E2]]]]]].
    { apply glob_body_no_bang in G. destruct G as [G _]. congruence. }
    destruct (@concat_at _ _ _ _ E) as [pre [t [post [p' [r [-> [Et ->]]]]]]].
    apply Forall_app in P, K. destruct P as [_ P], K as [_ K].
    inversion P as [|? ? Pt Pp]; inversion K as [|? ? Kt Kp]; subst.
    rewrite occurrences_app, Nat.even_add in E1, E2.
    rewrite (@pieces_quotes post DQ Pp Kp (or_introl eq_refl)) in E1.
    rewrite (@pieces_quotes post "'"%char Pp Kp (or_intror eq_refl)) in E2.
    destruct (@piece_star _ p' r Pt Kt eq_refl) as [[W _]|[O|O]].
    + apply Exists_exists. exists (untail (p' ++ "*"%char :: r)). split; [|exact W].
      apply in_map, in_elt.
    + rewrite O in E1. discriminate E1.
    + rewrite O in E2. discriminate E2.
  - intros X. apply Exists_exists in X. destruct X as [x [I W]].
    apply in_map_iff in I. destruct I as [t [<- I]].
    apply in_split in I. destruct I as [pre [post ->]].
    destruct (@untail_wild _ W) as [p [r [-> [Z1 Z2]]]].
    apply Forall_app in P, K. destruct P as [_ P], K as [_ K].
    inversion P as [|? ? Pt Pp]; inversion K as [|? ? Kt Kp]; subst.
    split; [apply glob_body_valid; exact G|]. right.
    exists (concat pre ++ p), (r ++ concat post). split; [|split].
    + rewrite concat_app. simpl. rewrite <- !app_assoc. reflexivity.
    + rewrite occurrences_app, Z1. apply pieces_quotes; auto.
    + rewrite occurrences_app, Z2. apply pieces_quotes; auto.
Qed.

Lemma quoteless_plain : forall ts,
    quoteless (concat ts) = true -> Forall plain_key ts.
Proof.
  induction ts as [|t ts IH]; intros Q; [constructor|].
  simpl in Q. rewrite quoteless_app in Q. apply andb_prop in Q. destruct Q as [Qt Qs].
  constructor; [|apply IH; exact Qs].
  intros q body Hq E. subst t. exfalso.
  simpl in Qt. apply andb_prop in Qt. destruct Qt as [Qt _].
  destruct Hq; subst q; discriminate Qt.
Qed.

(** [hasMagic] on a valid glob without quotes, through the notes [split]
    gives. *)
Lemma hasMagic_split : forall raw,
    valid raw = true -> quoteless raw = true ->
    exists ns,
      split raw false = Ok (Some ns)
      /\ (hasMagic raw = true <->
          bang raw = true \/ Exists (fun t => test_anchored WILDCARD t = true) ns).
Proof.
  intros raw V Q. destruct (bang raw) eqn:B.
  - destruct (@valid_negated raw V B) as [h [ts [E [N T]]]].
    assert (Q' : quoteless (h ++ concat ts) = true).
    { rewrite <- E. destruct raw; [reflexivity|]. simpl in Q. apply andb_prop in Q. apply Q. }
    exists (h :: map untail ts). split.
    + unfold split. rewrite V. cbn [negb]. rewrite B. cbn [negb andb]. rewrite B, E.
      rewrite (@body_tokens h ts N T Q'). reflexivity.
    + split; [auto|]. intros _. apply hasMagic_stars. auto.
  - destruct (@valid_body raw V B) as [h [ts [E [N T]]]]. subst raw.
    exists (h :: map untail ts). split.
    + unfold split. rewrite V. cbn [negb]. rewrite B. cbn [negb andb]. rewrite B.
      rewrite (@body_tokens h ts N T Q). reflexivity.
    + rewrite (@hasMagic_pieces h ts N T (@quoteless_plain (h :: ts) Q)).
      split; [auto|]. intros [H|H]; [discriminate H|exact H].
Qed.

(** C5, amended: [hasMagic] is false on every string that is not a valid
    glob.  For a valid glob whose quoted keys hold no quote character (given
    by its bang, its first note and the notes that follow), [hasMagic] is
    true iff the glob is negated or one of its notes is a wildcard, [*] or
    [[*]], whatever its position, the last one included.  For a valid
    glob without quotes these notes are the ones [split] returns.  So
    [hasMagic('x.*')] is true. *)
Theorem hasMagic_wildcard_notes :
  (forall raw, valid raw = false -> hasMagic raw = false)
  /\ (forall (negated : bool) h ts,
         note_shape h -> Forall tail_shape ts -> Forall plain_key (h :: ts) ->
         let raw := (if negated then js "!" else []) ++ h ++ concat ts in
         valid raw = true /\ bang raw = negated
         /\ (hasMagic raw = true <->
             negated = true
             \/ Exists (fun t => test_anchored WILDCARD t = true) (h :: map untail ts)))
  /\ (forall raw,
         valid raw = true -> quoteless raw = true ->
         exists ns,
           split raw false = Ok (Some ns)
           /\ (hasMagic raw = true <->
               bang raw = true \/ Exists (fun t => test_anchored WILDCARD t = true) ns))
  /\ hasMagic (js "x.*") = true.
Proof.
  split; [|split; [|split; [exact hasMagic_split|reflexivity]]].
  - intros raw V. unfold hasMagic. rewrite V. reflexivity.
  - intros negated h ts N T K raw.
    assert (G : glob_body (h ++ concat ts)) by (exists h, ts; auto).
    destruct negated; subst raw.
    + assert (V : valid (js "!" ++ h ++ concat ts) = true).
      { apply valid_iff. right. exists (h ++ concat ts). auto. }
      split; [exact V|]. split; [reflexivity|].
      split; [auto|]. intros _. apply hasMagic_stars. split; [exact V|left; reflexivity].
    + split; [apply glob_body_valid; exact G|].
      split; [apply glob_body_no_bang; exact G|].
      change ([] ++ h ++ concat ts) with (h ++ concat ts).
      rewrite (@hasMagic_pieces _ _ N T K). split; [auto|]. intros [H|H]; [discriminate H|exact H].
Qed.

Lemma hasMagic_wildcard_notes_witness :
  note_shape (js "x")
  /\ Forall tail_shape ["["%char :: DQ :: js "k" ++ [DQ; "]"%char]; js ".*"]
  /\ Forall plain_key [js "x"; "["%char :: DQ :: js "k" ++ [DQ; "]"%char]; js ".*"]
  /\ hasMagic (js "x" ++ concat ["["%char :: DQ :: js "k" ++ [DQ; "]"%char]; js ".*"]) = true.
Proof.
  assert (N : note_shape (js "x")).
  { apply shape_name. constructor; [reflexivity|constructor]. }
  assert (T : Forall tail_shape ["["%char :: DQ :: js "k" ++ [DQ; "]"%char]; js ".*"]).
  { constructor; [|constructor; [apply tail_any|constructor]].
    apply tail_bracket, shape_quoted; [left; reflexivity|].
    constructor; [reflexivity|constructor]. }
  assert (K : Forall plain_key
                     [js "x"; "["%char :: DQ :: js "k" ++ [DQ; "]"%char]; js ".*"]).
  { constructor; [intros q body _ E; discriminate E|].
    constructor; [|constructor; [intros q body _ E; discriminate E|constructor]].
    intros q body _ E. injection E as <- E.
    apply (@app_inv_tail _ [DQ; "]"%char] (js "k") body) in E. subst body. reflexivity. }
  split; [exact N|]. split; [exact T|]. split; [exact K|].
  apply (proj2 (proj2 (proj2 (proj1 (proj2 hasMagic_wildcard_notes) false _ _ N T K)))).
  right. right. right. left. reflexivity.
Defined.
